(** * The audio delivery pipeline: playback engine and synthesis stream client

    A shallow embedding of [speaker.py], [tts_client.py], [audio_utils.py]
    and [config.py].  The two background loops ([Speaker._play] and
    [TTSClient._receiver]) and the two lifecycle methods that race with them
    ([Speaker.stop], [TTSClient.close]) are embedded statement by statement,
    as program points of a small-step machine; a schedule (a list of labels)
    says which thread runs next and what the environment answers (whether the
    audio device accepts a write, what the connection delivers). *)

From Stdlib Require Import Strings.String Strings.Ascii Strings.Byte.
From Stdlib Require Import List ZArith Lia Bool Arith.
Import ListNotations.

Set Implicit Arguments.

(** ** Bytes and Python slices *)

Definition bytes := list byte.

(** A slice bound [n] of a sequence of length [len], as Python resolves it:
    a negative bound counts from the end, and every bound is clamped to
    [0 .. len]. *)
Definition slice_bound (n : Z) (len : nat) : nat :=
  if (n <? 0)%Z
  then Z.to_nat (Z.max 0 (Z.of_nat len + n))
  else Z.to_nat (Z.min n (Z.of_nat len)).

(** [b[:n]] *)
Definition slice_to (b : bytes) (n : Z) : bytes :=
  firstn (slice_bound n (length b)) b.

(** [b[n:]] *)
Definition slice_from (b : bytes) (n : Z) : bytes :=
  skipn (slice_bound n (length b)) b.

(** The truth value of a bytes object: [if self._buffer:]. *)
Definition truthy (b : bytes) : bool :=
  match b with [] => false | _ :: _ => true end.

(** ** config.py *)

Module Config.
Definition CHANNELS : Z := 1.
Definition RATE : Z := 48000.
Definition CHUNK : Z := 4096.
End Config.

(** ** The audio output sink

    The pyaudio stream is a collaborator outside the repository.  The model
    keeps what the code can observe of it: whether it is running, whether it
    has been closed, and the chronological log of the calls made on it.  A
    write is accepted only by a stream that is running and not closed, and
    then only if the device accepts it ([ok], chosen by the environment);
    otherwise the call raises. *)

Inductive sink_event :=
| SinkOpen (rate channels frames_per_buffer : Z)
| SinkStart
| SinkStop
| SinkClose
| SinkWrite (frame : bytes)      (* a write the device accepted *)
| SinkRefuse (frame : bytes).    (* a write that raised *)

Record Sink := mkSink {
  s_active : bool;
  s_closed : bool;
  s_log : list sink_event
}.

Definition no_sink : Sink := mkSink false false [].

Definition sink_open (rate channels fpb : Z) (s : Sink) : Sink :=
  mkSink true false (s_log s ++ [SinkOpen rate channels fpb]).

Definition sink_start (s : Sink) : Sink :=
  mkSink true (s_closed s) (s_log s ++ [SinkStart]).

Definition sink_stop (s : Sink) : Sink :=
  mkSink false (s_closed s) (s_log s ++ [SinkStop]).

Definition sink_close (s : Sink) : Sink :=
  mkSink (s_active s) true (s_log s ++ [SinkClose]).

Definition sink_accepts (ok : bool) (s : Sink) : bool :=
  s_active s && negb (s_closed s) && ok.

Definition sink_write (ok : bool) (frame : bytes) (s : Sink) : bool * Sink :=
  if sink_accepts ok s
  then (true, mkSink (s_active s) (s_closed s) (s_log s ++ [SinkWrite frame]))
  else (false, mkSink (s_active s) (s_closed s) (s_log s ++ [SinkRefuse frame])).

(** The frames the device accepted, in write order. *)
Fixpoint written (log : list sink_event) : list bytes :=
  match log with
  | [] => []
  | SinkWrite f :: log' => f :: written log'
  | _ :: log' => written log'
  end.

(** Every attempt to write, accepted or not, in call order. *)
Fixpoint attempted (log : list sink_event) : list bytes :=
  match log with
  | [] => []
  | SinkWrite f :: log' => f :: attempted log'
  | SinkRefuse f :: log' => f :: attempted log'
  | _ :: log' => attempted log'
  end.

(** Some write call comes after a close call in the log. *)
Fixpoint touched_after_close (log : list sink_event) : bool :=
  match log with
  | [] => false
  | SinkClose :: log' =>
      negb (Nat.eqb (length (attempted log')) 0) || touched_after_close log'
  | _ :: log' => touched_after_close log'
  end.

(** ** speaker.py *)

Module Speaker.

(** The fields of a [Speaker] object.  [_stream] and [_thread] hold a
    reference or [None]; the stream and the thread themselves live in the
    machine state below, since they outlive the reference. *)
Record Speaker := mkSpeaker {
  _exit : bool;
  _queue : list bytes;
  _chunk : Z;
  _rate : Z;
  _channels : Z;
  _buffer : bytes;
  _stream : option unit;
  _thread : option unit
}.

(** [Speaker.__init__] *)
Definition init (rate chunk channels : Z) : Speaker :=
  mkSpeaker false [] chunk rate channels [] None None.

Definition set_exit (v : bool) (s : Speaker) : Speaker :=
  mkSpeaker v (_queue s) (_chunk s) (_rate s) (_channels s) (_buffer s)
            (_stream s) (_thread s).
Definition set_queue (v : list bytes) (s : Speaker) : Speaker :=
  mkSpeaker (_exit s) v (_chunk s) (_rate s) (_channels s) (_buffer s)
            (_stream s) (_thread s).
Definition set_buffer (v : bytes) (s : Speaker) : Speaker :=
  mkSpeaker (_exit s) (_queue s) (_chunk s) (_rate s) (_channels s) v
            (_stream s) (_thread s).
Definition set_stream (v : option unit) (s : Speaker) : Speaker :=
  mkSpeaker (_exit s) (_queue s) (_chunk s) (_rate s) (_channels s) (_buffer s)
            v (_thread s).
Definition set_thread (v : option unit) (s : Speaker) : Speaker :=
  mkSpeaker (_exit s) (_queue s) (_chunk s) (_rate s) (_channels s) (_buffer s)
            (_stream s) v.

(** Exceptions seen by the playback thread. *)
Inductive exn :=
| AttributeError   (* [self._stream] is [None] *)
| SinkError.       (* the stream refused the write *)

(** Program points of [Speaker._play] (line numbers of speaker.py). *)
Inductive pc :=
| PWhile                 (* 51: test of the exit flag *)
| PGet                   (* 53-54: [queue.get(timeout)], then the append *)
| PInner                 (* 55-57: test of the inner loop, then the slicing *)
| PWrite (chunk : bytes) (* 58: write of the frame just sliced off *)
| PFlush                 (* 60-61: idle timeout, buffer non-empty: write it *)
| PClear                 (* 62: clear the buffer *)
| PExited                (* the loop was left: the thread has ended *)
| PCrashed (e : exn).    (* an exception left [_play]: the thread has ended *)

(** Program points of [Speaker.stop]. *)
Inductive stop_pc :=
| SEntry        (* 37: not yet called, or about to set the exit flag *)
| STestStream   (* 38 *)
| SStopStream   (* 39 *)
| SClose        (* 40 *)
| SClearStream  (* 41 *)
| STestThread   (* 42 *)
| SJoin         (* 43 *)
| SClearThread  (* 44 *)
| SResetQueue   (* 45 *)
| SReturned.

(** The playback engine at run time: the object, the device stream it
    opened, the playback thread ([None] until [start] creates it), what the
    thread printed, and how far the thread that called [stop] has come. *)
Record Sys := mkSys {
  spk : Speaker;
  dev : Sink;
  player : option pc;
  printed : list exn;
  stopper : stop_pc
}.

Definition with_spk (f : Speaker -> Speaker) (w : Sys) : Sys :=
  mkSys (f (spk w)) (dev w) (player w) (printed w) (stopper w).
Definition with_dev (d : Sink) (w : Sys) : Sys :=
  mkSys (spk w) d (player w) (printed w) (stopper w).
Definition at_pc (p : pc) (w : Sys) : Sys :=
  mkSys (spk w) (dev w) (Some p) (printed w) (stopper w).
Definition print_error (e : exn) (w : Sys) : Sys :=
  mkSys (spk w) (dev w) (player w) (printed w ++ [e]) (stopper w).
Definition at_stop (p : stop_pc) (w : Sys) : Sys :=
  mkSys (spk w) (dev w) (player w) (printed w) p.

(** A new engine: [Speaker(rate, chunk, channels)], nothing started. *)
Definition new (chunk : Z) : Sys :=
  mkSys (init Config.RATE chunk Config.CHANNELS) no_sink None [] SEntry.

(** [Speaker.start].  [opened] says whether [self._audio.open] succeeds; when
    it raises, [start] raises with it and nothing else has happened.  The
    stream is opened running, the exit flag is cleared, and the thread is
    created at the head of [_play].

    Lines 21-33 are one step here: the new thread takes no statement between
    its creation (line 32) and [start_stream] (line 33).  In the code it
    can: with fragments queued before [start], a first write may reach the
    device before [start_stream] does.  The stream is opened running, so
    that write is accepted all the same; only the place of [SinkStart]
    among the writes of [s_log] differs, and nothing below reads it:
    [written], [attempted] and [lifecycle] are the same in both orders. *)
Definition start (opened : bool) (w : Sys) : Sys :=
  if opened then
    let s := spk w in
    mkSys (set_thread (Some tt) (set_exit false (set_stream (Some tt) s)))
          (sink_start (sink_open (_rate s) (_channels s) (_chunk s) (dev w)))
          (Some PWhile) (printed w) (stopper w)
  else w.

(** [Speaker.play] *)
Definition play (data : bytes) (w : Sys) : Sys :=
  with_spk (fun s => set_queue (_queue s ++ [data]) s) w.

(** [self._stream.write(frame)]: an [AttributeError] when the reference is
    [None], otherwise the call on the stream. *)
Definition stream_write (ok : bool) (frame : bytes) (w : Sys)
  : option exn * Sys :=
  match _stream (spk w) with
  | None => (Some AttributeError, w)
  | Some _ =>
      let (accepted, d) := sink_write ok frame (dev w) in
      (if accepted then None else Some SinkError, with_dev d w)
  end.

(** One statement of [Speaker._play].  [queue.get(timeout)] takes the head
    of the queue when there is one; the statement run on an empty queue is
    the wait that has timed out (a fragment that arrives during the wait is
    a schedule in which its [Play] comes first).  A write inside the [try]
    body that raises lands in [except Exception]: it is printed and the
    outer loop goes on.  A write inside the [except queue.Empty] handler
    that raises is not covered by the sibling [except] clause: it leaves
    [_play]. *)
Definition player_step (ok : bool) (w : Sys) : Sys :=
  let s := spk w in
  match player w with
  | Some PWhile =>
      if _exit s then at_pc PExited w else at_pc PGet w
  | Some PGet =>
      match _queue s with
      | data :: rest =>
          at_pc PInner
            (with_spk (fun s => set_buffer (_buffer s ++ data) (set_queue rest s)) w)
      | [] =>
          if truthy (_buffer s) then at_pc PFlush w else at_pc PWhile w
      end
  | Some PInner =>
      if (Z.of_nat (length (_buffer s)) >=? _chunk s)%Z
      then at_pc (PWrite (slice_to (_buffer s) (_chunk s)))
             (with_spk (set_buffer (slice_from (_buffer s) (_chunk s))) w)
      else at_pc PWhile w
  | Some (PWrite chunk) =>
      match stream_write ok chunk w with
      | (None, w') => at_pc PInner w'
      | (Some e, w') => at_pc PWhile (print_error e w')
      end
  | Some PFlush =>
      match stream_write ok (_buffer s) w with
      | (None, w') => at_pc PClear w'
      | (Some e, w') => at_pc (PCrashed e) w'
      end
  | Some PClear =>
      at_pc PWhile (with_spk (set_buffer []) w)
  | Some PExited | Some (PCrashed _) | None => w
  end.

Definition finished (p : option pc) : bool :=
  match p with
  | Some PExited | Some (PCrashed _) => true
  | _ => false
  end.

(** One statement of [Speaker.stop], run by the calling thread.  [join]
    blocks until the thread has ended: a blocked caller does not move. *)
Definition stop_step (w : Sys) : Sys :=
  match stopper w with
  | SEntry => at_stop STestStream (with_spk (set_exit true) w)
  | STestStream =>
      match _stream (spk w) with
      | Some _ => at_stop SStopStream w
      | None => at_stop STestThread w
      end
  | SStopStream => at_stop SClose (with_dev (sink_stop (dev w)) w)
  | SClose => at_stop SClearStream (with_dev (sink_close (dev w)) w)
  | SClearStream => at_stop STestThread (with_spk (set_stream None) w)
  | STestThread =>
      match _thread (spk w) with
      | Some _ => at_stop SJoin w
      | None => at_stop SResetQueue w
      end
  | SJoin => if finished (player w) then at_stop SClearThread w else w
  | SClearThread => at_stop SResetQueue (with_spk (set_thread None) w)
  | SResetQueue => at_stop SReturned (with_spk (set_queue []) w)
  | SReturned => w
  end.

(** What a schedule is made of: a producer thread calls [play], the
    playback thread runs one statement (and the device accepts a write or
    not), the thread in [stop] runs one statement. *)
Inductive label :=
| Play (data : bytes)
| Player (ok : bool)
| Stop.

Definition step (l : label) (w : Sys) : Sys :=
  match l with
  | Play data => play data w
  | Player ok => player_step ok w
  | Stop => stop_step w
  end.

Definition run (sched : list label) (w : Sys) : Sys :=
  fold_left (fun w l => step l w) sched w.

(** The states a schedule goes through, the first and the last included. *)
Fixpoint visited (sched : list label) (w : Sys) : list Sys :=
  match sched with
  | [] => [w]
  | l :: sched' => w :: visited sched' (step l w)
  end.

(** The fragments a schedule enqueues, in arrival order. *)
Fixpoint enqueued (sched : list label) : list bytes :=
  match sched with
  | [] => []
  | Play data :: sched' => data :: enqueued sched'
  | _ :: sched' => enqueued sched'
  end.

(** A schedule of normal operation: nobody calls [stop] and the device
    accepts every write. *)
Definition nominal_label (l : label) : bool :=
  match l with
  | Play _ => true
  | Player ok => ok
  | Stop => false
  end.

Definition nominal (sched : list label) : bool := forallb nominal_label sched.

(** A schedule in which nobody calls [stop]; the device may refuse writes. *)
Definition unstopped_label (l : label) : bool :=
  match l with
  | Stop => false
  | _ => true
  end.

Definition unstopped (sched : list label) : bool :=
  forallb unstopped_label sched.

(** A started engine with frame size [chunk]. *)
Definition started (chunk : Z) : Sys := start true (new chunk).

(** The bytes the engine holds and has not handed to the device: the frame
    about to be written, the buffer, and the queue.  Once the idle flush
    has called the stream on line 61 the buffer has been handed over,
    whether line 62 is still to come or the stream refused the write and
    the thread has ended. *)
Definition held (w : Sys) : bytes :=
  match player w with
  | Some (PWrite c) => c ++ _buffer (spk w)
  | Some PClear | Some (PCrashed SinkError) => []
  | _ => _buffer (spk w)
  end ++ concat (_queue (spk w)).

(** The byte stream handed to the device, refused writes included. *)
Definition offered_stream (w : Sys) : bytes :=
  concat (attempted (s_log (dev w))).

(** The byte stream the device has accepted. *)
Definition sink_stream (w : Sys) : bytes := concat (written (s_log (dev w))).

(** The program points outside the slicing of a dequeued fragment: every
    point but the test of line 55 and the write of line 58.  The idle flush
    (lines 60-62) is outside the slicing. *)
Definition observation_point (p : option pc) : bool :=
  match p with
  | Some PInner | Some (PWrite _) => false
  | _ => true
  end.

(** The spec's words: a byte stream split at frame-size boundaries, with one
    final short frame when the length is not a multiple of the frame size. *)
Fixpoint frames_upto (fuel n : nat) (b : bytes) : list bytes :=
  match fuel with
  | O => []
  | S fuel' =>
      match b with
      | [] => []
      | _ :: _ =>
          if length b <? n then [b]
          else firstn n b :: frames_upto fuel' n (skipn n b)
      end
  end.

Definition split_frames (n : nat) (b : bytes) : list bytes :=
  frames_upto (length b) n b.

(** Normal operation: nobody is in [stop], the exit flag is clear, the
    stream reference is set and the stream is running, the thread is alive
    and has printed no error. *)
Record Normal (c : Z) (w : Sys) : Prop := {
  n_stopper : stopper w = SEntry;
  n_exit : _exit (spk w) = false;
  n_chunk : _chunk (spk w) = c;
  n_stream : _stream (spk w) = Some tt;
  n_active : s_active (dev w) = true;
  n_closed : s_closed (dev w) = false;
  n_alive : exists p, player w = Some p /\ finished (Some p) = false;
  n_printed : printed w = []
}.

(** A started engine on which nobody has called [stop]: the stream
    reference is set and the stream is running. *)
Record Unstopped (w : Sys) : Prop := {
  u_stopper : stopper w = SEntry;
  u_stream : _stream (spk w) = Some tt;
  u_active : s_active (dev w) = true;
  u_closed : s_closed (dev w) = false
}.

(** The size invariant of normal operation, for a positive frame size: a
    frame on its way to the device is exactly one frame long, the buffer is
    shorter than a frame except while a fragment is being sliced, and it is
    not empty when the idle flush writes it. *)
Definition sized (c : Z) (w : Sys) : Prop :=
  let len := Z.of_nat (length (_buffer (spk w))) in
  match player w with
  | Some (PWrite f) => Z.of_nat (length f) = c
  | Some PInner => True
  | Some PFlush => (0 < len < c)%Z
  | _ => (len < c)%Z
  end.

Definition frame_sized (c : Z) (f : bytes) : Prop :=
  (0 < Z.of_nat (length f) <= c)%Z.

Definition full_frame (c : Z) (f : bytes) : Prop :=
  Z.of_nat (length f) = c.

Definition at_flush (p : option pc) : bool :=
  match p with Some PFlush => true | _ => false end.

(** No state of the schedule has the playback thread at the idle flush:
    the wait on the queue never timed out on a non-empty buffer. *)
Definition idle_flush_free (sched : list label) (w : Sys) : bool :=
  forallb (fun w' => negb (at_flush (player w'))) (visited sched w).

(** The lifecycle calls made on the stream, writes left out. *)
Fixpoint lifecycle (log : list sink_event) : list sink_event :=
  match log with
  | [] => []
  | SinkWrite _ :: log' | SinkRefuse _ :: log' => lifecycle log'
  | e :: log' => e :: lifecycle log'
  end.

(** What [stop] has done to the references and to the stream when it is at
    a given program point, in an engine that was started: the values of
    [_stream], [_thread], and the running and closed flags of the stream. *)
Definition stop_effects (p : stop_pc)
  : option unit * option unit * bool * bool :=
  match p with
  | SEntry | STestStream | SStopStream => (Some tt, Some tt, true, false)
  | SClose => (Some tt, Some tt, false, false)
  | SClearStream => (Some tt, Some tt, false, true)
  | STestThread | SJoin | SClearThread => (None, Some tt, false, true)
  | SResetQueue | SReturned => (None, None, false, true)
  end.

(** The calls [stop] has made on the stream so far. *)
Definition stop_calls (p : stop_pc) : list sink_event :=
  match p with
  | SEntry | STestStream | SStopStream => []
  | SClose => [SinkStop]
  | _ => [SinkStop; SinkClose]
  end.

(** [stop] is past its [join]. *)
Definition joined (p : stop_pc) : bool :=
  match p with
  | SClearThread | SResetQueue | SReturned => true
  | _ => false
  end.

(** The invariant of a started engine, whatever the schedule. *)
Record stop_inv (w : Sys) : Prop := {
  si_thread : player w <> None;
  si_exit : stopper w <> SEntry -> _exit (spk w) = true;
  si_effects :
    (_stream (spk w), _thread (spk w), s_active (dev w), s_closed (dev w))
    = stop_effects (stopper w);
  si_calls :
    lifecycle (s_log (dev w))
    = SinkOpen (_rate (spk w)) (_channels (spk w)) (_chunk (spk w))
        :: SinkStart :: stop_calls (stopper w);
  si_joined : joined (stopper w) = true -> finished (player w) = true
}.

(** How many statements the playback thread has left at most once the exit
    flag is set and the stream reference is cleared. *)
Definition player_rank (p : option pc) : nat :=
  match p with
  | Some PGet => 4
  | Some PInner => 3
  | Some (PWrite _) | Some PClear => 2
  | Some PWhile | Some PFlush => 1
  | _ => 0
  end.

(** How many statements [stop] has left at most. *)
Definition stop_rank (p : stop_pc) : nat :=
  match p with
  | SEntry => 9
  | STestStream => 8
  | SStopStream => 7
  | SClose => 6
  | SClearStream => 5
  | STestThread => 4
  | SJoin => 3
  | SClearThread => 2
  | SResetQueue => 1
  | SReturned => 0
  end.

(** The schedule that lets [stop] finish: its statements up to the [join],
    the playback thread until it ends, the rest of [stop]. *)
Definition stop_to_end : list label :=
  repeat Stop 6 ++ repeat (Player true) 4 ++ repeat Stop 3.

End Speaker.

(** ** audio_utils.py *)

Module AudioUtils.

(** What [save_to_wav] hands to the [wave] module: the header fields and
    the frames. *)
Record Wav := mkWav {
  wav_name : String.string;
  nchannels : Z;
  sampwidth : Z;
  framerate : Z;
  frames : bytes
}.

(** [pyaudio.get_sample_size(pyaudio.paInt16)] *)
Definition sample_size_int16 : Z := 2.

(** [save_to_wav(audio_data)], with the default file name. *)
Definition save_to_wav (audio_data : list bytes) : Wav :=
  mkWav "output.wav"%string Config.CHANNELS sample_size_int16 Config.RATE
        (concat audio_data).

End AudioUtils.

(** ** json.dumps on the values the client serializes

    A control message is a dict from string keys to atoms.  Strings are
    written as [json.dumps] writes them with its defaults ([ensure_ascii],
    separators [", "] and [": "]), for code points below 256; [bytes] is
    not JSON serializable and raises [TypeError]. *)

Module Json.
Import String Ascii.
Local Open Scope string_scope.

Inductive pyval :=
| PyNone
| PyBool (b : bool)
| PyStr (s : string)
| PyBytes (b : bytes).

Definition dict := list (string * pyval).

Definition quote : ascii := "034"%char.
Definition backslash : ascii := "092"%char.

Definition hex_digit (n : N) : ascii :=
  match n with
  | 0 => "0" | 1 => "1" | 2 => "2" | 3 => "3" | 4 => "4" | 5 => "5"
  | 6 => "6" | 7 => "7" | 8 => "8" | 9 => "9" | 10 => "a" | 11 => "b"
  | 12 => "c" | 13 => "d" | 14 => "e" | _ => "f"
  end%N%char.

(** One character of [py_encode_basestring_ascii]. *)
Definition escape_char (c : ascii) : string :=
  let n := N_of_ascii c in
  if (n =? 34)%N then String backslash (String quote EmptyString)
  else if (n =? 92)%N then String backslash (String backslash EmptyString)
  else if (n =? 8)%N then String backslash "b"
  else if (n =? 12)%N then String backslash "f"
  else if (n =? 10)%N then String backslash "n"
  else if (n =? 13)%N then String backslash "r"
  else if (n =? 9)%N then String backslash "t"
  else if ((n <? 32) || (126 <? n))%N
       then String backslash
              (String "u" (String "0" (String "0"
                 (String (hex_digit (n / 16)) (String (hex_digit (n mod 16))
                    EmptyString)))))
  else String c EmptyString.

Fixpoint escape (s : string) : string :=
  match s with
  | EmptyString => EmptyString
  | String c s' => escape_char c ++ escape s'
  end.

Definition quoted (s : string) : string :=
  String quote (escape s ++ String quote EmptyString).

Definition dumps_atom (v : pyval) : option string :=
  match v with
  | PyNone => Some "null"
  | PyBool true => Some "true"
  | PyBool false => Some "false"
  | PyStr s => Some (quoted s)
  | PyBytes _ => None
  end.

Fixpoint dumps_items (d : dict) : option string :=
  match d with
  | [] => Some EmptyString
  | (k, v) :: rest =>
      match dumps_atom v, dumps_items rest with
      | Some sv, Some sr =>
          Some (quoted k ++ ": " ++ sv
                ++ match rest with [] => EmptyString | _ => ", " end ++ sr)
      | _, _ => None
      end
  end.

(** [json.dumps(d)]: the text, or [None] when it raises [TypeError]. *)
Definition dumps (d : dict) : option string :=
  match dumps_items d with
  | Some s => Some ("{" ++ s ++ "}")
  | None => None
  end.

End Json.

(** ** tts_client.py *)

Module TTSClient.
Import AudioUtils.

(** What [recv] can hand back: the connection delivers text or binary
    frames; the loop also tests for [None], and [MOther] stands for a value
    that is neither. *)
Inductive message :=
| MNone
| MText (s : String.string)
| MBinary (b : bytes)
| MOther.

(** What the environment answers to one [recv]: a message, or the
    connection has failed and the call raises. *)
Inductive recv_result :=
| Recv (m : message)
| RecvRaise.

(** The connection, as the client sees it: whether it is still open, and
    the chronological log of the calls made on it. *)
Inductive sock_event :=
| SockSend (text : String.string)
| SockClose
| SockRecv (m : message)     (* a [recv] that returned *)
| SockRecvRaise.             (* a [recv] that raised *)

Record Socket := mkSocket {
  connected : bool;
  sock_log : list sock_event
}.

Definition log_event (e : sock_event) (k : Socket) : Socket :=
  mkSocket (connected k) (sock_log k ++ [e]).

Definition disconnect (k : Socket) : Socket :=
  mkSocket false (sock_log k).

(** The text frames sent, in order. *)
Fixpoint sent (log : list sock_event) : list String.string :=
  match log with
  | [] => []
  | SockSend s :: log' => s :: sent log'
  | _ :: log' => sent log'
  end.

(** Some [recv] call comes after the [close] call in the log. *)
Fixpoint recv_after_close (log : list sock_event) : bool :=
  match log with
  | [] => false
  | SockClose :: log' =>
      existsb (fun e => match e with
                        | SockRecv _ | SockRecvRaise => true
                        | _ => false
                        end) log'
  | _ :: log' => recv_after_close log'
  end.

Inductive error :=
| TypeError            (* raised by [json.dumps] *)
| ConnectionClosed.    (* raised by [send] on a connection that is gone *)

Inductive outcome :=
| Returned
| Raised (e : error).

Inductive line :=
| Printed (s : String.string)        (* 27: [print(message)] *)
| ReceiverError                      (* 32: the error message *)
| AudioSaved (name : String.string). (* audio_utils.py 23 *)

(** Program points of [TTSClient._receiver]. *)
Inductive rpc :=
| RWhile     (* 22: test of the exit flag *)
| RRecv      (* 23-30: [recv], then the dispatch on the message *)
| RFinally   (* 34: inside [self._speaker.stop()] *)
| RExport    (* 35: [save_to_wav(audio_data)] *)
| RDone.     (* the coroutine has returned: the thread has ended *)

(** Program points of [TTSClient.close]. *)
Inductive close_pc :=
| CEntry     (* 44: not yet called, or about to set the exit flag *)
| CSend      (* 45 *)
| CClose     (* 46 *)
| CJoin      (* 47 *)
| CReturned
| CRaised (e : error).   (* an exception left [close] *)

Record State := mkState {
  engine : Speaker.Sys;          (* [self._speaker], its device and thread *)
  socket : Socket;               (* [self._socket] *)
  t_exit : bool;                 (* [self._exit] *)
  receiver : rpc;                (* the receiver thread *)
  audio_data : list bytes;       (* the local of [_receiver] *)
  console : list line;
  files : list Wav;              (* one entry per call of [save_to_wav] *)
  closer : close_pc              (* the thread that called [close] *)
}.

Definition with_engine (e : Speaker.Sys) (t : State) : State :=
  mkState e (socket t) (t_exit t) (receiver t) (audio_data t) (console t)
          (files t) (closer t).
Definition with_socket (k : Socket) (t : State) : State :=
  mkState (engine t) k (t_exit t) (receiver t) (audio_data t) (console t)
          (files t) (closer t).
Definition with_exit (v : bool) (t : State) : State :=
  mkState (engine t) (socket t) v (receiver t) (audio_data t) (console t)
          (files t) (closer t).
Definition at_rpc (p : rpc) (t : State) : State :=
  mkState (engine t) (socket t) (t_exit t) p (audio_data t) (console t)
          (files t) (closer t).
Definition with_audio (a : list bytes) (t : State) : State :=
  mkState (engine t) (socket t) (t_exit t) (receiver t) a (console t)
          (files t) (closer t).
Definition print (l : line) (t : State) : State :=
  mkState (engine t) (socket t) (t_exit t) (receiver t) (audio_data t)
          (console t ++ [l]) (files t) (closer t).
Definition with_file (f : Wav) (t : State) : State :=
  mkState (engine t) (socket t) (t_exit t) (receiver t) (audio_data t)
          (console t) (files t ++ [f]) (closer t).
Definition at_close (p : close_pc) (t : State) : State :=
  mkState (engine t) (socket t) (t_exit t) (receiver t) (audio_data t)
          (console t) (files t) p.

(** [TTSClient.__init__]: the connection is open and the receiver thread is
    at the head of its loop. *)
Definition init (speaker : Speaker.Sys) : State :=
  mkState speaker (mkSocket true []) false RWhile [] [] [] CEntry.

(** [self._socket.send(json.dumps(d))]: [json.dumps] runs first and its
    [TypeError] leaves before anything is sent; [send] raises on a
    connection that is gone. *)
Definition send_json (d : Json.dict) (t : State) : outcome * State :=
  match Json.dumps d with
  | None => (Raised TypeError, t)
  | Some text =>
      if connected (socket t)
      then (Returned, with_socket (log_event (SockSend text) (socket t)) t)
      else (Raised ConnectionClosed, t)
  end.

Definition speak_message (text : Json.pyval) : Json.dict :=
  [("type", Json.PyStr "Speak"); ("text", text)]%string.
Definition flush_message : Json.dict := [("type", Json.PyStr "Flush")]%string.
Definition close_message : Json.dict := [("type", Json.PyStr "Close")]%string.

(** [TTSClient.speak] *)
Definition speak (text : Json.pyval) (t : State) : outcome * State :=
  send_json (speak_message text) t.

(** [TTSClient.flush] *)
Definition flush (t : State) : outcome * State :=
  send_json flush_message t.

(** One statement of [TTSClient._receiver].  [r] is what the environment
    answers if the statement is the [recv]; a connection that has been
    closed raises whatever the environment would have delivered. *)
Definition receiver_step (r : recv_result) (t : State) : State :=
  match receiver t with
  | RWhile => if t_exit t then at_rpc RFinally t else at_rpc RRecv t
  | RRecv =>
      match (if connected (socket t) then r else RecvRaise) with
      | Recv m =>
          let t := with_socket (log_event (SockRecv m) (socket t)) t in
          match m with
          | MNone => at_rpc RWhile t
          | MText s => at_rpc RWhile (print (Printed s) t)
          | MBinary b =>
              at_rpc RWhile
                (with_audio (audio_data t ++ [b])
                   (with_engine (Speaker.play b (engine t)) t))
          | MOther => at_rpc RWhile t
          end
      | RecvRaise =>
          at_rpc RFinally
            (print ReceiverError
               (with_socket (disconnect (log_event SockRecvRaise (socket t))) t))
      end
  | RFinally =>
      match Speaker.stopper (engine t) with
      | Speaker.SReturned => at_rpc RExport t
      | _ => with_engine (Speaker.stop_step (engine t)) t
      end
  | RExport =>
      at_rpc RDone
        (print (AudioSaved "output.wav"%string)
           (with_file (save_to_wav (audio_data t)) t))
  | RDone => t
  end.

(** One statement of [TTSClient.close], run by the calling thread. *)
Definition close_step (t : State) : State :=
  match closer t with
  | CEntry => at_close CSend (with_exit true t)
  | CSend =>
      match send_json close_message t with
      | (Returned, t') => at_close CClose t'
      | (Raised e, t') => at_close (CRaised e) t'
      end
  | CClose =>
      at_close CJoin
        (with_socket (disconnect (log_event SockClose (socket t))) t)
  | CJoin =>
      match receiver t with
      | RDone => at_close CReturned t
      | _ => t
      end
  | CReturned | CRaised _ => t
  end.

(** What a schedule is made of: the receiver thread runs one statement, the
    thread in [close] runs one statement, the playback thread of the engine
    runs one statement. *)
Inductive label :=
| Rx (r : recv_result)
| Closer
| Playback (ok : bool).

Definition step (l : label) (t : State) : State :=
  match l with
  | Rx r => receiver_step r t
  | Closer => close_step t
  | Playback ok => with_engine (Speaker.player_step ok (engine t)) t
  end.

Definition run (sched : list label) (t : State) : State :=
  fold_left (fun t l => step l t) sched t.

(** The binary fragments [recv] has returned, in order. *)
Fixpoint received (log : list sock_event) : list bytes :=
  match log with
  | [] => []
  | SockRecv (MBinary b) :: log' => b :: received log'
  | _ :: log' => received log'
  end.

(** What holds of the receiver at each of its program points: the local
    [audio_data] mirrors the binary fragments received; [stop] has not been
    entered while the loop runs and has returned when the export starts; no
    file is written before the coroutine has returned, and exactly one
    after. *)
Definition final_inv (t : State) : Prop :=
  audio_data t = received (sock_log (socket t))
  /\ match receiver t with
     | RWhile | RRecv =>
         files t = [] /\ Speaker.stopper (engine t) = Speaker.SEntry
     | RFinally => files t = []
     | RExport =>
         files t = [] /\ Speaker.stopper (engine t) = Speaker.SReturned
     | RDone =>
         files t = [save_to_wav (audio_data t)]
         /\ Speaker.stopper (engine t) = Speaker.SReturned
     end.

(** What [close] has done when it is at a given program point. *)
Definition close_inv (t : State) : Prop :=
  match closer t with
  | CEntry => True
  | CSend | CClose => t_exit t = true
  | CJoin | CRaised _ => t_exit t = true /\ connected (socket t) = false
  | CReturned =>
      t_exit t = true /\ connected (socket t) = false /\ receiver t = RDone
  end.

(** How many statements the receiver has left at most once its [recv]
    raises. *)
Definition receiver_rank (t : State) : nat :=
  match receiver t with
  | RWhile => 13
  | RRecv => 12
  | RFinally => 2 + Speaker.stop_rank (Speaker.stopper (engine t))
  | RExport => 1
  | RDone => 0
  end.

(** The schedule that ends a session whose connection fails, or has been
    closed: the receiver up to the [join] inside [stop], the playback
    thread until it ends, the rest of the receiver. *)
Definition drain (r : recv_result) : list label :=
  repeat (Rx r) 8 ++ repeat (Playback true) 4 ++ repeat (Rx r) 5.

Definition error_exit : list label := drain RecvRaise.

(** The schedule of a session ended by [close]: its statements up to the
    [join], the receiver to its end whatever the connection would have
    delivered, then the [join]. *)
Definition close_exit (r : recv_result) : list label :=
  repeat Closer 3 ++ drain r ++ [Closer].

End TTSClient.

(** * More of the code: definitions *)

From Stdlib Require Sorting.Sorted.

Module SpeakerMore.
Import Speaker.

(** A schedule in which the device itself never refuses a write; [stop]
    may be called. *)
Definition faultless_label (l : label) : bool :=
  match l with
  | Player ok => ok
  | _ => true
  end.

Definition faultless (sched : list label) : bool :=
  forallb faultless_label sched.

(** The thread is inside the slicing loop of lines 55-58. *)
Definition slicing (p : option pc) : bool :=
  match p with
  | Some PInner | Some (PWrite _) => true
  | _ => false
  end.

(** A further call of [stop] on an engine whose earlier call has
    returned: the caller is at line 37 again. *)
Definition call_stop (w : Sys) : Sys := at_stop SEntry w.

(** What holds of the device's write stream whether or not [stop] has been
    called, when the device never refuses a write: while the stream runs
    nothing is lost, and from the moment it is stopped the stream is a
    prefix of what was enqueued. *)
Definition prefix_inv (w : Sys) (total : bytes) : Prop :=
  if s_active (dev w)
  then sink_stream w ++ held w = total
  else exists rest, sink_stream w ++ rest = total.

End SpeakerMore.

Module ClientMore.
Import TTSClient.

(** The receiver is still in its loop (lines 22-30). *)
Definition in_loop (p : rpc) : bool :=
  match p with
  | RWhile | RRecv => true
  | _ => false
  end.

(** A schedule in which the audio device refuses no write. *)
Definition faultless_label (l : label) : bool :=
  match l with
  | Playback ok => ok
  | _ => true
  end.

Definition faultless (sched : list label) : bool :=
  forallb faultless_label sched.

(** What the client itself did to the connection: the frames it sent and
    its [close], in call order. *)
Fixpoint wire (log : list sock_event) : list sock_event :=
  match log with
  | [] => []
  | SockSend s :: log' => SockSend s :: wire log'
  | SockClose :: log' => SockClose :: wire log'
  | _ :: log' => wire log'
  end.

(** [json.dumps({"type": "Close"})] *)
Definition close_text : String.string :=
  ("{" ++ Json.quoted "type" ++ ": " ++ Json.quoted "Close" ++ "}")%string.

(** What [close] has put on the wire when it is at a given program
    point. *)
Definition wire_of (p : close_pc) : list sock_event :=
  match p with
  | CEntry | CSend | CRaised _ => []
  | CClose => [SockSend close_text]
  | CJoin | CReturned => [SockSend close_text; SockClose]
  end.

(** The text messages [recv] has returned, in order. *)
Fixpoint texts (log : list sock_event) : list String.string :=
  match log with
  | [] => []
  | SockRecv (MText s) :: log' => s :: texts log'
  | _ :: log' => texts log'
  end.

(** Some [recv] has raised. *)
Fixpoint recv_raised (log : list sock_event) : bool :=
  match log with
  | [] => false
  | SockRecvRaise :: _ => true
  | _ :: log' => recv_raised log'
  end.

(** How many times [recv] has raised. *)
Fixpoint raised_count (log : list sock_event) : nat :=
  match log with
  | [] => 0
  | SockRecvRaise :: log' => S (raised_count log')
  | _ :: log' => raised_count log'
  end.

(** What the receiver has printed, read off the log of the connection and
    the program point of the receiver: the text messages (line 27), the
    error line (line 32) if a [recv] has raised, the line of [save_to_wav]
    (audio_utils.py, line 23) once the thread has ended. *)
Definition console_of (t : State) : list line :=
  map Printed (texts (sock_log (socket t)))
  ++ (if recv_raised (sock_log (socket t)) then [ReceiverError] else [])
  ++ (match receiver t with
      | RDone => [AudioSaved "output.wav"%string]
      | _ => []
      end).

(** The console follows the log; no [recv] has raised while the receiver
    is in its loop, and none raises twice. *)
Definition console_inv (t : State) : Prop :=
  console t = console_of t
  /\ (in_loop (receiver t) = true
      -> recv_raised (sock_log (socket t)) = false
         /\ raised_count (sock_log (socket t)) = 0)
  /\ raised_count (sock_log (socket t)) <= 1.

End ClientMore.

(** ** audio_utils.py, [list_audio_devices] *)

Module Devices.

(** What pyaudio reports of one device. *)
Record DeviceInfo := mkDevice {
  maxOutputChannels : Z;
  name : String.string
}.

(** The host API 0 as pyaudio shows it: the device count of its info
    record, and the devices it can describe;
    [get_device_info_by_host_api_device_index] raises on an index it has no
    device for. *)
Record HostApi := mkHost {
  deviceCount : Z;
  infos : list DeviceInfo
}.

(** The loop of lines 9-11 from index [i], [n] rounds to go: [None] when a
    lookup raises. *)
Fixpoint scan (ds : list DeviceInfo) (i n : nat)
  : option (list (Z * String.string)) :=
  match n with
  | O => Some []
  | S n' =>
      match nth_error ds i with
      | None => None
      | Some d =>
          match scan ds (S i) n' with
          | None => None
          | Some rest =>
              Some (if (maxOutputChannels d >? 0)%Z
                    then (Z.of_nat i, name d) :: rest
                    else rest)
          end
      end
  end.

(** [list_audio_devices()]: the list returned, or [None] when a lookup
    raised; and whether [p.terminate()] on line 12 was reached. *)
Definition list_audio_devices (h : HostApi)
  : option (list (Z * String.string)) * bool :=
  match scan (infos h) 0 (Z.to_nat (deviceCount h)) with
  | Some l => (Some l, true)
  | None => (None, false)
  end.

End Devices.

(** ** chatbot.py *)

Module Chatbot.
Import String Ascii.
Import TTSClient.

(** Whitespace as Python sees it ([str.isspace], the class [\s] of [re] on
    [str]), for code points below 256. *)
Definition is_space (c : ascii) : bool :=
  let n := N_of_ascii c in
  ((9 <=? n) && (n <=? 13) || (28 <=? n) && (n <=? 32)
   || (n =? 133) || (n =? 160))%N.

(** The class [[.!?]]. *)
Definition is_end (c : ascii) : bool :=
  let n := N_of_ascii c in ((n =? 46) || (n =? 33) || (n =? 63))%N.

(** Where the scan of [re.split(r'(?<=[.!?])\s+', text)] stands: the
    character before the current one closes a sentence, or the scan is
    inside a separator, or neither. *)
Inductive mode := Plain | AfterEnd | InSep.

Definition after (c : ascii) : mode := if is_end c then AfterEnd else Plain.

(** Put a character in front of the first piece. *)
Definition push (c : ascii) (pieces : list string) : list string :=
  match pieces with
  | [] => [String c EmptyString]
  | p :: ps => String c p :: ps
  end.

(** The pieces of the split from a given position on.  A separator starts
    at whitespace that follows [.], [!] or [?] and takes all the whitespace
    that follows. *)
Fixpoint split (m : mode) (s : string) : list string :=
  match s with
  | EmptyString => [EmptyString]
  | String c s' =>
      match m with
      | Plain => push c (split (after c) s')
      | AfterEnd =>
          if is_space c then EmptyString :: split InSep s'
          else push c (split (after c) s')
      | InSep =>
          if is_space c then split InSep s'
          else push c (split (after c) s')
      end
  end.

(** [re.split(r'(?<=[.!?])\s+', text)] *)
Definition sentences (text : string) : list string := split Plain text.

(** The separators the split removes, in order. *)
Fixpoint seps (m : mode) (s : string) : list string :=
  match s with
  | EmptyString => match m with InSep => [EmptyString] | _ => [] end
  | String c s' =>
      match m with
      | Plain => seps (after c) s'
      | AfterEnd =>
          if is_space c then push c (seps InSep s') else seps (after c) s'
      | InSep =>
          if is_space c then push c (seps InSep s')
          else EmptyString :: seps (after c) s'
      end
  end.

(** Pieces and separators put back together, a separator after each
    piece but the last. *)
Fixpoint weave (pieces separators : list string) : string :=
  match pieces, separators with
  | [], _ => EmptyString
  | p :: ps, [] => p ++ weave ps []
  | p :: ps, x :: xs => p ++ x ++ weave ps xs
  end.

Fixpoint all_space (s : string) : bool :=
  match s with
  | EmptyString => true
  | String c s' => is_space c && all_space s'
  end.

Fixpoint last_char (s : string) : option ascii :=
  match s with
  | EmptyString => None
  | String c EmptyString => Some c
  | String _ s' => last_char s'
  end.

Definition first_char (s : string) : option ascii :=
  match s with
  | EmptyString => None
  | String c _ => Some c
  end.

Definition ends_sentence (s : string) : bool :=
  match last_char s with
  | Some c => is_end c
  | None => false
  end.

Definition starts_with_space (s : string) : bool :=
  match first_char s with
  | Some c => is_space c
  | None => false
  end.

Fixpoint has_end (s : string) : bool :=
  match s with
  | EmptyString => false
  | String c s' => is_end c || has_end s'
  end.

(** Every piece but the last closes a sentence. *)
Fixpoint but_last_end (pieces : list string) : bool :=
  match pieces with
  | [] => true
  | p :: rest =>
      match rest with
      | [] => true
      | _ :: _ => ends_sentence p && but_last_end rest
      end
  end.

(** A separator: whitespace, and not empty. *)
Definition is_separator (x : string) : bool :=
  all_space x && negb (String.eqb x EmptyString).

(** [str.lstrip()], [str.rstrip()], [str.strip()] *)
Fixpoint lstrip (s : string) : string :=
  match s with
  | EmptyString => EmptyString
  | String c s' => if is_space c then lstrip s' else s
  end.

Fixpoint rstrip (s : string) : string :=
  match s with
  | EmptyString => EmptyString
  | String c s' =>
      match rstrip s' with
      | EmptyString => if is_space c then EmptyString else String c EmptyString
      | r => String c r
      end
  end.

Definition strip (s : string) : string := rstrip (lstrip s).

(** [str.lower()], for code points below 256: the capital letters of ASCII
    and of Latin-1 (the multiplication sign is not one). *)
Definition lower_char (c : ascii) : ascii :=
  let n := N_of_ascii c in
  if ((65 <=? n) && (n <=? 90)
      || (192 <=? n) && (n <=? 222) && negb (n =? 215))%N
  then ascii_of_N (n + 32)
  else c.

Fixpoint lower (s : string) : string :=
  match s with
  | EmptyString => EmptyString
  | String c s' => String (lower_char c) (lower s')
  end.

(** [user_input.lower() in ['exit', 'quit', 'bye']] *)
Definition is_exit (user_input : string) : bool :=
  let l := lower user_input in
  String.eqb l "exit" || String.eqb l "quit" || String.eqb l "bye".

(** What [self.model.generate_content] gives back: it raises, or it
    returns candidates, each with the texts of its parts. *)
Inductive reply :=
| ModelRaises
| Response (candidates : list (list string)).

(** Why [generate] has nothing to say. *)
Inductive failure :=
| ModelFailed                 (* [generate_content] raised *)
| NoCandidates                (* line 45 *)
| NoParts                     (* line 43 *)
| SendFailed (e : error).     (* [speak] or [flush] raised *)

(** What [generate] returns: the text, stripped, or the apology of line
    58. *)
Inductive answer :=
| Answer (text : string)
| Apology (f : failure).

(** The chatbot at run time: the client it talks through, what it has
    printed, and what it has logged. *)
Record Chat := mkChat {
  session : State;
  out : list string;
  logged : list failure
}.

Definition with_session (t : State) (c : Chat) : Chat :=
  mkChat t (out c) (logged c).
Definition echo (s : string) (c : Chat) : Chat :=
  mkChat (session c) (out c ++ [s]) (logged c).
Definition log_error (f : failure) (c : Chat) : Chat :=
  mkChat (session c) (out c) (logged c ++ [f]).

(** Lines 49-51: each sentence is printed and spoken; the first [speak]
    that raises ends the loop. *)
Fixpoint speak_each (ss : list string) (c : Chat) : option error * Chat :=
  match ss with
  | [] => (None, c)
  | s :: rest =>
      let c1 := echo (s ++ " ") c in
      match speak (Json.PyStr s) (session c1) with
      | (Returned, t) => speak_each rest (with_session t c1)
      | (Raised e, t) => (Some e, with_session t c1)
      end
  end.

(** The text of a reply (lines 38-45), or why there is none. *)
Definition reply_text (r : reply) : string + failure :=
  match r with
  | ModelRaises => inr ModelFailed
  | Response [] => inr NoCandidates
  | Response ([] :: _) => inr NoParts
  | Response ((p :: ps) :: _) => inl (String.concat EmptyString (p :: ps))
  end.

(** [Chatbot.generate]: every exception raised inside the [try] is
    caught on line 56, logged, and turned into the apology. *)
Definition generate (r : reply) (c : Chat) : answer * Chat :=
  match reply_text r with
  | inr f => (Apology f, log_error f c)
  | inl text =>
      match speak_each (sentences text) c with
      | (Some e, c1) => (Apology (SendFailed e), log_error (SendFailed e) c1)
      | (None, c1) =>
          match flush (session c1) with
          | (Raised e, t) =>
              (Apology (SendFailed e),
               log_error (SendFailed e) (with_session t c1))
          | (Returned, t) =>
              (Answer (strip text), echo EmptyString (with_session t c1))
          end
      end
  end.

Definition greeting (name : string) : string :=
  "Hello! ... I'm " ++ name
  ++ ", your personal AI assistant. ... How can I help you today?".

Definition farewell : string := "Goodbye! ... Have a nice day.".

(** How [start_conversation] ends: it returns after the farewell, an
    exception of [speak] or [flush] leaves it, or [input] finds the input
    closed and raises. *)
Inductive ending :=
| SaidGoodbye
| Failed (e : error)
| InputClosed.

(** [speak(text)] then [flush()], outside any [try]. *)
Definition say (text : string) (c : Chat) : outcome * Chat :=
  match speak (Json.PyStr text) (session c) with
  | (Raised e, t) => (Raised e, with_session t c)
  | (Returned, t) =>
      match flush t with
      | (Raised e, t') => (Raised e, with_session t' c)
      | (Returned, t') => (Returned, with_session t' c)
      end
  end.

(** The loop of lines 66-75: one turn per line of input, each with the
    reply the model gives to it. *)
Fixpoint converse (name : string) (turns : list (string * reply)) (c : Chat)
  : ending * Chat :=
  match turns with
  | [] => (InputClosed, echo "You: " c)
  | (user_input, r) :: rest =>
      let c := echo "You: " c in
      if is_exit user_input then
        match say farewell (echo (name ++ ": " ++ farewell) c) with
        | (Raised e, c') => (Failed e, c')
        | (Returned, c') => (SaidGoodbye, c')
        end
      else
        converse name rest (snd (generate r (echo (name ++ ": ") c)))
  end.

(** [Chatbot.start_conversation] *)
Definition start_conversation (name : string) (turns : list (string * reply))
           (c : Chat) : ending * Chat :=
  match say (greeting name) (echo (name ++ ": " ++ greeting name) c) with
  | (Raised e, c') => (Failed e, c')
  | (Returned, c') => converse name turns c'
  end.

(** The text frame of [speak(text)] and of [flush()]. *)
Definition speak_frame (text : string) : string :=
  "{" ++ Json.quoted "type" ++ ": " ++ Json.quoted "Speak" ++ ", "
      ++ Json.quoted "text" ++ ": " ++ Json.quoted text ++ "}".

Definition flush_frame : string :=
  "{" ++ Json.quoted "type" ++ ": " ++ Json.quoted "Flush" ++ "}".

(** The frames one turn of the conversation sends on an open connection. *)
Definition turn_frames (r : reply) : list string :=
  match reply_text r with
  | inl text => map speak_frame (sentences text) ++ [flush_frame]
  | inr _ => []
  end.

(** The text frames a chatbot has sent so far. *)
Definition frames_sent (c : Chat) : list string :=
  sent (sock_log (socket (session c))).

(** What the scan has left to rebuild from a given position on: inside a
    separator the first separator listed is the rest of the current one. *)
Definition rebuild (m : mode) (s : string) : string :=
  match m with
  | InSep =>
      match seps InSep s with
      | x :: xs => x ++ weave (split InSep s) xs
      | [] => weave (split InSep s) []
      end
  | _ => weave (split m s) (seps m s)
  end.

(** The separators listed from a given position on are separators, but
    for the rest of the current one, which may be empty. *)
Definition sep_inv (m : mode) (l : list string) : Prop :=
  match m with
  | InSep =>
      match l with
      | x :: xs =>
          all_space x = true /\ Forall (fun y => is_separator y = true) xs
      | [] => False
      end
  | _ => Forall (fun y => is_separator y = true) l
  end.

(** A piece that is followed by another closes a sentence; the rest of the
    current piece may be empty when the character before closes it. *)
Definition end_inv (m : mode) (l : list string) : Prop :=
  match l with
  | p :: q :: r =>
      (ends_sentence p = true \/ (p = EmptyString /\ m = AfterEnd))
      /\ but_last_end (q :: r) = true
  | _ => True
  end.

End Chatbot.

(** ** Reading back what [json.dumps] wrote *)

Module JsonRead.
Import String Ascii.
Local Open Scope string_scope.

(** A character of printable ASCII, space to tilde. *)
Definition printable (c : ascii) : bool :=
  let n := N_of_ascii c in ((32 <=? n) && (n <=? 126))%N.

Fixpoint all_printable (s : string) : bool :=
  match s with
  | EmptyString => true
  | String c s' => printable c && all_printable s'
  end.

(** A character [json.dumps] writes as it is: printable ASCII other than
    the double quote and the backslash. *)
Definition plain_char (c : ascii) : bool :=
  let n := N_of_ascii c in
  ((32 <=? n) && (n <=? 126) && negb (n =? 34) && negb (n =? 92))%N.

Fixpoint plain (s : string) : bool :=
  match s with
  | EmptyString => true
  | String c s' => plain_char c && plain s'
  end.

Definition hex_value (c : ascii) : option N :=
  let n := N_of_ascii c in
  if ((48 <=? n) && (n <=? 57))%N then Some (n - 48)%N
  else if ((97 <=? n) && (n <=? 102))%N then Some (n - 87)%N
  else None.

(** The character a two-character escape stands for. *)
Definition short_escape (d : ascii) : option ascii :=
  let n := N_of_ascii d in
  if (n =? 34)%N then Some Json.quote
  else if (n =? 92)%N then Some Json.backslash
  else if (n =? 98)%N then Some (ascii_of_N 8)
  else if (n =? 102)%N then Some (ascii_of_N 12)
  else if (n =? 110)%N then Some (ascii_of_N 10)
  else if (n =? 114)%N then Some (ascii_of_N 13)
  else if (n =? 116)%N then Some (ascii_of_N 9)
  else None.

Definition cons_text (c : ascii) (r : option (string * string))
  : option (string * string) :=
  match r with
  | Some (text, rest) => Some (String c text, rest)
  | None => None
  end.

(** A reader of JSON strings, from after the opening quote: the text up to
    the closing quote, escapes undone, and what follows the closing quote.
    It reads the escapes [json.dumps] writes for code points below 256. *)
Fixpoint read_string (s : string) : option (string * string) :=
  match s with
  | EmptyString => None
  | String c s' =>
      if (N_of_ascii c =? 34)%N then Some (EmptyString, s')
      else if (N_of_ascii c =? 92)%N then
        match s' with
        | EmptyString => None
        | String d s'' =>
            match short_escape d with
            | Some x => cons_text x (read_string s'')
            | None =>
                match s'' with
                | String a (String b (String h (String l s3))) =>
                    match hex_value a, hex_value b,
                          hex_value h, hex_value l with
                    | Some 0%N, Some 0%N, Some vh, Some vl =>
                        if (N_of_ascii d =? 117)%N
                        then cons_text (ascii_of_N (16 * vh + vl))
                                       (read_string s3)
                        else None
                    | _, _, _, _ => None
                    end
                | _ => None
                end
            end
        end
      else cons_text c (read_string s')
  end.

End JsonRead.

(** ** main.py, lines 17-22 *)

Module Main.
Import TTSClient.

(** What runs once [main] has built the client: the main thread calls
    [speak] and [flush] (inside [start_conversation], which does nothing
    else to the client), whatever their outcome, and then takes the
    statements of [close]; the receiver and the playback thread run in
    between. *)
Inductive label :=
| CallSpeak (text : String.string)
| CallFlush
| Thread (l : TTSClient.label).

Definition step (l : label) (t : State) : State :=
  match l with
  | CallSpeak text => snd (speak (Json.PyStr text) t)
  | CallFlush => snd (flush t)
  | Thread l => TTSClient.step l t
  end.

Definition run (sched : list label) (t : State) : State :=
  fold_left (fun t l => step l t) sched t.

Definition is_thread (l : label) : bool :=
  match l with
  | Thread _ => true
  | _ => false
  end.

Definition is_call (l : label) : bool := negb (is_thread l).

(** The main thread is sequential: once it is in [close] it makes no other
    call on the client. *)
Fixpoint sequential (sched : list label) : bool :=
  match sched with
  | [] => true
  | Thread Closer :: rest => forallb is_thread rest
  | _ :: rest => sequential rest
  end.

(** The frames of the calls of a schedule, in call order. *)
Fixpoint called (sched : list label) : list String.string :=
  match sched with
  | [] => []
  | CallSpeak text :: rest => Chatbot.speak_frame text :: called rest
  | CallFlush :: rest => Chatbot.flush_frame :: called rest
  | Thread _ :: rest => called rest
  end.

(** What the client has put on the wire, given the frames of the calls
    made so far: while [close] has not sent its message, and the connection
    is still open, the frames of the calls; then the message of [close];
    then the close of the connection. *)
Definition wire_inv (cmds : list String.string) (t : State) : Prop :=
  match closer t with
  | CEntry | CSend =>
      connected (socket t) = true ->
      ClientMore.wire (sock_log (socket t)) = map SockSend cmds
  | CClose =>
      ClientMore.wire (sock_log (socket t))
      = map SockSend cmds ++ [SockSend ClientMore.close_text]
  | CJoin | CReturned =>
      ClientMore.wire (sock_log (socket t))
      = map SockSend cmds ++ [SockSend ClientMore.close_text; SockClose]
  | CRaised _ => True
  end.

(** The calls a schedule may still hold: any while [close] has not been
    entered, none afterwards. *)
Definition allowed (sched : list label) (t : State) : Prop :=
  match closer t with
  | CEntry => sequential sched = true
  | _ => forallb is_thread sched = true
  end.

End Main.
(** * Facts about the playback engine *)

Section SpeakerFacts.
Import Speaker.

Lemma slice_split (b : bytes) (n : Z) : slice_to b n ++ slice_from b n = b.
Proof. apply firstn_skipn. Qed.

Lemma slice_bound_pos (n : Z) (len : nat) :
  (0 < n <= Z.of_nat len)%Z -> slice_bound n len = Z.to_nat n.
Proof.
  intros H. unfold slice_bound.
  destruct (Z.ltb_spec n 0); [lia|]. f_equal. lia.
Qed.

Lemma slice_to_length (b : bytes) (n : Z) :
  (0 < n <= Z.of_nat (length b))%Z -> Z.of_nat (length (slice_to b n)) = n.
Proof.
  intros H. unfold slice_to. rewrite slice_bound_pos by exact H.
  rewrite length_firstn. lia.
Qed.

Lemma slice_from_length (b : bytes) (n : Z) :
  (0 < n <= Z.of_nat (length b))%Z ->
  Z.of_nat (length (slice_from b n)) = (Z.of_nat (length b) - n)%Z.
Proof.
  intros H. unfold slice_from. rewrite slice_bound_pos by exact H.
  rewrite length_skipn. lia.
Qed.

Lemma written_app (l1 l2 : list sink_event) :
  written (l1 ++ l2) = written l1 ++ written l2.
Proof.
  induction l1 as [|e l1 IH]; simpl; [reflexivity|].
  destruct e; simpl; rewrite ?IH; reflexivity.
Qed.

Lemma truthy_length (b : bytes) : truthy b = true <-> 0 < length b.
Proof. destruct b; simpl; split; intros; try lia; congruence. Qed.

Lemma run_app (s1 s2 : list label) (w : Sys) :
  run (s1 ++ s2) w = run s2 (run s1 w).
Proof. apply fold_left_app. Qed.

Lemma enqueued_app (s1 s2 : list label) :
  enqueued (s1 ++ s2) = enqueued s1 ++ enqueued s2.
Proof.
  induction s1 as [|l s1 IH]; simpl; [reflexivity|].
  destruct l; simpl; rewrite ?IH; reflexivity.
Qed.


Ltac open_sys w :=
  let s := fresh "s" in let d := fresh "d" in let p := fresh "p" in
  destruct w as [s d p ? ?]; destruct s; destruct d; simpl in *.

Lemma started_normal (c : Z) : Normal c (started c).
Proof. split; simpl; try reflexivity. exists PWhile. split; reflexivity. Qed.

Lemma step_normal (c : Z) (l : label) (w : Sys) :
  Normal c w -> nominal_label l = true -> Normal c (step l w).
Proof.
  intros [Hs He Hc Hst Ha Hcl [p [Hp Hf]] Hpr] Hl.
  open_sys w. subst.
  destruct l as [data|ok|]; simpl in Hl; try discriminate; subst.
  - split; simpl; auto. eauto.
  - destruct p as [| | |f| | | |e]; try discriminate; unfold player_step; cbn.
    + split; simpl; eauto.
    + destruct _queue0; [destruct (truthy _buffer0)|]; split; simpl; eauto.
    + destruct (Z.geb_spec (Z.of_nat (length _buffer0)) c); split; simpl; eauto.
    + unfold stream_write, sink_write, sink_accepts; simpl. split; simpl; eauto.
    + unfold stream_write, sink_write, sink_accepts; simpl. split; simpl; eauto.
    + split; simpl; eauto.
Qed.

Lemma run_normal (c : Z) (sched : list label) (w : Sys) :
  Normal c w -> nominal sched = true -> Normal c (run sched w).
Proof.
  revert w. induction sched as [|l sched IH]; intros w Hn Hs; [exact Hn|].
  simpl in Hs. apply andb_true_iff in Hs. destruct Hs as [Hl Hs].
  simpl. apply IH; [apply step_normal; assumption | exact Hs].
Qed.

(** Conservation: a step of normal operation moves bytes from the engine to
    the device, or takes a new fragment in; it loses and invents none. *)
Lemma step_conserve (c : Z) (l : label) (w : Sys) :
  Normal c w -> nominal_label l = true ->
  sink_stream (step l w) ++ held (step l w)
  = sink_stream w ++ held w ++ concat (enqueued [l]).
Proof.
  intros [Hs He Hc Hst Ha Hcl [p [Hp Hf]] Hpr] Hl.
  open_sys w. subst.
  destruct l as [data|ok|]; simpl in Hl; try discriminate; subst.
  - unfold sink_stream, held; cbn. rewrite concat_app. cbn.
    rewrite !app_nil_r, !app_assoc. reflexivity.
  - destruct p as [| | |f| | | |e]; try discriminate;
      unfold player_step, sink_stream, held; cbn; rewrite ?app_nil_r.
    + reflexivity.
    + destruct _queue0 as [|data rest]; [destruct (truthy _buffer0)|]; cbn;
        rewrite ?app_nil_r, <- ?app_assoc; reflexivity.
    + destruct (Z.geb_spec (Z.of_nat (length _buffer0)) c); cbn.
      * rewrite slice_split. reflexivity.
      * reflexivity.
    + rewrite written_app, concat_app. cbn. rewrite app_nil_r, <- !app_assoc.
      reflexivity.
    + rewrite written_app, concat_app. cbn. rewrite app_nil_r, <- !app_assoc.
      reflexivity.
    + reflexivity.
Qed.

Lemma run_conserve (c : Z) (sched : list label) (w : Sys) :
  Normal c w -> nominal sched = true ->
  sink_stream (run sched w) ++ held (run sched w)
  = sink_stream w ++ held w ++ concat (enqueued sched).
Proof.
  revert w. induction sched as [|l sched IH]; intros w Hn Hs.
  - simpl. rewrite !app_nil_r. reflexivity.
  - simpl in Hs. apply andb_true_iff in Hs. destruct Hs as [Hl Hs].
    change (run (l :: sched) w) with (run sched (step l w)).
    rewrite IH by (try apply step_normal; assumption).
    rewrite app_assoc, (step_conserve l Hn Hl), <- !app_assoc.
    change (l :: sched) with ([l] ++ sched).
    rewrite enqueued_app, concat_app. reflexivity.
Qed.

Lemma started_empty (c : Z) : sink_stream (started c) = [] /\ held (started c) = [].
Proof. split; reflexivity. Qed.


Lemma step_sized (c : Z) (l : label) (w : Sys) :
  (0 < c)%Z -> Normal c w -> nominal_label l = true ->
  sized c w -> sized c (step l w).
Proof.
  intros Hc [Hs He Hch Hst Ha Hcl [p [Hp Hf]] Hpr] Hl Hz.
  open_sys w. subst. unfold sized in *; cbn in *.
  destruct l as [data|ok|]; simpl in Hl; try discriminate; subst.
  - exact Hz.
  - destruct p as [| | |f| | | |e]; try discriminate; unfold player_step; cbn.
    + exact Hz.
    + destruct _queue0 as [|data rest]; cbn; [|exact I].
      destruct (truthy _buffer0) eqn:E; cbn; [|exact Hz].
      apply truthy_length in E. lia.
    + destruct (Z.geb_spec (Z.of_nat (length _buffer0)) c); cbn.
      * apply slice_to_length. lia.
      * lia.
    + exact I.
    + lia.
    + simpl. lia.
Qed.

Lemma step_frames (c : Z) (l : label) (w : Sys) :
  (0 < c)%Z -> Normal c w -> nominal_label l = true -> sized c w ->
  Forall (frame_sized c) (written (s_log (dev w))) ->
  Forall (frame_sized c) (written (s_log (dev (step l w)))).
Proof.
  intros Hc [Hs He Hch Hst Ha Hcl [p [Hp Hf]] Hpr] Hl Hz Hw.
  open_sys w. subst. unfold sized in *; cbn in *.
  destruct l as [data|ok|]; simpl in Hl; try discriminate; subst.
  - exact Hw.
  - destruct p as [| | |f| | | |e]; try discriminate; unfold player_step; cbn;
      try exact Hw.
    + destruct _queue0 as [|data rest]; [destruct (truthy _buffer0)|]; exact Hw.
    + destruct (Z.geb_spec (Z.of_nat (length _buffer0)) c); exact Hw.
    + rewrite written_app. apply Forall_app. split; [exact Hw|].
      constructor; [|constructor]. unfold frame_sized. lia.
    + rewrite written_app. apply Forall_app. split; [exact Hw|].
      constructor; [|constructor]. unfold frame_sized. lia.
Qed.

Lemma run_sized (c : Z) (sched : list label) (w : Sys) :
  (0 < c)%Z -> Normal c w -> nominal sched = true ->
  sized c w -> Forall (frame_sized c) (written (s_log (dev w))) ->
  sized c (run sched w) /\
  Forall (frame_sized c) (written (s_log (dev (run sched w)))).
Proof.
  intros Hc. revert w.
  induction sched as [|l sched IH]; intros w Hn Hs Hz Hw; [split; assumption|].
  simpl in Hs. apply andb_true_iff in Hs. destruct Hs as [Hl Hs].
  change (run (l :: sched) w) with (run sched (step l w)).
  apply IH; auto using step_normal, step_sized, step_frames.
Qed.

Lemma started_sized (c : Z) :
  (0 < c)%Z -> sized c (started c) /\
  Forall (full_frame c) (written (s_log (dev (started c)))).
Proof. intros Hc. split; [exact Hc | constructor]. Qed.

Lemma full_is_frame_sized (c : Z) (fs : list bytes) :
  (0 < c)%Z -> Forall (full_frame c) fs -> Forall (frame_sized c) fs.
Proof.
  intros Hc H. eapply Forall_impl; [|exact H].
  unfold full_frame, frame_sized. intros f Hf. lia.
Qed.


(** Until the first idle flush every frame the device got is a full one. *)
Lemma step_full (c : Z) (l : label) (w : Sys) :
  Normal c w -> nominal_label l = true -> sized c w ->
  at_flush (player w) = false -> player w <> Some PClear ->
  Forall (full_frame c) (written (s_log (dev w))) ->
  at_flush (player (step l w)) = false ->
  player (step l w) <> Some PClear /\
  Forall (full_frame c) (written (s_log (dev (step l w)))).
Proof.
  intros [Hs He Hch Hst Ha Hcl [p [Hp Hf]] Hpr] Hl Hz Hnf Hnc Hw.
  open_sys w. subst. unfold sized in *; cbn in *.
  destruct l as [data|ok|]; simpl in Hl; try discriminate; subst.
  - intros _. split; assumption.
  - destruct p as [| | |f| | | |e]; try discriminate; try congruence;
      unfold player_step; cbn.
    + intros _. split; [discriminate | exact Hw].
    + destruct _queue0 as [|data rest]; [destruct (truthy _buffer0)|]; cbn;
        intros H; try discriminate; split; (discriminate || exact Hw).
    + destruct (Z.geb_spec (Z.of_nat (length _buffer0)) c); cbn;
        intros _; split; (discriminate || exact Hw).
    + intros _. split; [discriminate|].
      rewrite written_app. apply Forall_app. split; [exact Hw|].
      constructor; [exact Hz | constructor].
Qed.

Lemma run_full (c : Z) (sched : list label) (w : Sys) :
  (0 < c)%Z -> Normal c w -> nominal sched = true -> sized c w ->
  idle_flush_free sched w = true -> player w <> Some PClear ->
  Forall (full_frame c) (written (s_log (dev w))) ->
  Forall (full_frame c) (written (s_log (dev (run sched w)))).
Proof.
  intros Hc. revert w.
  induction sched as [|l sched IH]; intros w Hn Hs Hz Hi Hnc Hw; [exact Hw|].
  simpl in Hs. apply andb_true_iff in Hs. destruct Hs as [Hl Hs].
  unfold idle_flush_free in Hi. simpl in Hi.
  apply andb_true_iff in Hi. destruct Hi as [Hi0 Hi].
  apply negb_true_iff in Hi0.
  assert (Hi1 : at_flush (player (step l w)) = false).
  { destruct sched; simpl in Hi; apply andb_true_iff in Hi;
      destruct Hi as [Hi _]; apply negb_true_iff in Hi; exact Hi. }
  destruct (step_full l Hn Hl Hz Hi0 Hnc Hw Hi1) as [Hnc' Hw'].
  change (run (l :: sched) w) with (run sched (step l w)).
  apply IH; auto using step_normal, step_sized.
Qed.

(** The idle flush as a whole: from the wait on an empty queue the thread
    is back at the head of the loop three statements later (write, clear,
    and the statement that found the queue empty), the buffer is empty, and
    the device got the buffer as one write if it held anything. *)
Lemma idle_flush (c : Z) (w : Sys) :
  Normal c w -> player w = Some PGet -> _queue (spk w) = [] ->
  let w' := run (repeat (Player true) 3) w in
  written (s_log (dev w'))
  = written (s_log (dev w))
    ++ (if truthy (_buffer (spk w)) then [_buffer (spk w)] else [])
  /\ _buffer (spk w') = [] /\ _queue (spk w') = []
  /\ player w' = Some PWhile.
Proof.
  intros [Hs He Hch Hst Ha Hcl [p [Hp Hf]] Hpr] Hg Hq.
  open_sys w. subst. inversion Hg; subst.
  destruct _buffer0 as [|x b]; cbn.
  - rewrite app_nil_r. auto.
  - rewrite written_app. auto.
Qed.

Lemma frames_upto_full (n fuel : nat) (fs : list bytes) (b : bytes) :
  0 < n -> Forall (fun f => length f = n) fs -> length b < n ->
  length (concat fs ++ b) <= fuel ->
  frames_upto fuel n (concat fs ++ b)
  = fs ++ (if truthy b then [b] else []).
Proof.
  intros Hn Hfs Hb. revert fuel.
  induction Hfs as [|f fs Hf Hfs IH]; intros fuel Hfuel; cbn in *.
  - destruct b as [|x b]; [destruct fuel; reflexivity|].
    destruct fuel as [|fuel]; [cbn in Hfuel; lia|].
    cbn [frames_upto truthy].
    destruct (Nat.ltb_spec (length (x :: b)) n); [reflexivity|lia].
  - rewrite <- app_assoc in *. rewrite length_app in Hfuel.
    destruct fuel as [|fuel]; [lia|].
    destruct f as [|y f]; [cbn in Hf; lia|].
    cbn [frames_upto app].
    change (y :: f ++ concat fs ++ b) with ((y :: f) ++ concat fs ++ b).
    destruct (Nat.ltb_spec (length ((y :: f) ++ concat fs ++ b)) n) as [H|H].
    + rewrite length_app in H. lia.
    + rewrite firstn_app, skipn_app, Hf, Nat.sub_diag, firstn_O, skipn_O.
      rewrite firstn_all2, skipn_all2, app_nil_r by lia. cbn [app].
      f_equal. apply IH. lia.
Qed.

Lemma split_frames_full (n : nat) (fs : list bytes) (b : bytes) :
  0 < n -> Forall (fun f => length f = n) fs -> length b < n ->
  split_frames n (concat fs ++ b) = fs ++ (if truthy b then [b] else []).
Proof.
  intros. unfold split_frames. apply frames_upto_full; auto.
Qed.


Lemma full_frame_nat (c : Z) (fs : list bytes) :
  Forall (full_frame c) fs -> Forall (fun f => length f = Z.to_nat c) fs.
Proof.
  intros H. eapply Forall_impl; [|exact H].
  unfold full_frame. intros f Hf. lia.
Qed.

(** When the wait never timed out on a non-empty buffer while fragments were
    arriving, the idle period that follows leaves the device with the stream
    split at the frame-size boundaries. *)
Lemma quiet_run_frames (c : Z) (sched : list label) :
  (0 < c)%Z -> nominal sched = true ->
  idle_flush_free sched (started c) = true ->
  player (run sched (started c)) = Some PGet ->
  _queue (spk (run sched (started c))) = [] ->
  let w' := run (repeat (Player true) 3) (run sched (started c)) in
  written (s_log (dev w')) = split_frames (Z.to_nat c) (concat (enqueued sched))
  /\ held w' = [] /\ player w' = Some PWhile.
Proof.
  intros Hc Hs Hi Hp Hq.
  pose proof (started_normal c) as Hn0.
  destruct (started_sized Hc) as [Hz0 Hf0].
  pose proof (run_normal sched Hn0 Hs) as Hn.
  pose proof (run_conserve sched Hn0 Hs) as Hcons.
  destruct (run_sized sched Hc Hn0 Hs Hz0 (full_is_frame_sized Hc Hf0)) as [Hz _].
  assert (Hfull : Forall (full_frame c)
                    (written (s_log (dev (run sched (started c)))))).
  { apply run_full; auto. discriminate. }
  destruct (idle_flush Hn Hp Hq) as [Hw [Hb [Hq' Hp']]].
  cbv zeta. split; [|split].
  - rewrite Hw.
    change (sink_stream (started c)) with (@nil byte) in Hcons.
    change (held (started c)) with (@nil byte) in Hcons.
    cbn [app] in Hcons. rewrite <- Hcons.
    unfold sink_stream, held. rewrite Hp, Hq. cbn [concat]. rewrite app_nil_r.
    symmetry. apply split_frames_full.
    + lia.
    + apply full_frame_nat. exact Hfull.
    + unfold sized in Hz. rewrite Hp in Hz. lia.
  - unfold held. rewrite Hp', Hb, Hq'. reflexivity.
  - exact Hp'.
Qed.

Lemma lifecycle_app (l1 l2 : list sink_event) :
  lifecycle (l1 ++ l2) = lifecycle l1 ++ lifecycle l2.
Proof.
  induction l1 as [|e l1 IH]; simpl; [reflexivity|].
  destruct e; simpl; rewrite ?IH; reflexivity.
Qed.

(** The playback thread touches neither the flags nor the references nor
    the lifecycle of the stream, and a thread that has ended stays so. *)
Lemma player_step_frame (ok : bool) (w : Sys) :
  let w' := player_step ok w in
  _exit (spk w') = _exit (spk w) /\ _stream (spk w') = _stream (spk w)
  /\ _thread (spk w') = _thread (spk w) /\ _chunk (spk w') = _chunk (spk w)
  /\ _rate (spk w') = _rate (spk w) /\ _channels (spk w') = _channels (spk w)
  /\ s_active (dev w') = s_active (dev w)
  /\ s_closed (dev w') = s_closed (dev w)
  /\ stopper w' = stopper w
  /\ lifecycle (s_log (dev w')) = lifecycle (s_log (dev w))
  /\ (player w <> None -> player w' <> None)
  /\ (finished (player w) = true -> w' = w).
Proof.
  open_sys w. unfold player_step; cbn.
  destruct p as [[| | |f| | | |e]|]; cbn;
    repeat match goal with
      | |- context [if ?b then _ else _] => destruct b; cbn
      | |- context [match ?q with [] => _ | _ :: _ => _ end] => destruct q; cbn
      | |- context [stream_write ?ok ?f ?w] =>
          unfold stream_write, sink_write, sink_accepts; cbn
      | |- context [match ?o with Some _ => _ | None => _ end] =>
          destruct o; cbn
      end;
    rewrite ?lifecycle_app, ?app_nil_r;
    repeat split; try reflexivity; try discriminate; try congruence.
Qed.

Lemma attempted_app (l1 l2 : list sink_event) :
  attempted (l1 ++ l2) = attempted l1 ++ attempted l2.
Proof.
  induction l1 as [|e l1 IH]; simpl; [reflexivity|].
  destruct e; simpl; rewrite ?IH; reflexivity.
Qed.

Lemma started_unstopped (c : Z) : Unstopped (started c).
Proof. split; reflexivity. Qed.

Lemma step_unstopped (l : label) (w : Sys) :
  Unstopped w -> unstopped_label l = true -> Unstopped (step l w).
Proof.
  intros [Hs Hst Ha Hc] Hl.
  destruct l as [data|ok|]; try discriminate; cbn [step].
  - split; assumption.
  - destruct (player_step_frame ok w)
      as (_ & E2 & _ & _ & _ & _ & E7 & E8 & E9 & _).
    split; congruence.
Qed.

(** Whatever the device answers, a statement hands bytes to the device,
    takes a new fragment in, or leaves both alone. *)
Lemma step_offered (l : label) (w : Sys) :
  Unstopped w -> unstopped_label l = true ->
  offered_stream (step l w) ++ held (step l w)
  = offered_stream w ++ held w ++ concat (enqueued [l]).
Proof.
  intros [Hs Hst Ha Hc] Hl. open_sys w. subst.
  destruct l as [data|ok|]; try discriminate.
  - unfold offered_stream, held; cbn. rewrite concat_app. cbn.
    rewrite !app_nil_r, !app_assoc. reflexivity.
  - destruct p as [[| | |f| | | |e]|];
      unfold player_step, offered_stream, held; cbn; rewrite ?app_nil_r;
      try reflexivity.
    + destruct _exit0; reflexivity.
    + destruct _queue0 as [|data rest]; [destruct (truthy _buffer0)|]; cbn;
        rewrite ?app_nil_r, <- ?app_assoc; reflexivity.
    + destruct (Z.geb_spec (Z.of_nat (length _buffer0)) _chunk0); cbn.
      * rewrite slice_split. reflexivity.
      * reflexivity.
    + unfold stream_write, sink_write, sink_accepts; cbn.
      destruct ok; cbn; rewrite attempted_app, concat_app; cbn;
        rewrite app_nil_r, <- !app_assoc; reflexivity.
    + unfold stream_write, sink_write, sink_accepts; cbn.
      destruct ok; cbn; rewrite attempted_app, concat_app; cbn;
        rewrite app_nil_r, <- !app_assoc; reflexivity.
Qed.

Lemma run_offered (sched : list label) (w : Sys) :
  Unstopped w -> unstopped sched = true ->
  offered_stream (run sched w) ++ held (run sched w)
  = offered_stream w ++ held w ++ concat (enqueued sched).
Proof.
  revert w. induction sched as [|l sched IH]; intros w Hn Hs.
  - simpl. rewrite !app_nil_r. reflexivity.
  - simpl in Hs. apply andb_true_iff in Hs. destruct Hs as [Hl Hs].
    change (run (l :: sched) w) with (run sched (step l w)).
    rewrite IH by (try apply step_unstopped; assumption).
    rewrite app_assoc, (step_offered l Hn Hl), <- !app_assoc.
    change (l :: sched) with ([l] ++ sched).
    rewrite enqueued_app, concat_app. reflexivity.
Qed.


(** ** Counterexamples and theorems of the playback loop *)

(** C1, counterexample.  Frame size 4.  First run: a fragment of 2 bytes
    arrives, the loop goes idle and flushes it, then a fragment of 6 bytes
    arrives and is played.  Everything is processed and the device got the
    bytes in order, but as writes of 2, 4 and 2 bytes: the full frame starts
    at offset 2, not at a frame-size boundary, and there are two short
    frames.  The split at frame-size boundaries would be two writes of 4
    bytes.  Second run: one fragment of 4 bytes, and the device refuses the
    write of its frame; the handler on line 63 prints the error, the loop
    goes on, everything is processed and the device got nothing. *)
Lemma idle_gap_moves_frame_boundaries :
  (let a := [x01; x02] in
   let b := [x03; x04; x05; x06; x07; x08] in
   let sched := [Play a] ++ repeat (Player true) 7
                ++ [Play b] ++ repeat (Player true) 9 in
   let w := run sched (started 4) in
   nominal sched = true /\ enqueued sched = [a; b] /\ held w = []
   /\ written (s_log (dev w)) = [[x01; x02]; [x03; x04; x05; x06]; [x07; x08]]
   /\ split_frames 4 (concat (enqueued sched))
      = [[x01; x02; x03; x04]; [x05; x06; x07; x08]]
   /\ written (s_log (dev w)) <> split_frames 4 (concat (enqueued sched)))
  /\ (let sched := [Play [x01; x02; x03; x04]] ++ repeat (Player true) 3
                   ++ [Player false; Player true] in
      let w := run sched (started 4) in
      held w = [] /\ player w = Some PGet /\ printed w = [SinkError]
      /\ sink_stream w = []
      /\ sink_stream w <> concat (enqueued sched)).
Proof.
  cbv zeta. repeat split; try reflexivity; vm_compute; discriminate.
Qed.

(** C1, amended.  For a positive frame size and a device that accepts every
    write: once every enqueued fragment is fully processed the bytes written,
    concatenated in write order, are the bytes of the fragments concatenated
    in arrival order; every write is non-empty and at most one frame long;
    and when the wait on the queue never timed out on a non-empty buffer
    before the last fragment was taken, the idle period that follows leaves
    exactly the split at frame-size boundaries, with one final short frame
    when the total is not a multiple of the frame size. *)
Theorem playback_preserves_stream (c : Z) (sched : list label) :
  (0 < c)%Z -> nominal sched = true ->
  let w := run sched (started c) in
  (held w = [] -> sink_stream w = concat (enqueued sched))
  /\ Forall (frame_sized c) (written (s_log (dev w)))
  /\ (idle_flush_free sched (started c) = true ->
      player w = Some PGet -> _queue (spk w) = [] ->
      let w' := run (repeat (Player true) 3) w in
      written (s_log (dev w'))
      = split_frames (Z.to_nat c) (concat (enqueued sched))
      /\ held w' = []).
Proof.
  intros Hc Hs. cbv zeta. split; [|split].
  - intros Hh.
    pose proof (run_conserve sched (started_normal c) Hs) as H.
    rewrite Hh, app_nil_r in H. exact H.
  - destruct (started_sized Hc) as [Hz0 Hf0].
    apply (run_sized sched Hc (started_normal c) Hs Hz0
             (full_is_frame_sized Hc Hf0)).
  - intros Hi Hp Hq.
    destruct (quiet_run_frames sched Hc Hs Hi Hp Hq) as [H1 [H2 _]].
    split; assumption.
Qed.

Lemma playback_preserves_stream_witness :
  let a := [x01; x02] in
  let b := [x03; x04; x05; x06; x07; x08] in
  let sched := [Play a; Play b] ++ repeat (Player true) 11 in
  let w := run (repeat (Player true) 3) (run sched (started 4)) in
  written (s_log (dev w)) = [[x01; x02; x03; x04]; [x05; x06; x07; x08]]
  /\ held w = [].
Proof.
  cbv zeta.
  refine (proj2 (proj2 (@playback_preserves_stream 4
    ([Play [x01; x02]; Play [x03; x04; x05; x06; x07; x08]]
       ++ repeat (Player true) 11) _ _)) _ _ _);
    first [lia | reflexivity].
Defined.

(** C3, counterexample.  Frame size 4, fragments [A] then [B] of 4 bytes
    each, nobody calls [stop].  The device refuses the write of the frame
    that holds [A] (the handler on line 63 prints and the loop goes on) and
    accepts the one that holds [B].  Everything is processed: the write
    stream of the device is [B] alone, [A] was dropped. *)
Lemma refused_frame_is_dropped :
  let A := [x01; x02; x03; x04] in
  let B := [x05; x06; x07; x08] in
  let sched := [Play A; Play B] ++ repeat (Player true) 3 ++ [Player false]
               ++ repeat (Player true) 5 in
  let w := run sched (started 4) in
  unstopped sched = true /\ enqueued sched = [A; B]
  /\ stopper w = SEntry /\ held w = [] /\ printed w = [SinkError]
  /\ sink_stream w = B
  /\ s_log (dev w)
     = [SinkOpen Config.RATE Config.CHANNELS 4; SinkStart; SinkRefuse A;
        SinkWrite B].
Proof. cbv zeta. repeat split; reflexivity. Qed.

(** C3, amended.  As long as nobody has called [stop], every enqueued byte
    is handed to the device exactly once and in arrival order, or is still
    held by the engine (frame in flight, buffer, queue); a frame whose write
    the device refuses is discarded, not retried.  When the device accepts
    every write, its write stream followed by the bytes still held is the
    concatenation of the enqueued fragments in arrival order, so nothing is
    dropped; and for a fragment [A] enqueued before a fragment [B], as soon
    as one byte of [B] has been written all of [A] has been written before
    it. *)
Theorem fifo_write_stream (c : Z) (sched : list label)
        (pre : list bytes) (A : bytes) (mid : list bytes) (B : bytes)
        (post : list bytes) :
  unstopped sched = true ->
  enqueued sched = pre ++ A :: mid ++ B :: post ->
  let w := run sched (started c) in
  offered_stream w ++ held w = concat (enqueued sched)
  /\ (nominal sched = true ->
      sink_stream w ++ held w = concat (enqueued sched)
      /\ (length (concat pre ++ A ++ concat mid) < length (sink_stream w) ->
          exists rest,
            sink_stream w = (concat pre ++ A ++ concat mid) ++ rest
            /\ rest ++ held w = B ++ concat post)).
Proof.
  intros Hu He. cbv zeta. split.
  - pose proof (run_offered sched (started_unstopped c) Hu) as H.
    change (offered_stream (started c)) with (@nil byte) in H.
    change (held (started c)) with (@nil byte) in H. exact H.
  - intros Hs.
    pose proof (run_conserve sched (started_normal c) Hs) as H.
    change (sink_stream (started c)) with (@nil byte) in H.
    change (held (started c)) with (@nil byte) in H. cbn [app] in H.
    split; [exact H|].
    intros Hlen. rewrite He in H.
    rewrite concat_app in H. cbn [concat] in H.
    rewrite concat_app in H. cbn [concat] in H.
    set (out := sink_stream (run sched (started c))) in *.
    set (h := held (run sched (started c))) in *.
    set (front := concat pre ++ A ++ concat mid) in *.
    assert (Ht : out ++ h = front ++ B ++ concat post).
    { rewrite H. unfold front. rewrite <- !app_assoc. reflexivity. }
    exists (skipn (length front) out).
    assert (Hf : firstn (length front) out = front).
    { assert (E : firstn (length front) (out ++ h)
                  = firstn (length front) (front ++ B ++ concat post))
        by (rewrite Ht; reflexivity).
      rewrite firstn_app in E.
      replace (length front - length out) with 0 in E by lia.
      rewrite firstn_O, app_nil_r in E.
      rewrite firstn_app, Nat.sub_diag, firstn_O, app_nil_r in E.
      rewrite firstn_all in E. exact E. }
    split.
    + rewrite <- Hf at 1. symmetry. apply firstn_skipn.
    + apply (app_inv_head front). rewrite app_assoc.
      rewrite <- Hf at 1. rewrite firstn_skipn. exact Ht.
Qed.

Lemma fifo_write_stream_witness :
  let a := [x01; x02] in
  let b := [x03; x04; x05; x06; x07; x08] in
  let w := run ([Play a; Play b] ++ repeat (Player true) 9) (started 4) in
  exists rest, sink_stream w = a ++ rest /\ rest ++ held w = b.
Proof.
  cbv zeta.
  refine (proj2 (proj2 (@fifo_write_stream 4
           ([Play [x01; x02]; Play [x03; x04; x05; x06; x07; x08]]
              ++ repeat (Player true) 9)
           [] [x01; x02] [] [x03; x04; x05; x06; x07; x08] []
           eq_refl eq_refl) eq_refl) _).
  vm_compute. lia.
Defined.

(** C5, counterexample.  Fragments of 10, 5000 and 3 bytes, frame size
    4096, all enqueued, then the loop runs until it has been idle: the
    device gets one full write of 4096 bytes and one short write of 917
    bytes.  Two full writes would take 8192 bytes, more than the 5013 there
    are: the length the claim gives for the short write is negative. *)
Lemma three_fragments_one_full_frame :
  let sched := [Play (repeat x00 10); Play (repeat x00 5000);
                Play (repeat x00 3)] ++ repeat (Player true) 15 in
  let w := run sched (started Config.CHUNK) in
  map (fun f => Z.of_nat (length f)) (written (s_log (dev w)))
  = [4096; 917]%Z
  /\ held w = []
  /\ length (filter (fun f => Z.of_nat (length f) =? Config.CHUNK)%Z
               (written (s_log (dev w)))) = 1
  /\ ((10 + 5000 + 3) - 2 * 4096 = -3179)%Z.
Proof. cbv zeta. repeat split; vm_compute; reflexivity. Qed.

(** C5, amended.  When fragments of 10, 5000 and 3 bytes are enqueued with
    frame size 4096 and the wait never times out on a non-empty buffer
    before the last of them is taken, the idle period that follows leaves
    exactly one full write of 4096 bytes and one final short write of
    [(10+5000+3) - 4096 = 917] bytes. *)
Theorem three_fragments_frames (a b c : bytes) (sched : list label) :
  Z.of_nat (length a) = 10%Z -> Z.of_nat (length b) = 5000%Z ->
  Z.of_nat (length c) = 3%Z ->
  nominal sched = true -> enqueued sched = [a; b; c] ->
  idle_flush_free sched (started Config.CHUNK) = true ->
  player (run sched (started Config.CHUNK)) = Some PGet ->
  _queue (spk (run sched (started Config.CHUNK))) = [] ->
  let w := run (repeat (Player true) 3) (run sched (started Config.CHUNK)) in
  let all := a ++ b ++ c in
  written (s_log (dev w)) = [firstn 4096 all; skipn 4096 all]
  /\ map (fun f => Z.of_nat (length f)) (written (s_log (dev w)))
     = [4096; (10 + 5000 + 3) - 4096]%Z.
Proof.
  intros Ha Hb Hc Hs He Hi Hp Hq. cbv zeta.
  assert (H0 : (0 < Config.CHUNK)%Z) by reflexivity.
  destruct (quiet_run_frames sched H0 Hs Hi Hp Hq) as [Hw _].
  rewrite He in Hw. cbn [concat] in Hw. rewrite app_nil_r in Hw.
  set (all := a ++ b ++ c) in *.
  assert (Hall : Z.of_nat (length all) = 5013%Z).
  { unfold all. rewrite !length_app. lia. }
  set (n := Z.to_nat Config.CHUNK) in *.
  assert (Hn : Z.of_nat n = 4096%Z) by reflexivity.
  assert (Hsplit : split_frames n all = [firstn n all; skipn n all]).
  { transitivity (split_frames n (concat [firstn n all] ++ skipn n all)).
    { f_equal. cbn [concat]. rewrite app_nil_r, firstn_skipn. reflexivity. }
    rewrite split_frames_full.
    - assert (Ht : truthy (skipn n all) = true).
      { apply truthy_length. rewrite length_skipn. lia. }
      rewrite Ht. reflexivity.
    - lia.
    - constructor; [|constructor]. rewrite length_firstn. lia.
    - rewrite length_skipn. lia. }
  replace 4096 with n by (apply Nat2Z.inj; rewrite Hn; reflexivity).
  rewrite Hw, Hsplit. split; [reflexivity|].
  cbn [map]. rewrite length_firstn, length_skipn.
  repeat f_equal; lia.
Qed.

Lemma three_fragments_frames_witness :
  let a := repeat x00 10 in
  let b := repeat x00 5000 in
  let c := repeat x00 3 in
  let sched := [Play a; Play b; Play c] ++ repeat (Player true) 12 in
  let w := run (repeat (Player true) 3) (run sched (started Config.CHUNK)) in
  map (fun f => Z.of_nat (length f)) (written (s_log (dev w)))
  = [4096; (10 + 5000 + 3) - 4096]%Z.
Proof.
  cbv zeta.
  refine (proj2 (@three_fragments_frames
            (repeat x00 10) (repeat x00 5000) (repeat x00 3)
            ([Play (repeat x00 10); Play (repeat x00 5000);
              Play (repeat x00 3)] ++ repeat (Player true) 12)
            _ _ _ _ _ _ _ _));
    vm_compute; reflexivity.
Defined.

(** C6, counterexample.  Frame size 4, one fragment of 12 bytes.  The first
    frame is sliced off (lines 56-57) and its write raises; the handler on
    line 63 prints the error and the outer loop goes on.  The thread is back
    at the head of the loop, outside the slicing, with 8 bytes in the
    buffer: two whole frames.  The next idle flush hands them to the device
    as one write of 8 bytes. *)
Lemma refused_write_leaves_whole_frames :
  let data := [x01; x02; x03; x04; x05; x06; x07; x08; x09; x0a; x0b; x0c] in
  let sched := [Play data] ++ repeat (Player true) 3 ++ [Player false] in
  let w := run sched (started 4) in
  player w = Some PWhile
  /\ observation_point (player w) = true
  /\ _buffer (spk w) = [x05; x06; x07; x08; x09; x0a; x0b; x0c]
  /\ ~ (Z.of_nat (length (_buffer (spk w))) < _chunk (spk w))%Z
  /\ printed w = [SinkError]
  /\ written (s_log (dev (run (repeat (Player true) 3) w)))
     = [[x05; x06; x07; x08; x09; x0a; x0b; x0c]].
Proof. cbv zeta. repeat split; try reflexivity. vm_compute. discriminate. Qed.

(** An empty buffer stays empty as long as no fragment is dequeued,
    whatever else happens. *)
Lemma empty_until_dequeue (more : list label) (w : Sys) :
  _buffer (spk w) = [] ->
  player w = Some PWhile \/ player w = Some PGet \/ player w = Some PExited ->
  Forall (fun w' => player w' <> Some PInner) (visited more w) ->
  _buffer (spk (run more w)) = []
  /\ (player (run more w) = Some PWhile \/ player (run more w) = Some PGet
      \/ player (run more w) = Some PExited).
Proof.
  revert w. induction more as [|l more IH]; intros w Hb Hp Hv; [auto|].
  cbn [visited] in Hv. inversion Hv as [|w0 ws _ Hv']; subst.
  change (run (l :: more) w) with (run more (step l w)).
  assert (Hn : player (step l w) <> Some PInner).
  { destruct more; cbn [visited] in Hv'; inversion Hv'; assumption. }
  apply IH; [| |exact Hv'].
  - destruct l as [data|ok|]; cbn [step] in *.
    + exact Hb.
    + open_sys w. subst. unfold player_step in *; cbn in *.
      destruct Hp as [Hp|[Hp|Hp]]; subst; cbn in *.
      * destruct _exit0; reflexivity.
      * destruct _queue0; cbn in *; [reflexivity|congruence].
      * reflexivity.
    + unfold stop_step.
      destruct (stopper w); cbn; try exact Hb;
        [destruct (_stream (spk w)) | destruct (_thread (spk w))
         | destruct (finished (player w))]; exact Hb.
  - destruct l as [data|ok|]; cbn [step] in *.
    + exact Hp.
    + open_sys w. subst. unfold player_step in *; cbn in *.
      destruct Hp as [Hp|[Hp|Hp]]; subst; cbn in *.
      * destruct _exit0; cbn; auto.
      * destruct _queue0; cbn in *; [auto|congruence].
      * auto.
    + unfold stop_step.
      destruct (stopper w); cbn; try exact Hp;
        [destruct (_stream (spk w)) | destruct (_thread (spk w))
         | destruct (finished (player w))]; exact Hp.
Qed.

(** C6, amended.  For a positive frame size, as long as the device has
    accepted every write and nobody has called [stop]: at every point of the
    playback loop outside the slicing of a dequeued fragment, the idle
    flush included, the buffer is shorter than one frame; the idle flush
    writes a buffer that is not empty; and once the idle flush has cleared
    the buffer it is empty and stays empty, whatever runs, until the thread
    dequeues the next fragment. *)
Theorem buffer_below_frame_size (c : Z) (sched : list label) :
  (0 < c)%Z -> nominal sched = true ->
  let w := run sched (started c) in
  (observation_point (player w) = true ->
   (0 <= Z.of_nat (length (_buffer (spk w))) < c)%Z)
  /\ (player w = Some PFlush -> _buffer (spk w) <> [])
  /\ (player w = Some PClear ->
      forall ok more,
        Forall (fun w' => player w' <> Some PInner)
               (visited more (step (Player ok) w)) ->
        _buffer (spk (run more (step (Player ok) w))) = []).
Proof.
  intros Hc Hs. cbv zeta.
  destruct (started_sized Hc) as [Hz0 Hf0].
  destruct (run_sized sched Hc (started_normal c) Hs Hz0
              (full_is_frame_sized Hc Hf0)) as [Hz _].
  split; [|split].
  - intros Ho. unfold sized in Hz.
    destruct (player (run sched (started c))) as [[| | |f| | | |e]|];
      try discriminate; lia.
  - intros Hp Hb. unfold sized in Hz. rewrite Hp, Hb in Hz. cbn in Hz. lia.
  - intros Hp ok more Hv.
    apply (@empty_until_dequeue more (step (Player ok) (run sched (started c))));
      [| |exact Hv]; unfold step, player_step; rewrite Hp; auto.
Qed.

Lemma buffer_below_frame_size_witness :
  let data := [x01; x02; x03; x04; x05; x06] in
  let w := run ([Play data] ++ repeat (Player true) 5) (started 4) in
  let w' := run ([Play data] ++ repeat (Player true) 8) (started 4) in
  let more := [Player true; Player true; Play [x07]; Player true] in
  (0 <= Z.of_nat (length (_buffer (spk w))) < 4)%Z
  /\ player w' = Some PClear
  /\ _buffer (spk w') = [x05; x06]
  /\ _buffer (spk (run more (step (Player true) w'))) = [].
Proof.
  cbv zeta. split; [|split; [reflexivity|split; [reflexivity|]]].
  - refine (proj1 (@buffer_below_frame_size 4
              ([Play [x01; x02; x03; x04; x05; x06]]
                 ++ repeat (Player true) 5) _ _) _);
      first [lia | reflexivity].
  - refine (proj2 (proj2 (@buffer_below_frame_size 4
              ([Play [x01; x02; x03; x04; x05; x06]]
                 ++ repeat (Player true) 8) _ _)) _ true
              [Player true; Player true; Play [x07]; Player true] _);
      first [lia | reflexivity | idtac].
    repeat constructor; vm_compute; discriminate.
Defined.




(** ** [Speaker.stop] and the playback thread *)

Lemma step_stop_inv (l : label) (w : Sys) : stop_inv w -> stop_inv (step l w).
Proof.
  intros [Ht He Hf Hc Hj]. destruct l as [data|ok|]; cbn [step].
  - split; assumption.
  - destruct (player_step_frame ok w)
      as (E1 & E2 & E3 & E4 & E5 & E6 & E7 & E8 & E9 & E10 & E11 & E12).
    split; rewrite ?E1, ?E2, ?E3, ?E4, ?E5, ?E6, ?E7, ?E8, ?E9, ?E10; auto.
    intros H. rewrite E12; auto.
  - open_sys w. unfold stop_step; cbn.
    destruct stopper0; cbn in *; inversion Hf; subst; cbn;
      try (destruct (finished p) eqn:Efin; cbn);
      split; cbn; rewrite ?lifecycle_app; try rewrite Hc; cbn;
      auto; try discriminate; try congruence;
      try (intros _; apply He; discriminate);
      try (intros _; first [exact Efin | apply Hj; reflexivity]);
      try (specialize (Hj eq_refl); discriminate).
Qed.

Lemma run_stop_inv (sched : list label) (w : Sys) :
  stop_inv w -> stop_inv (run sched w).
Proof.
  revert w. induction sched as [|l sched IH]; intros w H; [exact H|].
  apply IH, step_stop_inv, H.
Qed.

Lemma started_stop_inv (c : Z) : stop_inv (started c).
Proof. split; cbn; auto; discriminate. Qed.

(** Once the exit flag is set and the stream reference is cleared, every
    statement of the playback thread brings it closer to its end: a write
    raises [AttributeError] and the exit test is next. *)
Lemma player_winds_down (ok : bool) (w : Sys) :
  _exit (spk w) = true -> _stream (spk w) = None ->
  player_rank (player (player_step ok w)) <= player_rank (player w) - 1.
Proof.
  intros He Hs. open_sys w. subst. unfold player_step; cbn.
  destruct p as [[| | |f| | | |e]|]; cbn; try lia.
  - destruct _queue0; [destruct (truthy _buffer0)|]; cbn; lia.
  - destruct (Z.of_nat (length _buffer0) >=? _chunk0)%Z; cbn; lia.
Qed.

Lemma players_wind_down (n : nat) (w : Sys) :
  _exit (spk w) = true -> _stream (spk w) = None ->
  let w' := run (repeat (Player true) n) w in
  player_rank (player w') <= player_rank (player w) - n
  /\ stopper w' = stopper w /\ (stop_inv w -> stop_inv w').
Proof.
  revert w. induction n as [|n IH]; intros w He Hs; cbn.
  - split; [lia | auto].
  - destruct (player_step_frame true w)
      as (E1 & E2 & _ & _ & _ & _ & _ & _ & E9 & _).
    destruct (IH (player_step true w)) as (H1 & H2 & H3);
      [congruence | congruence |].
    pose proof (player_winds_down true w He Hs).
    split; [|split].
    + fold (run (repeat (Player true) n) (player_step true w)). lia.
    + fold (run (repeat (Player true) n) (player_step true w)). congruence.
    + intros Hi. apply H3. apply (step_stop_inv (Player true)), Hi.
Qed.

Lemma player_rank_bound (p : option pc) : player_rank p <= 4.
Proof. destruct p as [[| | |f| | | |e]|]; cbn; lia. Qed.

Lemma rank_zero_finished (p : option pc) :
  p <> None -> player_rank p = 0 -> finished p = true.
Proof. destruct p as [[| | |f| | | |e]|]; cbn; congruence. Qed.

(** A statement of [stop] before the [join] always runs. *)
Lemma stop_step_rank (w : Sys) :
  stop_rank (stopper (stop_step w)) <= Nat.max 3 (stop_rank (stopper w) - 1).
Proof.
  open_sys w. unfold stop_step; cbn.
  destruct stopper0; cbn;
    repeat match goal with
      | |- context [match ?o with Some _ => _ | None => _ end] =>
          destruct o; cbn
      | |- context [if ?b then _ else _] => destruct b; cbn
      end; lia.
Qed.

Lemma stops_reach_join (n : nat) (w : Sys) :
  stop_rank (stopper (run (repeat Stop n) w))
  <= Nat.max 3 (stop_rank (stopper w) - n).
Proof.
  revert w. induction n as [|n IH]; intros w.
  - cbn [repeat run fold_left]. lia.
  - change (run (repeat Stop (S n)) w) with (run (repeat Stop n) (stop_step w)).
    specialize (IH (stop_step w)). pose proof (stop_step_rank w). lia.
Qed.

(** Once the playback thread has ended the [join] returns, and so does
    [stop]. *)
Lemma stop_step_joined (w : Sys) :
  finished (player w) = true ->
  finished (player (stop_step w)) = true
  /\ stop_rank (stopper (stop_step w)) <= stop_rank (stopper w) - 1.
Proof.
  intros Hf. open_sys w. unfold stop_step; cbn.
  destruct stopper0; cbn; rewrite ?Hf; cbn;
    repeat match goal with
      | |- context [match ?o with Some _ => _ | None => _ end] =>
          destruct o; cbn
      end; split; (assumption || lia).
Qed.

Lemma stops_return (n : nat) (w : Sys) :
  finished (player w) = true ->
  stop_rank (stopper (run (repeat Stop n) w)) <= stop_rank (stopper w) - n.
Proof.
  revert w. induction n as [|n IH]; intros w Hf.
  - cbn [repeat run fold_left]. lia.
  - change (run (repeat Stop (S n)) w) with (run (repeat Stop n) (stop_step w)).
    destruct (stop_step_joined w Hf) as [Hf' Hr].
    specialize (IH (stop_step w) Hf'). lia.
Qed.

(** When [stop] is at its [join] or past it, four statements end the
    playback thread. *)
Lemma players_finish (w : Sys) :
  stop_inv w -> stop_rank (stopper w) <= 3 ->
  finished (player (run (repeat (Player true) 4) w)) = true
  /\ stopper (run (repeat (Player true) 4) w) = stopper w.
Proof.
  intros Hi Hr.
  assert (He : _exit (spk w) = true).
  { apply (si_exit Hi). intros E. rewrite E in Hr. cbn in Hr. lia. }
  assert (Hs : _stream (spk w) = None).
  { pose proof (si_effects Hi) as E.
    destruct (stopper w); cbn in Hr, E; try lia; inversion E; reflexivity. }
  destruct (players_wind_down 4 w He Hs) as (Hp & Hst & Hinv).
  split; [|exact Hst].
  apply rank_zero_finished; [apply (si_thread (Hinv Hi))|].
  pose proof (player_rank_bound (player w)). lia.
Qed.

Lemma stop_rank_zero (p : stop_pc) : stop_rank p = 0 -> p = SReturned.
Proof. destruct p; cbn; intros H; (reflexivity || discriminate H). Qed.


Lemma stop_returns (w : Sys) :
  stop_inv w -> stopper (run stop_to_end w) = SReturned.
Proof.
  intros Hi. unfold stop_to_end. rewrite !run_app.
  pose proof (stops_reach_join 6 w) as Hr1.
  pose proof (run_stop_inv (repeat Stop 6) Hi) as Hi1.
  remember (run (repeat Stop 6) w) as w1 eqn:Ew1.
  assert (Hr : stop_rank (stopper w1) <= 3).
  { assert (stop_rank (stopper w) <= 9) by (destruct (stopper w); cbn; lia).
    lia. }
  destruct (players_finish Hi1 Hr) as [Hf Hst].
  apply stop_rank_zero.
  pose proof (stops_return 3 _ Hf) as H. rewrite Hst in H. lia.
Qed.

Lemma run_plays (frags : list bytes) (w : Sys) :
  run (map Play frags) w = with_spk (fun s => set_queue (_queue s ++ frags) s) w.
Proof.
  revert w. induction frags as [|d frags IH]; intros w.
  - cbn. open_sys w. unfold with_spk, set_queue; cbn. rewrite app_nil_r.
    reflexivity.
  - cbn [map run fold_left step]. fold (run (map Play frags) (play d w)).
    rewrite IH. open_sys w. unfold play, with_spk, set_queue; cbn.
    rewrite <- app_assoc. reflexivity.
Qed.

(** No statement changes the configuration of the engine. *)
Lemma run_config (sched : list label) (w : Sys) :
  _rate (spk (run sched w)) = _rate (spk w)
  /\ _channels (spk (run sched w)) = _channels (spk w)
  /\ _chunk (spk (run sched w)) = _chunk (spk w).
Proof.
  revert w. induction sched as [|l sched IH]; intros w; [auto|].
  change (run (l :: sched) w) with (run sched (step l w)).
  destruct (IH (step l w)) as (H1 & H2 & H3). rewrite H1, H2, H3. clear.
  destruct l as [d|ok|]; cbn [step].
  - auto.
  - destruct (player_step_frame ok w) as (_ & _ & _ & E4 & E5 & E6 & _).
    auto.
  - open_sys w. unfold stop_step; cbn.
    destruct stopper0; cbn;
      repeat match goal with
        | |- context [match ?o with Some _ => _ | None => _ end] =>
            destruct o; cbn
        | |- context [if ?b then _ else _] => destruct b; cbn
        end; auto.
Qed.

(** C8.  On an engine that was never started, whatever was enqueued, [stop]
    returns after four statements: it sets the exit flag, finds the stream
    reference [None] and makes no call on the stream, finds the thread
    reference [None] and joins nothing, and leaves an empty queue.  On an
    engine that was started, whatever the schedule: when [stop] has
    returned the exit flag is set, the stream has been stopped and closed
    (one call each, in this order), the playback thread has ended, and both
    references are cleared; its last statement replaces the queue with an
    empty one; and [stop] does return once the playback thread gets to
    run. *)
Theorem stop_contract :
  (forall (chunk : Z) (frags : list bytes),
      let w := run (map Play frags) (new chunk) in
      _queue (spk w) = frags
      /\ map stopper (visited (repeat Stop 4) w)
         = [SEntry; STestStream; STestThread; SResetQueue; SReturned]
      /\ run (repeat Stop 4) w
         = mkSys (mkSpeaker true [] chunk Config.RATE Config.CHANNELS []
                            None None)
                 no_sink None [] SReturned)
  /\ (forall (chunk : Z) (sched : list label),
      let w := run sched (started chunk) in
      (stopper w = SReturned ->
       _exit (spk w) = true
       /\ lifecycle (s_log (dev w))
          = [SinkOpen Config.RATE Config.CHANNELS chunk; SinkStart;
             SinkStop; SinkClose]
       /\ s_active (dev w) = false /\ s_closed (dev w) = true
       /\ finished (player w) = true
       /\ _stream (spk w) = None /\ _thread (spk w) = None)
      /\ (stopper w = SResetQueue ->
          _queue (spk (step Stop w)) = []
          /\ stopper (step Stop w) = SReturned)
      /\ stopper (run stop_to_end w) = SReturned).
Proof.
  split.
  - intros chunk frags. cbv zeta. rewrite run_plays. cbn. auto.
  - intros chunk sched. cbv zeta.
    pose proof (run_stop_inv sched (started_stop_inv chunk)) as Hi.
    split; [|split].
    + intros Hr.
      destruct (run_config sched (started chunk)) as (K1 & K2 & K3).
      change (_rate (spk (started chunk))) with Config.RATE in K1.
      change (_channels (spk (started chunk))) with Config.CHANNELS in K2.
      change (_chunk (spk (started chunk))) with chunk in K3.
      remember (run sched (started chunk)) as w eqn:Ew.
      destruct Hi as [Ht He Hf Hc Hj]. rewrite Hr, K1, K2, K3 in *.
      cbn [stop_effects stop_calls joined] in *.
      injection Hf as F1 F2 F3 F4.
      repeat split; auto. apply He. discriminate.
    + intros Hr. unfold step, stop_step. rewrite Hr. cbn. auto.
    + apply stop_returns, Hi.
Qed.

End SpeakerFacts.

(** * Facts about the synthesis stream client *)

Section ClientFacts.
Import TTSClient.
Import AudioUtils.

Ltac open_state t :=
  destruct t as [eng k ex rp ad con fl cl]; destruct k as [conn klog];
  simpl in *.

Lemma tts_run_app (s1 s2 : list label) (t : State) :
  run (s1 ++ s2) t = run s2 (run s1 t).
Proof. apply fold_left_app. Qed.

Lemma received_app (l1 l2 : list sock_event) :
  received (l1 ++ l2) = received l1 ++ received l2.
Proof.
  induction l1 as [|e l1 IH]; simpl; [reflexivity|].
  destruct e as [s| |m|]; try destruct m; simpl; rewrite ?IH; reflexivity.
Qed.

(** Every statement of the client leaves the engine alone or is one step of
    the engine: a [play], a statement of [stop], a statement of the playback
    thread. *)
Lemma step_engine (l : label) (t : State) :
  engine (step l t) = engine t
  \/ exists l', engine (step l t) = Speaker.step l' (engine t).
Proof.
  destruct l as [r| |ok]; cbn [step].
  - open_state t. unfold receiver_step; cbn.
    destruct rp; cbn; auto.
    + destruct ex; auto.
    + destruct conn; cbn; [destruct r as [[|s|b|]|]|]; cbn; auto.
      right. exists (Speaker.Play b). reflexivity.
    + destruct (Speaker.stopper eng) eqn:E; cbn; auto;
        right; exists Speaker.Stop; reflexivity.
  - open_state t. unfold close_step; cbn.
    destruct cl; cbn; auto.
    + unfold send_json; cbn. destruct conn; cbn; auto.
    + destruct rp; auto.
  - right. exists (Speaker.Player ok). reflexivity.
Qed.

Lemma step_stop_inv_client (l : label) (t : State) :
  Speaker.stop_inv (engine t) -> Speaker.stop_inv (engine (step l t)).
Proof.
  intros H. destruct (step_engine l t) as [E|[l' E]]; rewrite E;
    [exact H | apply step_stop_inv, H].
Qed.

Lemma run_stop_inv_client (sched : list label) (t : State) :
  Speaker.stop_inv (engine t) -> Speaker.stop_inv (engine (run sched t)).
Proof.
  revert t. induction sched as [|l sched IH]; intros t H; [exact H|].
  apply IH, step_stop_inv_client, H.
Qed.

Lemma step_final_inv (l : label) (t : State) :
  final_inv t -> final_inv (step l t).
Proof.
  intros [Ha Hr]. destruct l as [r| |ok]; cbn [step].
  - open_state t. unfold final_inv, receiver_step in *; cbn in *.
    destruct rp; cbn in *.
    + destruct ex; cbn; tauto.
    + destruct conn; cbn; [destruct r as [[|s|b|]|]|]; cbn;
        rewrite ?received_app; cbn; rewrite ?app_nil_r; subst;
        intuition congruence.
    + destruct (Speaker.stopper eng) eqn:E; cbn; rewrite ?E; auto.
    + destruct Hr as [Hf Hs]. subst. cbn. auto.
    + auto.
  - open_state t. unfold final_inv, close_step in *; cbn in *.
    destruct cl; cbn; auto.
    + unfold send_json; cbn. destruct conn; cbn; auto.
      rewrite received_app; cbn. rewrite app_nil_r. auto.
    + rewrite received_app; cbn. rewrite app_nil_r. auto.
    + destruct rp; cbn; auto.
  - open_state t. unfold final_inv in *; cbn in *.
    destruct (player_step_frame ok eng) as (_ & _ & _ & _ & _ & _ & _ & _ & E & _).
    rewrite E. auto.
Qed.

Lemma run_final_inv (sched : list label) (t : State) :
  final_inv t -> final_inv (run sched t).
Proof.
  revert t. induction sched as [|l sched IH]; intros t H; [exact H|].
  apply IH, step_final_inv, H.
Qed.

Lemma init_final_inv (e : Speaker.Sys) :
  Speaker.stopper e = Speaker.SEntry -> final_inv (init e).
Proof. intros H. split; cbn; auto. Qed.

Lemma step_close_inv (l : label) (t : State) :
  close_inv t -> close_inv (step l t).
Proof.
  intros H. destruct l as [r| |ok]; cbn [step].
  - open_state t. unfold close_inv, receiver_step in *; cbn in *.
    destruct rp; cbn.
    + destruct ex; cbn; destruct cl; cbn in *; intuition congruence.
    + destruct conn; cbn; [destruct r as [[|s|b|]|]|]; cbn;
        destruct cl; cbn in *; intuition congruence.
    + destruct (Speaker.stopper eng); cbn; destruct cl; cbn in *;
        intuition congruence.
    + destruct cl; cbn in *; intuition congruence.
    + exact H.
  - open_state t. unfold close_inv, close_step in *; cbn in *.
    destruct cl; cbn in *; auto.
    + unfold send_json; cbn. destruct conn; cbn; auto.
    + destruct rp; cbn; intuition congruence.
  - open_state t. unfold close_inv in *; cbn in *. exact H.
Qed.

Lemma run_close_inv (sched : list label) (t : State) :
  close_inv t -> close_inv (run sched t).
Proof.
  revert t. induction sched as [|l sched IH]; intros t H; [exact H|].
  apply IH, step_close_inv, H.
Qed.

(** Neither the receiver nor the playback thread touches what [close] is
    doing. *)
Lemma step_closer (l : label) (t : State) :
  l <> Closer -> closer (step l t) = closer t.
Proof.
  intros Hl. destruct l as [r| |ok]; [|congruence|reflexivity].
  open_state t. unfold step, receiver_step; cbn.
  destruct rp; cbn; auto.
  - destruct ex; auto.
  - destruct conn; cbn; [destruct r as [[|s|b|]|]|]; reflexivity.
  - destruct (Speaker.stopper eng); reflexivity.
Qed.

Lemma run_closer (sched : list label) (t : State) :
  Forall (fun l => l <> Closer) sched -> closer (run sched t) = closer t.
Proof.
  revert t. induction sched as [|l sched IH]; intros t H; [reflexivity|].
  inversion H; subst. change (run (l :: sched) t) with (run sched (step l t)).
  rewrite IH by assumption. apply step_closer. assumption.
Qed.

(** A connection that is gone stays gone. *)
Lemma step_disconnected (l : label) (t : State) :
  connected (socket t) = false -> connected (socket (step l t)) = false.
Proof.
  intros H. destruct l as [r| |ok]; cbn [step].
  - open_state t. subst. unfold receiver_step; cbn.
    destruct rp; cbn; auto.
    + destruct ex; auto.
    + destruct (Speaker.stopper eng); reflexivity.
  - open_state t. subst. unfold close_step; cbn.
    destruct cl; cbn; auto. destruct rp; auto.
  - exact H.
Qed.

(** With a [recv] that raises, every statement of the receiver brings it
    closer to its end, until the [join] inside [stop]. *)
Lemma rx_step_rank (r : recv_result) (t : State) :
  r = RecvRaise \/ connected (socket t) = false ->
  receiver_rank (receiver_step r t) <= Nat.max 5 (receiver_rank t - 1).
Proof.
  intros H. open_state t. unfold receiver_rank, receiver_step; cbn.
  destruct rp; cbn; try lia.
  - destruct ex; cbn; [|lia].
    destruct (Speaker.stopper eng); cbn; lia.
  - destruct H as [H|H]; subst; cbn.
    + destruct conn; cbn; destruct (Speaker.stopper eng); cbn; lia.
    + destruct (Speaker.stopper eng); cbn; lia.
  - pose proof (stop_step_rank eng) as Hs.
    destruct (Speaker.stopper eng) eqn:E; cbn in *; lia.
Qed.

Lemma rx_reach_join (r : recv_result) (n : nat) (t : State) :
  r = RecvRaise \/ connected (socket t) = false ->
  receiver_rank (run (repeat (Rx r) n) t) <= Nat.max 5 (receiver_rank t - n).
Proof.
  revert t. induction n as [|n IH]; intros t H.
  - cbn [repeat run fold_left]. lia.
  - change (run (repeat (Rx r) (S n)) t)
      with (run (repeat (Rx r) n) (step (Rx r) t)).
    assert (H' : r = RecvRaise \/ connected (socket (step (Rx r) t)) = false).
    { destruct H as [H|H]; [left; exact H|right].
      apply step_disconnected, H. }
    specialize (IH _ H'). pose proof (rx_step_rank t H) as Hs.
    cbn [step] in *. lia.
Qed.

(** Past the loop and with the playback thread ended, every statement of
    the receiver runs. *)
Lemma rx_step_joined (r : recv_result) (t : State) :
  Speaker.finished (Speaker.player (engine t)) = true ->
  receiver_rank t <= 11 ->
  Speaker.finished (Speaker.player (engine (receiver_step r t))) = true
  /\ receiver_rank (receiver_step r t) <= receiver_rank t - 1.
Proof.
  intros Hf Hr. open_state t. unfold receiver_rank, receiver_step in *.
  cbn in *. destruct rp; cbn in *; try lia; try (split; [assumption|lia]).
  destruct (stop_step_joined eng Hf) as [Hf' Hs].
  destruct (Speaker.stopper eng) eqn:E; cbn in *;
    split; (assumption || lia).
Qed.

Lemma rx_return (r : recv_result) (n : nat) (t : State) :
  Speaker.finished (Speaker.player (engine t)) = true ->
  receiver_rank t <= 11 ->
  receiver_rank (run (repeat (Rx r) n) t) <= receiver_rank t - n.
Proof.
  revert t. induction n as [|n IH]; intros t Hf Hr.
  - cbn [repeat run fold_left]. lia.
  - change (run (repeat (Rx r) (S n)) t)
      with (run (repeat (Rx r) n) (receiver_step r t)).
    destruct (rx_step_joined r t Hf Hr) as [Hf' Hs].
    assert (Hr' : receiver_rank (receiver_step r t) <= 11) by lia.
    specialize (IH _ Hf' Hr'). lia.
Qed.

Lemma run_playback (n : nat) (t : State) :
  run (repeat (Playback true) n) t
  = with_engine (Speaker.run (repeat (Speaker.Player true) n) (engine t)) t.
Proof.
  revert t. induction n as [|n IH]; intros t.
  - destruct t; reflexivity.
  - change (run (repeat (Playback true) (S n)) t)
      with (run (repeat (Playback true) n) (step (Playback true) t)).
    rewrite IH. destruct t; reflexivity.
Qed.

Lemma receiver_rank_zero (t : State) : receiver_rank t = 0 -> receiver t = RDone.
Proof. unfold receiver_rank. destruct (receiver t); intros H; auto; lia. Qed.

Lemma engine_with_engine (e : Speaker.Sys) (t : State) :
  engine (with_engine e t) = e.
Proof. reflexivity. Qed.

Lemma with_engine_rank (e : Speaker.Sys) (t : State) :
  Speaker.stopper e = Speaker.stopper (engine t) ->
  receiver_rank (with_engine e t) = receiver_rank t.
Proof.
  intros H. unfold receiver_rank, with_engine. cbn. rewrite H. reflexivity.
Qed.

(** The receiver of a started engine ends once its [recv] raises: eight
    statements take it to the [join] inside [stop] at least, four statements
    end the playback thread, five more statements end the receiver. *)
Lemma drain_to_join (r : recv_result) (t : State) :
  r = RecvRaise \/ connected (socket t) = false ->
  receiver_rank (run (repeat (Rx r) 8) t) <= 5.
Proof.
  intros Hr. pose proof (rx_reach_join 8 t Hr) as H1.
  assert (receiver_rank t <= 13).
  { unfold receiver_rank. destruct (receiver t); try lia.
    destruct (Speaker.stopper (engine t)); cbn; lia. }
  lia.
Qed.

Lemma drain_playback (t : State) :
  final_inv t -> Speaker.stop_inv (engine t) -> receiver_rank t <= 5 ->
  Speaker.finished
    (Speaker.player (engine (run (repeat (Playback true) 4) t))) = true
  /\ receiver_rank (run (repeat (Playback true) 4) t) <= 5.
Proof.
  intros Hfin Hinv Hk.
  assert (Hs : Speaker.stop_rank (Speaker.stopper (engine t)) <= 3).
  { destruct Hfin as [_ Hf]. unfold receiver_rank in Hk.
    destruct (receiver t); try lia.
    - destruct Hf as [_ Hf]. rewrite Hf. cbn. lia.
    - destruct Hf as [_ Hf]. rewrite Hf. cbn. lia. }
  destruct (players_finish Hinv Hs) as [Hf2 Hst2].
  rewrite run_playback, engine_with_engine.
  rewrite (with_engine_rank _ t Hst2). split; assumption.
Qed.

Lemma drain_return (r : recv_result) (t : State) :
  Speaker.finished (Speaker.player (engine t)) = true ->
  receiver_rank t <= 5 ->
  receiver (run (repeat (Rx r) 5) t) = RDone.
Proof.
  intros Hf Hk. apply receiver_rank_zero.
  assert (Hk' : receiver_rank t <= 11) by lia.
  pose proof (rx_return r 5 t Hf Hk') as H. lia.
Qed.

Lemma drain_ends (r : recv_result) (t : State) :
  final_inv t -> Speaker.stop_inv (engine t) ->
  r = RecvRaise \/ connected (socket t) = false ->
  receiver (run (drain r) t) = RDone.
Proof.
  intros Hfin Hinv Hr. unfold drain. rewrite !tts_run_app.
  pose proof (drain_to_join t Hr) as H1.
  pose proof (run_final_inv (repeat (Rx r) 8) Hfin) as Hfin1.
  pose proof (run_stop_inv_client (repeat (Rx r) 8) t Hinv) as Hinv1.
  destruct (drain_playback Hfin1 Hinv1 H1) as [Hf2 Hk2].
  apply drain_return; assumption.
Qed.

Lemma closers_disconnect (t : State) :
  close_inv t ->
  connected (socket (run (repeat Closer 3) t)) = false
  /\ (closer (run (repeat Closer 3) t) = CJoin
      \/ closer (run (repeat Closer 3) t) = CReturned
      \/ exists e, closer (run (repeat Closer 3) t) = CRaised e).
Proof.
  intros H. open_state t. unfold close_inv in H; cbn in H.
  destruct cl; destruct conn; destruct rp; cbn;
    intuition (try discriminate; eauto).
Qed.

Lemma close_step_receiver (t : State) : receiver (close_step t) = receiver t.
Proof.
  open_state t. unfold close_step; cbn.
  destruct cl; cbn; auto.
  - unfold send_json; cbn. destruct conn; reflexivity.
  - destruct rp; reflexivity.
Qed.

Lemma session_invariants (c : Z) (sched : list label) :
  final_inv (run sched (init (Speaker.started c)))
  /\ close_inv (run sched (init (Speaker.started c)))
  /\ Speaker.stop_inv (engine (run sched (init (Speaker.started c)))).
Proof.
  split; [|split].
  - apply run_final_inv, init_final_inv. reflexivity.
  - apply run_close_inv. exact I.
  - apply run_stop_inv_client. apply started_stop_inv.
Qed.

(** The session ends on both paths: when the connection fails, and when
    [close] is called. *)
Lemma session_ends (c : Z) (sched : list label) (r : recv_result) :
  let t := run sched (init (Speaker.started c)) in
  receiver (run error_exit t) = RDone
  /\ receiver (run (close_exit r) t) = RDone
  /\ (closer (run (close_exit r) t) = CReturned
      \/ exists e, closer (run (close_exit r) t) = CRaised e).
Proof.
  cbv zeta. destruct (session_invariants c sched) as (Hf & Hc & Hs).
  remember (run sched (init (Speaker.started c))) as t eqn:Et.
  split; [|].
  - apply drain_ends; auto.
  - unfold close_exit. rewrite !tts_run_app.
    destruct (closers_disconnect t Hc) as [Hd Hcl].
    pose proof (run_final_inv (repeat Closer 3) Hf) as Hf1.
    pose proof (run_stop_inv_client (repeat Closer 3) t Hs) as Hs1.
    pose proof (run_close_inv (repeat Closer 3) t Hc) as Hc1.
    remember (run (repeat Closer 3) t) as t1 eqn:E1.
    pose proof (@drain_ends r t1 Hf1 Hs1 (or_intror Hd)) as Hdone.
    assert (Hcl2 : closer (run (drain r) t1) = closer t1).
    { apply run_closer. unfold drain.
      repeat (apply Forall_app; split); apply Forall_forall;
        intros l Hl; apply repeat_spec in Hl; subst; discriminate. }
    remember (run (drain r) t1) as t2 eqn:E2.
    cbn [run fold_left step]. split.
    + rewrite close_step_receiver. exact Hdone.
    + unfold close_step. rewrite Hcl2.
      destruct Hcl as [H|[H|[e H]]]; rewrite H; cbn; rewrite ?Hcl2, ?Hdone, ?H;
        eauto.
Qed.

(** ** Counterexamples and theorems of the client *)

(** C2.  In a session on a started engine, whatever the schedule: while the
    receive loop runs nobody has entered [stop] and no recording has been
    exported; once the receiver has returned, [stop] has run to its end (the
    exit flag of the engine is set, its stream is closed, its thread has
    ended) and exactly one recording has been exported: one file
    [output.wav], mono, two bytes per sample, 48000 frames per second, whose
    frames are the bytes of every binary fragment received, in order.  The
    receiver does return on both paths: when [recv] raises, and when
    [close] is called, whatever the connection would still have delivered.
    The calls [stop] makes on the device and the write of the file are
    taken to return, as everywhere in this model. *)
Theorem finalization_exactly_once (c : Z) (sched : list label)
        (r : recv_result) :
  let t := run sched (init (Speaker.started c)) in
  (receiver t = RDone ->
   files t = [save_to_wav (received (sock_log (socket t)))]
   /\ map frames (files t) = [concat (received (sock_log (socket t)))]
   /\ map (fun f => (wav_name f, nchannels f, sampwidth f, framerate f))
          (files t)
      = [("output.wav"%string, 1%Z, 2%Z, 48000%Z)]
   /\ Speaker.stopper (engine t) = Speaker.SReturned
   /\ Speaker._exit (Speaker.spk (engine t)) = true
   /\ s_closed (Speaker.dev (engine t)) = true
   /\ Speaker.finished (Speaker.player (engine t)) = true)
  /\ (receiver t <> RDone -> files t = [])
  /\ (receiver t = RWhile \/ receiver t = RRecv ->
      Speaker.stopper (engine t) = Speaker.SEntry)
  /\ receiver (run error_exit t) = RDone
  /\ receiver (run (close_exit r) t) = RDone.
Proof.
  cbv zeta. destruct (session_invariants c sched) as (Hf & Hc & Hs).
  destruct (session_ends c sched r) as (He1 & He2 & _).
  remember (run sched (init (Speaker.started c))) as t eqn:Et.
  destruct Hf as [Ha Hf].
  split; [|split; [|split; [|split]]]; auto.
  - intros Hd. rewrite Hd in Hf. destruct Hf as [Hfile Hst].
    destruct Hs as [_ Hex Heff _ Hj]. rewrite Hst in *. cbn in Heff, Hj.
    injection Heff as _ _ _ F4.
    rewrite <- Ha, Hfile. repeat split; auto. apply Hex. discriminate.
  - intros Hd. destruct (receiver t); try tauto; congruence.
  - intros [H|H]; rewrite H in Hf; tauto.
Qed.

(** C4, counterexample.  Playback engine, frame size 4: a fragment of four
    bytes is dequeued and sliced, and the thread is about to write it (line
    58) when [stop] sets the flag, stops and closes the stream (lines
    37-40).  [stop] has not reached its [join], the thread has not ended,
    and its write now lands on the closed stream.  Client: the receiver has
    passed the test of the exit flag and sits in [recv] when [close] sets
    the flag, sends its message and closes the connection (lines 44-46).
    [close] has not joined, the receiver has not ended, and its [recv] now
    runs on the closed connection. *)
Lemma resource_released_before_join :
  (let w := Speaker.run ([Speaker.Play [x01; x02; x03; x04]]
                           ++ repeat (Speaker.Player true) 3
                           ++ repeat Speaker.Stop 4
                           ++ [Speaker.Player true])
              (Speaker.started 4) in
   s_log (Speaker.dev w)
   = [SinkOpen Config.RATE Config.CHANNELS 4; SinkStart; SinkStop; SinkClose;
      SinkRefuse [x01; x02; x03; x04]]
   /\ touched_after_close (s_log (Speaker.dev w)) = true
   /\ Speaker.stopper w = Speaker.SClearStream
   /\ Speaker.finished (Speaker.player w) = false)
  /\ (let t := run ([Rx (Recv MNone)] ++ repeat Closer 3
                      ++ [Rx (Recv (MBinary [x01]))])
               (init (Speaker.started 4)) in
      sent (sock_log (socket t)) <> []
      /\ skipn 1 (sock_log (socket t)) = [SockClose; SockRecvRaise]
      /\ recv_after_close (sock_log (socket t)) = true
      /\ closer t = CJoin
      /\ receiver t = RFinally).
Proof. cbv zeta. repeat split; try reflexivity. vm_compute. discriminate. Qed.

(** C4, amended.  [stop] and [close] return only after the loop thread has
    ended, and they do return once the loop gets to run.  The resource is
    released before the join, not after it: when [stop] waits in its [join]
    the stream is already closed and the reference cleared, and when [close]
    waits in its [join] the connection is already closed.  A loop that is
    past its exit test can therefore still call the released resource; that
    call raises in the loop's own thread: a write on a closed stream is
    refused, and a [recv] on a closed connection sends the receiver to its
    [finally] block. *)
Theorem join_after_release (c : Z) :
  (forall sched : list Speaker.label,
      let w := Speaker.run sched (Speaker.started c) in
      (Speaker.stopper w = Speaker.SReturned ->
       Speaker.finished (Speaker.player w) = true)
      /\ (Speaker.stopper w = Speaker.SJoin ->
          s_closed (Speaker.dev w) = true
          /\ Speaker._stream (Speaker.spk w) = None)
      /\ Speaker.stopper (Speaker.run Speaker.stop_to_end w)
         = Speaker.SReturned)
  /\ (forall (sched : list label) (r : recv_result),
      let t := run sched (init (Speaker.started c)) in
      (closer t = CReturned -> receiver t = RDone)
      /\ (closer t = CJoin -> connected (socket t) = false)
      /\ (closer (run (close_exit r) t) = CReturned
          \/ exists e, closer (run (close_exit r) t) = CRaised e))
  /\ (forall (ok : bool) (frame : bytes) (s : Sink),
      s_closed s = true -> fst (sink_write ok frame s) = false)
  /\ (forall (r : recv_result) (t : State),
      receiver t = RRecv -> connected (socket t) = false ->
      receiver (step (Rx r) t) = RFinally
      /\ audio_data (step (Rx r) t) = audio_data t
      /\ engine (step (Rx r) t) = engine t).
Proof.
  split; [|split; [|split]].
  - intros sched. cbv zeta.
    pose proof (run_stop_inv sched (started_stop_inv c)) as Hi.
    split; [|split].
    + intros Hr. apply (Speaker.si_joined Hi). rewrite Hr. reflexivity.
    + intros Hr. pose proof (Speaker.si_effects Hi) as E. rewrite Hr in E.
      cbn in E. injection E as E1 _ _ E4. auto.
    + apply stop_returns, Hi.
  - intros sched r. cbv zeta.
    destruct (session_invariants c sched) as (_ & Hc & _).
    destruct (session_ends c sched r) as (_ & _ & He).
    unfold close_inv in Hc. split; [|split]; [| |exact He].
    + intros H. rewrite H in Hc. tauto.
    + intros H. rewrite H in Hc. tauto.
  - intros ok frame s H. unfold sink_write, sink_accepts. rewrite H.
    rewrite andb_false_r. reflexivity.
  - intros r t Hr Hc. open_state t. subst. unfold receiver_step; cbn. auto.
Qed.

Lemma append_empty_r (s : String.string) : (s ++ "")%string = s.
Proof. induction s as [|a s IH]; cbn; [|rewrite IH]; reflexivity. Qed.

Lemma append_assoc_string (a b c : String.string) :
  ((a ++ b) ++ c = a ++ (b ++ c))%string.
Proof. induction a as [|x a IH]; cbn; [|rewrite IH]; reflexivity. Qed.

(** The reader undoes one escaped character. *)
Lemma read_escape_char (c : Ascii.ascii) (tail : String.string) :
  JsonRead.read_string (Json.escape_char c ++ tail)%string
  = JsonRead.cons_text c (JsonRead.read_string tail).
Proof.
  destruct c as [[] [] [] [] [] [] [] []]; reflexivity.
Qed.

Lemma read_escape (s rest : String.string) :
  JsonRead.read_string (Json.escape s ++ String.String Json.quote rest)%string
  = Some (s, rest).
Proof.
  induction s as [|c s IH]; [reflexivity|].
  cbn [Json.escape]. rewrite append_assoc_string, read_escape_char, IH.
  reflexivity.
Qed.

Lemma escape_plain_char (c : Ascii.ascii) :
  JsonRead.plain_char c = true ->
  Json.escape_char c = String.String c String.EmptyString.
Proof.
  destruct c as [[] [] [] [] [] [] [] []]; intros H;
    first [reflexivity | vm_compute in H; discriminate H].
Qed.

Lemma escape_plain (s : String.string) :
  JsonRead.plain s = true -> Json.escape s = s.
Proof.
  induction s as [|c s IH]; [reflexivity|].
  cbn [JsonRead.plain Json.escape]. intros H.
  apply andb_true_iff in H. destruct H as [Hc Hs].
  rewrite (escape_plain_char c Hc), (IH Hs). reflexivity.
Qed.

(** C9, counterexample.  The message serializes and still nothing is sent.
    First run: [close] has sent its message and closed the connection; a
    [speak] of a string and a [flush] that come now raise to their caller,
    and the only frame ever sent is the one of [close].  Second run: the
    connection has failed under the receiver; [speak] and [flush] raise and
    no frame has been sent at all. *)
Lemma serialized_command_not_sent :
  (let t := run (repeat Closer 3) (init (Speaker.started 4)) in
   Json.dumps (speak_message (Json.PyStr "Hello")) <> None
   /\ Json.dumps flush_message <> None
   /\ speak (Json.PyStr "Hello") t = (Raised ConnectionClosed, t)
   /\ flush t = (Raised ConnectionClosed, t)
   /\ sent (sock_log (socket t)) = [ClientMore.close_text])
  /\ (let t := run [Rx RecvRaise; Rx RecvRaise] (init (Speaker.started 4)) in
      speak (Json.PyStr "Hello") t = (Raised ConnectionClosed, t)
      /\ flush t = (Raised ConnectionClosed, t)
      /\ sent (sock_log (socket t)) = []).
Proof. cbv zeta. repeat split; try reflexivity; discriminate. Qed.

(** C9, amended.  [speak] and [flush] serialize first and send second, with
    nothing caught in between.  When [json.dumps] raises, the call raises
    [TypeError] to its caller and nothing has been sent; text given as
    [bytes] is such a case, while the message of [flush] always serializes.
    When serialization succeeds and the connection is open, the call sends
    that one text frame.  The frames, character by character ([q] is the
    double quote): for [speak] of a string the object with key [type] and
    value [Speak], then key [text] and the string, escaped; for [flush] the
    object with key [type] and value [Flush].  Escaping leaves printable
    ASCII other than the double quote and the backslash as it is, and a
    reader of JSON strings gets every text back.  On a connection that is
    gone the call raises [ConnectionClosed] and nothing is sent. *)
Theorem control_messages (text : Json.pyval) (t : State) :
  let q := String.String "034"%char String.EmptyString in
  let speak_text := fun s =>
    ("{" ++ q ++ "type" ++ q ++ ": " ++ q ++ "Speak" ++ q ++ ", "
         ++ q ++ "text" ++ q ++ ": " ++ q ++ Json.escape s ++ q
         ++ "}")%string in
  let flush_text :=
    ("{" ++ q ++ "type" ++ q ++ ": " ++ q ++ "Flush" ++ q ++ "}")%string in
  (Json.dumps (speak_message text) = None ->
   speak text t = (Raised TypeError, t))
  /\ (forall b, text = Json.PyBytes b -> speak text t = (Raised TypeError, t))
  /\ (forall frame, Json.dumps (speak_message text) = Some frame ->
      connected (socket t) = true ->
      speak text t
      = (Returned, with_socket (log_event (SockSend frame) (socket t)) t))
  /\ (forall s, text = Json.PyStr s ->
      Json.dumps (speak_message text) = Some (speak_text s))
  /\ (forall s, JsonRead.plain s = true -> Json.escape s = s)
  /\ (forall s rest,
      JsonRead.read_string (Json.escape s ++ q ++ rest)%string
      = Some (s, rest))
  /\ Json.dumps flush_message = Some flush_text
  /\ (forall frame, Json.dumps flush_message = Some frame ->
      connected (socket t) = true ->
      flush t
      = (Returned, with_socket (log_event (SockSend frame) (socket t)) t))
  /\ (connected (socket t) = false ->
      (forall frame, Json.dumps (speak_message text) = Some frame ->
                     speak text t = (Raised ConnectionClosed, t))
      /\ flush t = (Raised ConnectionClosed, t)).
Proof.
  cbv zeta. repeat split.
  - intros H. unfold speak, send_json. rewrite H. reflexivity.
  - intros b H. subst. reflexivity.
  - intros frame H Hc. unfold speak, send_json. rewrite H, Hc. reflexivity.
  - intros s H. subst. unfold Json.dumps, speak_message, Json.quoted. cbn.
    rewrite !append_assoc_string. cbn. rewrite ?append_empty_r. reflexivity.
  - apply escape_plain.
  - intros s rest. apply read_escape.
  - intros frame H Hc. unfold flush, send_json. rewrite H, Hc. reflexivity.
  - intros frame Hd. unfold speak, send_json. rewrite Hd, H. reflexivity.
  - unfold flush, send_json. cbn. rewrite H. reflexivity.
Qed.

(** C10.  When [recv] hands back [None], or a value that is neither a
    string nor bytes, the receiver goes back to the head of its loop and
    nothing else has changed: nothing reached the engine, nothing was added
    to the recording, nothing was printed or exported. *)
Theorem other_messages_skipped (m : message) (t : State) :
  receiver t = RRecv -> connected (socket t) = true ->
  m = MNone \/ m = MOther ->
  let t' := step (Rx (Recv m)) t in
  receiver t' = RWhile
  /\ engine t' = engine t /\ audio_data t' = audio_data t
  /\ console t' = console t /\ files t' = files t
  /\ t_exit t' = t_exit t /\ closer t' = closer t
  /\ connected (socket t') = true.
Proof.
  intros Hr Hc Hm. open_state t. subst. unfold receiver_step; cbn.
  destruct Hm; subst; cbn; repeat split; reflexivity.
Qed.

Lemma other_messages_skipped_witness :
  let t := run [Rx (Recv (MBinary [x01]))] (init (Speaker.started 4)) in
  let t' := step (Rx (Recv MNone)) t in
  receiver t' = RWhile
  /\ engine t' = engine t /\ audio_data t' = audio_data t
  /\ console t' = console t /\ files t' = files t
  /\ t_exit t' = t_exit t /\ closer t' = closer t
  /\ connected (socket t') = true.
Proof.
  cbv zeta.
  refine (@other_messages_skipped MNone
            (run [Rx (Recv (MBinary [x01]))] (init (Speaker.started 4)))
            _ _ _); first [reflexivity | left; reflexivity].
Defined.

End ClientFacts.

(** * More of the code: facts *)

Section SpeakerMoreFacts.
Import Speaker.
Import SpeakerMore.

Ltac open_sys' w :=
  let s := fresh "s" in let d := fresh "d" in let p := fresh "p" in
  destruct w as [s d p ? ?]; destruct s; destruct d; simpl in *.

(** With a frame size that is not positive the test on line 55 never
    fails. *)
Lemma slicing_step (w : Sys) :
  (_chunk (spk w) <= 0)%Z -> _stream (spk w) = Some tt ->
  sink_accepts true (dev w) = true -> slicing (player w) = true ->
  let w' := player_step true w in
  slicing (player w') = true
  /\ _chunk (spk w') = _chunk (spk w) /\ _stream (spk w') = Some tt
  /\ sink_accepts true (dev w') = true
  /\ _queue (spk w') = _queue (spk w)
  /\ printed w' = printed w.
Proof.
  intros Hc Hs Ha Hp. open_sys' w. subst.
  destruct p as [[| | |f| | | |e]|]; try discriminate;
    unfold player_step; cbn.
  - destruct (Z.geb_spec (Z.of_nat (length _buffer0)) _chunk0); [|lia].
    cbn. repeat split; auto.
  - unfold stream_write, sink_write. cbn. rewrite Ha. cbn.
    unfold sink_accepts in *. cbn in *. repeat split; auto.
Qed.

(** X1.  With a frame size of zero or less and a stream that accepts
    writes, a thread that has entered the slicing loop (lines 55-58) never
    leaves it: whatever the number of statements it runs, it is still
    slicing or writing, it has not tested the exit flag again, taken
    another fragment or printed an error. *)
Theorem nonpositive_chunk_never_leaves_slicing (n : nat) (w : Sys) :
  (_chunk (spk w) <= 0)%Z -> _stream (spk w) = Some tt ->
  sink_accepts true (dev w) = true -> slicing (player w) = true ->
  let w' := run (repeat (Player true) n) w in
  slicing (player w') = true
  /\ _queue (spk w') = _queue (spk w)
  /\ printed w' = printed w.
Proof.
  revert w. induction n as [|n IH]; intros w Hc Hs Ha Hp; cbv zeta.
  - cbn. auto.
  - change (run (repeat (Player true) (S n)) w)
      with (run (repeat (Player true) n) (player_step true w)).
    destruct (slicing_step w Hc Hs Ha Hp) as (H1 & H2 & H3 & H4 & H5 & H6).
    destruct (IH (player_step true w)) as (I1 & I2 & I3); auto.
    + rewrite H2. exact Hc.
    + split; [exact I1|]. split; congruence.
Qed.

Lemma nonpositive_chunk_never_leaves_slicing_witness :
  let w := run ([Play [x01; x02]] ++ repeat (Player true) 2) (started 0) in
  let w' := run (repeat (Player true) 1000) w in
  slicing (player w') = true
  /\ _queue (spk w') = _queue (spk w)
  /\ printed w' = printed w.
Proof.
  cbv zeta.
  refine (@nonpositive_chunk_never_leaves_slicing 1000
            (run ([Play [x01; x02]] ++ repeat (Player true) 2) (started 0))
            _ _ _ _); first [reflexivity | vm_compute; discriminate].
Defined.

(** X2.  [main] calls [stop] once more after the receiver's [finally] block
    has already stopped the engine.  On a started engine whose [stop] has
    returned, a further call takes the four statements of the never-started
    case: it makes no call on the stream, joins nothing, and changes nothing
    but the queue, which it replaces with an empty one. *)
Theorem second_stop_is_harmless (c : Z) (sched : list label) :
  stopper (run sched (started c)) = SReturned ->
  let w := run sched (started c) in
  let w' := run (repeat Stop 4) (call_stop w) in
  map stopper (visited (repeat Stop 4) (call_stop w))
  = [SEntry; STestStream; STestThread; SResetQueue; SReturned]
  /\ dev w' = dev w /\ player w' = player w /\ printed w' = printed w
  /\ spk w' = set_queue [] (spk w).
Proof.
  intros Hr. cbv zeta.
  pose proof (run_stop_inv sched (started_stop_inv c)) as Hi.
  remember (run sched (started c)) as w eqn:Ew. clear Ew.
  destruct Hi as [_ He Hf _ _]. rewrite Hr in *. cbn in Hf.
  injection Hf as F1 F2 _ _.
  assert (Hx : _exit (spk w) = true) by (apply He; discriminate).
  open_sys' w. subst. cbn. auto.
Qed.

Lemma second_stop_is_harmless_witness :
  let w := run stop_to_end (started 4) in
  let w' := run (repeat Stop 4) (call_stop w) in
  map stopper (visited (repeat Stop 4) (call_stop w))
  = [SEntry; STestStream; STestThread; SResetQueue; SReturned]
  /\ dev w' = dev w /\ player w' = player w /\ printed w' = printed w
  /\ spk w' = set_queue [] (spk w).
Proof.
  cbv zeta. exact (@second_stop_is_harmless 4 stop_to_end eq_refl).
Defined.

(** A thread that has ended runs no statement: nothing is handed to the
    device any more, whatever is enqueued and whoever calls [stop]. *)
Lemma dead_thread_silent (sched : list label) (w : Sys) :
  finished (player w) = true ->
  player (run sched w) = player w
  /\ attempted (s_log (dev (run sched w))) = attempted (s_log (dev w))
  /\ _buffer (spk (run sched w)) = _buffer (spk w).
Proof.
  revert w. induction sched as [|l sched IH]; intros w Hf; [auto|].
  change (run (l :: sched) w) with (run sched (step l w)).
  assert (H : player (step l w) = player w
              /\ attempted (s_log (dev (step l w))) = attempted (s_log (dev w))
              /\ _buffer (spk (step l w)) = _buffer (spk w)).
  { destruct l as [d|ok|]; cbn [step].
    - auto.
    - destruct (player_step_frame ok w) as (_ & _ & _ & _ & _ & _ & _ & _ & _
                                            & _ & _ & E).
      rewrite E by exact Hf. auto.
    - open_sys' w. unfold stop_step; cbn.
      destruct stopper0; cbn; rewrite ?Hf; cbn;
        repeat match goal with
          | |- context [match ?o with Some _ => _ | None => _ end] =>
              destruct o; cbn
          end; rewrite ?attempted_app; cbn; rewrite ?app_nil_r; auto. }
  destruct H as (H1 & H2 & H3).
  destruct (IH (step l w)) as (I1 & I2 & I3); [congruence|].
  repeat split; congruence.
Qed.

Lemma written_unchanged (sched : list label) (w : Sys) :
  finished (player w) = true ->
  written (s_log (dev (run sched w))) = written (s_log (dev w)).
Proof.
  revert w. induction sched as [|l sched IH]; intros w Hf; [auto|].
  change (run (l :: sched) w) with (run sched (step l w)).
  assert (H : finished (player (step l w)) = true
              /\ written (s_log (dev (step l w))) = written (s_log (dev w))).
  { destruct l as [d|ok|]; cbn [step].
    - auto.
    - destruct (player_step_frame ok w) as (_ & _ & _ & _ & _ & _ & _ & _ & _
                                            & _ & _ & E).
      rewrite E by exact Hf. auto.
    - open_sys' w. unfold stop_step; cbn.
      destruct stopper0; cbn; rewrite ?Hf; cbn;
        repeat match goal with
          | |- context [match ?o with Some _ => _ | None => _ end] =>
              destruct o; cbn
          end; rewrite ?written_app; cbn; rewrite ?app_nil_r; auto. }
  destruct H as (H1 & H2). rewrite IH by exact H1. exact H2.
Qed.

(** X3.  The two writes of [_play] fail differently.  When the stream
    refuses the write of a frame (line 58), the handler on line 63 prints
    the error and the thread is back at the head of its loop.  When the
    stream refuses the write of the idle flush (line 61, inside the
    [except queue.Empty] handler), nothing is printed by that handler, the
    buffer keeps its bytes and the thread has ended: from then on nothing is
    ever handed to the device again, whatever is enqueued afterwards. *)
Theorem flush_error_ends_playback (w : Sys) :
  _stream (spk w) = Some tt ->
  (forall f, player w = Some (PWrite f) ->
     player (step (Player false) w) = Some PWhile
     /\ printed (step (Player false) w) = printed w ++ [SinkError])
  /\ (player w = Some PFlush ->
      let w1 := step (Player false) w in
      player w1 = Some (PCrashed SinkError)
      /\ printed w1 = printed w
      /\ _buffer (spk w1) = _buffer (spk w)
      /\ forall sched,
           player (run sched w1) = Some (PCrashed SinkError)
           /\ attempted (s_log (dev (run sched w1)))
              = attempted (s_log (dev w)) ++ [_buffer (spk w)]
           /\ written (s_log (dev (run sched w1)))
              = written (s_log (dev w))).
Proof.
  intros Hs. split.
  - intros f Hp. open_sys' w. subst.
    unfold player_step, stream_write, sink_write, sink_accepts; cbn.
    rewrite andb_false_r. cbn. auto.
  - intros Hp. cbv zeta.
    assert (H1 : player (step (Player false) w) = Some (PCrashed SinkError)
                 /\ printed (step (Player false) w) = printed w
                 /\ _buffer (spk (step (Player false) w)) = _buffer (spk w)
                 /\ s_log (dev (step (Player false) w))
                    = s_log (dev w) ++ [SinkRefuse (_buffer (spk w))]).
    { open_sys' w. subst. unfold player_step, stream_write, sink_write,
        sink_accepts; cbn. rewrite andb_false_r. cbn. auto. }
    destruct H1 as (P1 & P2 & P3 & P4). repeat split; auto.
    + destruct (dead_thread_silent sched (step (Player false) w)) as (D1 & _).
      { rewrite P1. reflexivity. }
      congruence.
    + destruct (dead_thread_silent sched (step (Player false) w))
        as (_ & D2 & _).
      { rewrite P1. reflexivity. }
      rewrite D2, P4, attempted_app. reflexivity.
    + pose proof (written_unchanged sched (step (Player false) w)) as D.
      rewrite D by (rewrite P1; reflexivity).
      rewrite P4, written_app. cbn. apply app_nil_r.
Qed.

Lemma flush_error_ends_playback_witness :
  let w := run ([Play [x01]] ++ repeat (Player true) 5) (started 4) in
  let w1 := step (Player false) w in
  player w1 = Some (PCrashed SinkError)
  /\ printed w1 = printed w
  /\ _buffer (spk w1) = _buffer (spk w)
  /\ forall sched,
       player (run sched w1) = Some (PCrashed SinkError)
       /\ attempted (s_log (dev (run sched w1)))
          = attempted (s_log (dev w)) ++ [_buffer (spk w)]
       /\ written (s_log (dev (run sched w1))) = written (s_log (dev w)).
Proof.
  cbv zeta.
  exact (proj2 (@flush_error_ends_playback
                  (run ([Play [x01]] ++ repeat (Player true) 5) (started 4))
                  eq_refl) eq_refl).
Defined.

(** While the stream runs and is referenced, a statement of the playback
    thread whose write the device accepts moves bytes from the engine to
    the device and loses none, whether or not the exit flag is set. *)
Lemma player_step_running (w : Sys) :
  _stream (spk w) = Some tt -> s_active (dev w) = true ->
  s_closed (dev w) = false ->
  sink_stream (player_step true w) ++ held (player_step true w)
  = sink_stream w ++ held w.
Proof.
  intros Hs Ha Hc. open_sys' w. subst.
  destruct p as [[| | |f| | | |e]|];
    unfold player_step, sink_stream, held; cbn; rewrite ?app_nil_r;
    try reflexivity.
  - destruct _exit0; reflexivity.
  - destruct _queue0 as [|data rest]; [destruct (truthy _buffer0)|]; cbn;
      rewrite ?app_nil_r, <- ?app_assoc; reflexivity.
  - destruct (Z.geb_spec (Z.of_nat (length _buffer0)) _chunk0); cbn.
    + rewrite slice_split. reflexivity.
    + reflexivity.
  - rewrite written_app, concat_app. cbn.
    rewrite app_nil_r, <- !app_assoc. reflexivity.
  - rewrite written_app, concat_app. cbn.
    rewrite app_nil_r, <- !app_assoc. reflexivity.
Qed.

(** A stream that has been stopped takes nothing more. *)
Lemma step_stopped_stream (l : label) (w : Sys) :
  s_active (dev w) = false ->
  sink_stream (step l w) = sink_stream w /\ s_active (dev (step l w)) = false.
Proof.
  intros Ha. open_sys' w. subst. destruct l as [d|ok|]; cbn [step].
  - auto.
  - unfold player_step, sink_stream, stream_write, sink_write, sink_accepts;
      cbn.
    destruct p as [[| | |f| | | |e]|]; cbn; auto.
    + destruct _exit0; auto.
    + destruct _queue0; [destruct (truthy _buffer0)|]; auto.
    + destruct (Z.of_nat (length _buffer0) >=? _chunk0)%Z; auto.
    + destruct _stream0; cbn; rewrite ?written_app; cbn;
        rewrite ?app_nil_r; auto.
    + destruct _stream0; cbn; rewrite ?written_app; cbn;
        rewrite ?app_nil_r; auto.
  - unfold stop_step, sink_stream; cbn.
    destruct stopper0; cbn;
      repeat match goal with
        | |- context [match ?o with Some _ => _ | None => _ end] =>
            destruct o; cbn
        | |- context [if ?b then _ else _] => destruct b; cbn
        end; rewrite ?written_app; cbn; rewrite ?app_nil_r; auto.
Qed.

Lemma step_prefix_inv (l : label) (w : Sys) (total : bytes) :
  stop_inv w -> faultless_label l = true -> prefix_inv w total ->
  prefix_inv (step l w) (total ++ concat (enqueued [l])).
Proof.
  intros Hi Hl Hp. unfold prefix_inv in *.
  destruct (s_active (dev w)) eqn:Ha.
  - pose proof (si_effects Hi) as He.
    assert (Hs : _stream (spk w) = Some tt /\ s_closed (dev w) = false).
    { destruct (stopper w); cbn in He; injection He as E1 E2 E3 E4;
        split; congruence. }
    destruct Hs as [Hs Hc].
    destruct l as [d|ok|]; cbn [step].
    + replace (s_active (dev (play d w))) with true
        by (symmetry; exact Ha).
      rewrite <- Hp. unfold sink_stream, held, play, with_spk; cbn.
      rewrite concat_app. cbn. rewrite !app_nil_r, <- !app_assoc.
      reflexivity.
    + cbn in Hl. subst ok.
      destruct (player_step_frame true w)
        as (_ & _ & _ & _ & _ & _ & E7 & _).
      rewrite E7, Ha. cbn [enqueued concat]. rewrite app_nil_r.
      rewrite player_step_running; assumption.
    + cbn [enqueued concat]. rewrite app_nil_r.
      open_sys' w. subst. unfold stop_step, sink_stream, held in *; cbn in *.
      destruct stopper0; cbn in *; try discriminate; try reflexivity.
      rewrite written_app. cbn [written]. rewrite app_nil_r.
      eexists. reflexivity.
  - destruct (step_stopped_stream l w Ha) as [E1 E2]. rewrite E1, E2.
    destruct Hp as [rest Hp]. exists (rest ++ concat (enqueued [l])).
    rewrite app_assoc, Hp. reflexivity.
Qed.

Lemma run_prefix_inv (sched : list label) (w : Sys) (total : bytes) :
  stop_inv w -> faultless sched = true -> prefix_inv w total ->
  prefix_inv (run sched w) (total ++ concat (enqueued sched)).
Proof.
  revert w total. induction sched as [|l sched IH]; intros w total Hi Hs Hp.
  - cbn. rewrite app_nil_r. exact Hp.
  - cbn in Hs. apply andb_true_iff in Hs. destruct Hs as [Hl Hs].
    change (run (l :: sched) w) with (run sched (step l w)).
    change (l :: sched) with ([l] ++ sched).
    rewrite enqueued_app, concat_app, app_assoc.
    apply IH; [apply step_stop_inv, Hi | exact Hs |].
    apply step_prefix_inv; assumption.
Qed.

(** X4.  Whether or not [stop] is called, and at whatever moment: when the
    device itself refuses no write, the byte stream it has accepted is a
    prefix of the concatenation of the enqueued fragments; a hard stop
    truncates the stream, it never reorders or repeats bytes.  While the
    stream is still running the rest is exactly what the engine holds. *)
Theorem hard_stop_truncates (c : Z) (sched : list label) :
  faultless sched = true ->
  let w := run sched (started c) in
  (exists rest, sink_stream w ++ rest = concat (enqueued sched))
  /\ (s_active (dev w) = true ->
      sink_stream w ++ held w = concat (enqueued sched)).
Proof.
  intros Hs. cbv zeta.
  pose proof (@run_prefix_inv sched (started c) [] (started_stop_inv c) Hs
                eq_refl) as H.
  cbn [app] in H. unfold prefix_inv in H.
  destruct (s_active (dev (run sched (started c)))).
  - split; [eexists; exact H | intros _; exact H].
  - split; [exact H | discriminate].
Qed.

Lemma hard_stop_truncates_witness :
  let sched := [Play [x01; x02; x03; x04; x05; x06]]
               ++ repeat (Player true) 4 ++ stop_to_end in
  exists rest,
    sink_stream (run sched (started 4)) ++ rest = concat (enqueued sched).
Proof.
  cbv zeta.
  exact (proj1 (@hard_stop_truncates 4
                  ([Play [x01; x02; x03; x04; x05; x06]]
                     ++ repeat (Player true) 4 ++ stop_to_end) eq_refl)).
Defined.

Lemma prestart_normal (c : Z) (frags : list bytes) :
  Normal c (start true (run (map Play frags) (new c)))
  /\ sink_stream (start true (run (map Play frags) (new c))) = []
  /\ held (start true (run (map Play frags) (new c))) = concat frags.
Proof.
  rewrite run_plays. split; [|split].
  - split; cbn; auto. exists PWhile. split; reflexivity.
  - reflexivity.
  - reflexivity.
Qed.

(** X5.  [start] does not touch the queue: fragments passed to [play]
    before [start] are played like the ones that come after, in front of
    them.  In normal operation the device's stream followed by what the
    engine holds is the early fragments followed by the later ones. *)
Theorem early_fragments_kept (c : Z) (frags : list bytes)
        (sched : list label) :
  nominal sched = true ->
  let w := run sched (start true (run (map Play frags) (new c))) in
  sink_stream w ++ held w = concat frags ++ concat (enqueued sched).
Proof.
  intros Hs. cbv zeta.
  destruct (prestart_normal c frags) as (Hn & H1 & H2).
  rewrite (run_conserve sched Hn Hs), H1, H2. reflexivity.
Qed.

Lemma early_fragments_kept_witness :
  let w := run ([Play [x03]] ++ repeat (Player true) 9)
             (start true (run (map Play [[x01]; [x02]]) (new 2))) in
  sink_stream w ++ held w = [x01; x02; x03].
Proof.
  cbv zeta.
  exact (@early_fragments_kept 2 [[x01]; [x02]]
           ([Play [x03]] ++ repeat (Player true) 9) eq_refl).
Defined.

End SpeakerMoreFacts.

Section ClientMoreFacts.
Import TTSClient.
Import ClientMore.

Ltac open_state' t :=
  destruct t as [eng k ex rp ad con fl cl]; destruct k as [conn klog];
  simpl in *.







Lemma wire_app (l1 l2 : list sock_event) :
  wire (l1 ++ l2) = wire l1 ++ wire l2.
Proof.
  induction l1 as [|e l1 IH]; simpl; [reflexivity|].
  destruct e; simpl; rewrite ?IH; reflexivity.
Qed.

Lemma step_wire (l : label) (t : State) :
  wire (sock_log (socket t)) = wire_of (closer t) ->
  wire (sock_log (socket (step l t))) = wire_of (closer (step l t)).
Proof.
  intros H. destruct l as [r| |ok].
  - rewrite step_closer by discriminate. rewrite <- H. cbn [step].
    open_state' t. unfold receiver_step; cbn.
    destruct rp; cbn; auto.
    + destruct ex; auto.
    + destruct conn; cbn; [destruct r as [[|s|b|]|]|]; cbn;
        rewrite wire_app; cbn; apply app_nil_r.
    + destruct (Speaker.stopper eng); reflexivity.
  - cbn [step]. open_state' t. unfold close_step; cbn.
    destruct cl; cbn in *; auto.
    + unfold send_json; cbn. destruct conn; cbn; auto.
      rewrite wire_app, H. reflexivity.
    + rewrite wire_app, H. reflexivity.
    + destruct rp; cbn; auto.
  - destruct t; exact H.
Qed.

(** X7.  Whatever the schedule, the threads of the client put on the wire
    only what [close] puts there, once and in this order: the text frame of
    the Close message, then the close of the connection.  The receiver never
    sends; a [close] that raises has sent nothing and has not closed the
    connection. *)
Theorem close_wire_protocol (e : Speaker.Sys) (sched : list label) :
  wire (sock_log (socket (run sched (init e))))
  = wire_of (closer (run sched (init e))).
Proof.
  generalize (eq_refl : wire (sock_log (socket (init e)))
                        = wire_of (closer (init e))).
  generalize (init e). induction sched as [|l sched IH]; intros t H.
  - exact H.
  - apply IH, step_wire, H.
Qed.

(** A connection that is gone makes [close] raise at its [send]. *)
Lemma lost_connection_step (l : label) (t : State) :
  connected (socket t) = false ->
  (closer t = CEntry \/ closer t = CSend
   \/ closer t = CRaised ConnectionClosed) ->
  closer (step l t) = CEntry \/ closer (step l t) = CSend
  \/ closer (step l t) = CRaised ConnectionClosed.
Proof.
  intros Hc H. destruct l as [r| |ok].
  - rewrite step_closer by discriminate. exact H.
  - cbn [step]. open_state' t. subst. unfold close_step; cbn.
    destruct H as [H|[H|H]]; subst; cbn; auto.
  - destruct t; exact H.
Qed.

(** X8.  When the connection is already gone (a [recv] has raised) and
    [close] is then called, [close] sets the exit flag and raises
    [ConnectionClosed] at its [send]: it never reaches the close of the
    socket nor the [join], whatever the other threads do in between, and it
    puts nothing on the wire. *)
Theorem close_after_failure_raises (t : State) :
  connected (socket t) = false -> closer t = CEntry ->
  (let t' := run [Closer; Closer] t in
   closer t' = CRaised ConnectionClosed /\ t_exit t' = true
   /\ socket t' = socket t /\ receiver t' = receiver t)
  /\ (forall sched,
       closer (run sched t) = CEntry \/ closer (run sched t) = CSend
       \/ closer (run sched t) = CRaised ConnectionClosed).
Proof.
  intros Hc He. split.
  - open_state' t. subst. cbn. auto.
  - intros sched.
    assert (H : closer t = CEntry \/ closer t = CSend
                \/ closer t = CRaised ConnectionClosed) by auto.
    clear He. revert t Hc H.
    induction sched as [|l sched IH]; intros t Hc H; [exact H|].
    change (run (l :: sched) t) with (run sched (step l t)).
    apply IH; [apply step_disconnected, Hc|].
    apply lost_connection_step; assumption.
Qed.

Lemma close_after_failure_raises_witness :
  let t := run [Rx (Recv MNone); Rx RecvRaise] (init (Speaker.started 4)) in
  closer (run [Closer; Closer] t) = CRaised ConnectionClosed
  /\ t_exit (run [Closer; Closer] t) = true
  /\ socket (run [Closer; Closer] t) = socket t
  /\ receiver (run [Closer; Closer] t) = receiver t.
Proof.
  cbv zeta.
  exact (proj1 (@close_after_failure_raises
                  (run [Rx (Recv MNone); Rx RecvRaise]
                     (init (Speaker.started 4)))
                  eq_refl eq_refl)).
Defined.

(** X9.  Once [close] has closed the connection (it waits in its [join] or
    has returned), in every schedule, [speak] and [flush] raise to their
    caller and send nothing. *)
Theorem no_command_after_close (c : Z) (sched : list label)
        (text : Json.pyval) :
  (closer (run sched (init (Speaker.started c))) = CJoin
   \/ closer (run sched (init (Speaker.started c))) = CReturned) ->
  let t := run sched (init (Speaker.started c)) in
  (exists e, speak text t = (Raised e, t))
  /\ flush t = (Raised ConnectionClosed, t).
Proof.
  intros Hcl. cbv zeta.
  destruct (session_invariants c sched) as (_ & Hc & _).
  remember (run sched (init (Speaker.started c))) as t eqn:Et. clear Et.
  assert (Hd : connected (socket t) = false).
  { unfold close_inv in Hc. destruct Hcl as [H|H]; rewrite H in Hc; tauto. }
  split.
  - unfold speak, send_json. destruct (Json.dumps (speak_message text)).
    + rewrite Hd. eauto.
    + eauto.
  - unfold flush, send_json. cbn. rewrite Hd. reflexivity.
Qed.

Lemma no_command_after_close_witness :
  let t := run (repeat Closer 3) (init (Speaker.started 4)) in
  (exists e, speak (Json.PyStr "Hello") t = (Raised e, t))
  /\ flush t = (Raised ConnectionClosed, t).
Proof.
  cbv zeta.
  exact (@no_command_after_close 4 (repeat Closer 3) (Json.PyStr "Hello")
           (or_introl eq_refl)).
Defined.

Lemma texts_app (l1 l2 : list sock_event) :
  texts (l1 ++ l2) = texts l1 ++ texts l2.
Proof.
  induction l1 as [|e l1 IH]; simpl; [reflexivity|].
  destruct e as [s| |[|s|b|]|]; simpl; rewrite ?IH; reflexivity.
Qed.

Lemma recv_raised_app (l1 l2 : list sock_event) :
  recv_raised (l1 ++ l2) = recv_raised l1 || recv_raised l2.
Proof.
  induction l1 as [|e l1 IH]; simpl; [reflexivity|].
  destruct e; simpl; rewrite ?IH; reflexivity.
Qed.

Lemma raised_count_app (l1 l2 : list sock_event) :
  raised_count (l1 ++ l2) = raised_count l1 + raised_count l2.
Proof.
  induction l1 as [|e l1 IH]; simpl; [reflexivity|].
  destruct e; simpl; rewrite ?IH; reflexivity.
Qed.

Lemma step_console_inv (l : label) (t : State) :
  console_inv t -> console_inv (step l t).
Proof.
  unfold console_inv, console_of. intros (Hc & Hl & Hn).
  destruct l as [r| |ok]; cbn [step].
  - open_state' t. unfold receiver_step; cbn.
    destruct rp; cbn in *.
    + destruct ex; cbn; repeat split; auto; try discriminate;
        apply Hl; reflexivity.
    + destruct (Hl eq_refl) as [Hr Hz]. rewrite Hr in Hc. cbn in Hc.
      rewrite app_nil_r in Hc.
      destruct conn; cbn; [destruct r as [[|s|b|]|]|]; cbn;
        rewrite ?texts_app, ?recv_raised_app, ?raised_count_app, ?Hr, ?Hz,
          ?map_app; cbn; rewrite ?app_nil_r; subst con;
        repeat split; auto; try discriminate.
    + destruct (Speaker.stopper eng); cbn; repeat split; auto;
        discriminate.
    + rewrite Hc, app_nil_r. rewrite <- app_assoc.
      repeat split; auto; discriminate.
    + auto.
  - open_state' t. unfold close_step; cbn.
    destruct cl; cbn; auto.
    + unfold send_json. cbn. destruct conn; cbn; auto.
      rewrite texts_app, recv_raised_app, raised_count_app. cbn.
      rewrite app_nil_r, orb_false_r, Nat.add_0_r. auto.
    + rewrite texts_app, recv_raised_app, raised_count_app. cbn.
      rewrite app_nil_r, orb_false_r, Nat.add_0_r. auto.
    + destruct rp; cbn; auto.
  - destruct t; cbn in *. auto.
Qed.

Lemma run_console_inv (sched : list label) (t : State) :
  console_inv t -> console_inv (run sched t).
Proof.
  revert t. induction sched as [|l sched IH]; intros t H; [exact H|].
  apply IH, step_console_inv, H.
Qed.

(** X18.  What the receiver prints, in every schedule: the text messages of
    the server, each once and in arrival order; then, if a [recv] raised,
    the error line, once; then, when the thread has ended, the line of
    [save_to_wav].  Nothing is printed for a binary fragment, for [None] or
    for a message of another type, and [recv] raises at most once. *)
Theorem console_follows_messages (e : Speaker.Sys) (sched : list label) :
  let t := run sched (init e) in
  console t
  = map Printed (texts (sock_log (socket t)))
    ++ (if recv_raised (sock_log (socket t)) then [ReceiverError] else [])
    ++ (match receiver t with
        | RDone => [AudioSaved "output.wav"%string]
        | _ => []
        end)
  /\ raised_count (sock_log (socket t)) <= 1.
Proof.
  cbv zeta.
  destruct (@run_console_inv sched (init e)) as (Hc & _ & Hn).
  - unfold console_inv. cbn. repeat split; auto.
  - split; [exact Hc | exact Hn].
Qed.

End ClientMoreFacts.

Section DeviceFacts.
Import Devices.

Lemma scan_spec (ds : list DeviceInfo) (n i : nat) :
  i + n <= length ds ->
  exists l,
    scan ds i n = Some l
    /\ (forall j nm,
          In (j, nm) l <->
          (Z.of_nat i <= j < Z.of_nat (i + n))%Z
          /\ exists d, nth_error ds (Z.to_nat j) = Some d
                       /\ (0 < maxOutputChannels d)%Z /\ name d = nm)
    /\ Forall (fun e => (Z.of_nat i <= fst e)%Z) l
    /\ Sorted.StronglySorted (fun a b => (fst a < fst b)%Z) l.
Proof.
  revert i. induction n as [|n IH]; intros i Hb.
  - exists []. split; [reflexivity|]. split; [|split; constructor].
    intros j nm. split; [intros [] | intros [H _]; lia].
  - cbn [scan].
    destruct (nth_error ds i) as [d|] eqn:Ed;
      [|apply nth_error_None in Ed; lia].
    destruct (IH (S i)) as (l & Hl & Hin & Hlo & Hs); [lia|].
    rewrite Hl.
    assert (Hlo' : Forall (fun e => (Z.of_nat i <= fst e)%Z) l).
    { eapply Forall_impl; [|exact Hlo]. cbn. intros; lia. }
    assert (Hgt : Forall (fun e => (Z.of_nat i < fst e)%Z) l).
    { eapply Forall_impl; [|exact Hlo]. cbn. intros; lia. }
    destruct (Z.gtb_spec (maxOutputChannels d) 0) as [Hpos|Hnp].
    + exists ((Z.of_nat i, name d) :: l). split; [reflexivity|].
      split; [|split].
      * intros j nm. cbn [In]. rewrite Hin. split.
        -- intros [E|[Hr Hd]].
           ++ injection E as <- <-. split; [lia|].
              exists d. rewrite Nat2Z.id. repeat split; auto; lia.
           ++ split; [lia | exact Hd].
        -- intros [Hr (d' & Hd' & Hp' & Hn')].
           destruct (Z.eq_dec j (Z.of_nat i)) as [->|Hne].
           ++ left. rewrite Nat2Z.id in Hd'. congruence.
           ++ right. split; [lia|]. exists d'. auto.
      * constructor; [cbn; lia | exact Hlo'].
      * constructor; [exact Hs|].
        eapply Forall_impl; [|exact Hgt]. cbn. auto.
    + exists l. split; [reflexivity|]. split; [|split; assumption].
      intros j nm. rewrite Hin. split.
      * intros [Hr Hd]. split; [lia | exact Hd].
      * intros [Hr (d' & Hd' & Hp' & Hn')].
        destruct (Z.eq_dec j (Z.of_nat i)) as [->|Hne].
        -- rewrite Nat2Z.id in Hd'. assert (d' = d) by congruence. subst.
           exfalso. lia.
        -- split; [lia|]. exists d'. auto.
Qed.

Lemma scan_raises (ds : list DeviceInfo) (n i : nat) :
  i <= length ds -> length ds < i + n -> scan ds i n = None.
Proof.
  revert i. induction n as [|n IH]; intros i Hi Hb; [lia|].
  cbn [scan]. destruct (nth_error ds i) as [d|] eqn:Ed; [|reflexivity].
  assert (i < length ds) by (apply nth_error_Some; congruence).
  rewrite IH; [reflexivity| |]; lia.
Qed.

(** X10.  [list_audio_devices] returns exactly the devices of host API 0
    that have output channels, each with its index and name, in increasing
    order of index, and then terminates pyaudio.  When the device count
    says more than there are devices to describe, the lookup raises, nothing
    is returned and [p.terminate()] is not reached. *)
Theorem list_audio_devices_spec (h : HostApi) :
  ((deviceCount h <= Z.of_nat (length (infos h)))%Z ->
   exists l,
     list_audio_devices h = (Some l, true)
     /\ (forall j nm,
           In (j, nm) l <->
           (0 <= j < deviceCount h)%Z
           /\ exists d, nth_error (infos h) (Z.to_nat j) = Some d
                        /\ (0 < maxOutputChannels d)%Z /\ name d = nm)
     /\ Sorted.StronglySorted (fun a b => (fst a < fst b)%Z) l)
  /\ ((Z.of_nat (length (infos h)) < deviceCount h)%Z ->
      list_audio_devices h = (None, false)).
Proof.
  split.
  - intros Hb. unfold list_audio_devices.
    destruct (@scan_spec (infos h) (Z.to_nat (deviceCount h)) 0)
      as (l & Hl & Hin & _ & Hs); [lia|].
    rewrite Hl. exists l. split; [reflexivity|]. split; [|exact Hs].
    intros j nm. rewrite Hin. cbn [Nat.add Z.of_nat].
    split; intros [Hr Hd]; (split; [lia | exact Hd]).
  - intros Hb. unfold list_audio_devices.
    rewrite scan_raises; [reflexivity| |]; lia.
Qed.

Lemma list_audio_devices_spec_witness :
  (exists l,
     list_audio_devices
       (mkHost 3 [mkDevice 2 "out"; mkDevice 0 "mic"; mkDevice 1 "hdmi"])
     = (Some l, true))
  /\ list_audio_devices (mkHost 2 [mkDevice 2 "out"]) = (None, false).
Proof.
  split.
  - destruct (proj1 (list_audio_devices_spec
       (mkHost 3 [mkDevice 2 "out"; mkDevice 0 "mic"; mkDevice 1 "hdmi"])))
      as (l & H & _); [simpl; lia|].
    exists l. exact H.
  - apply (proj2 (list_audio_devices_spec (mkHost 2 [mkDevice 2 "out"]))).
    simpl. lia.
Defined.

End DeviceFacts.

Section ChatbotFacts.
Import String Ascii.
Import TTSClient.
Import Chatbot.
Local Open Scope string_scope.

Lemma split_not_nil (m : mode) (s : string) : split m s <> [].
Proof.
  revert m. induction s as [|c s IH]; intros m; cbn; [discriminate|].
  destruct m; try destruct (is_space c); try discriminate;
    try apply IH;
    (destruct (split (after c) s) eqn:E; [elim (IH _ E) | discriminate]).
Qed.

Lemma weave_push (c : ascii) (ps xs : list string) :
  ps <> [] -> weave (push c ps) xs = String c (weave ps xs).
Proof.
  destruct ps as [|p ps]; [congruence|]. intros _.
  destruct xs; reflexivity.
Qed.

Lemma seps_insep_not_nil (s : string) : seps InSep s <> [].
Proof.
  induction s as [|c s IH]; cbn; [discriminate|].
  destruct (is_space c); [|discriminate].
  destruct (seps InSep s); cbn; discriminate.
Qed.

Lemma rebuild_plain (m : mode) (s : string) :
  m <> InSep -> rebuild m s = weave (split m s) (seps m s).
Proof.
  destruct m; intros H; [reflexivity | reflexivity | elim H; reflexivity].
Qed.

Lemma after_not_insep (c : ascii) : after c <> InSep.
Proof. unfold after. destruct (is_end c); discriminate. Qed.

Lemma rebuild_ok (m : mode) (s : string) : rebuild m s = s.
Proof.
  revert m. induction s as [|c s IH]; intros m.
  - destruct m; reflexivity.
  - assert (Hpush : weave (push c (split (after c) s)) (seps (after c) s)
                    = String c s).
    { rewrite weave_push by apply split_not_nil.
      rewrite <- rebuild_plain by apply after_not_insep. rewrite IH.
      reflexivity. }
    assert (Hsep : forall P, match push c (seps InSep s) with
                             | x :: xs => x ++ weave P xs
                             | [] => weave P []
                             end
                             = String c (match seps InSep s with
                                         | x :: xs => x ++ weave P xs
                                         | [] => weave P []
                                         end)).
    { intros P. destruct (seps InSep s) as [|x xs] eqn:E;
        [elim (seps_insep_not_nil s E) | reflexivity]. }
    pose proof (IH InSep) as Hin. unfold rebuild in Hin.
    destruct m; unfold rebuild; cbn [split seps].
    + exact Hpush.
    + destruct (is_space c); [|exact Hpush].
      destruct (seps InSep s) as [|x xs] eqn:E;
        [elim (seps_insep_not_nil s E)|].
      cbn. rewrite Hin. reflexivity.
    + destruct (is_space c).
      * rewrite Hsep, Hin. reflexivity.
      * cbn [append]. exact Hpush.
Qed.

Lemma push_length (c : ascii) (l : list string) :
  l <> [] -> List.length (push c l) = List.length l.
Proof. destruct l; [congruence | reflexivity]. Qed.

Lemma split_count (m : mode) (s : string) :
  List.length (split m s)
  = List.length (seps m s) + match m with InSep => 0 | _ => 1 end.
Proof.
  revert m. induction s as [|c s IH]; intros m.
  - destruct m; reflexivity.
  - assert (Hp : List.length (push c (split (after c) s))
                 = List.length (seps (after c) s) + 1).
    { rewrite push_length by apply split_not_nil. rewrite IH.
      unfold after. destruct (is_end c); reflexivity. }
    destruct m; cbn [split seps].
    + exact Hp.
    + destruct (is_space c); [|exact Hp].
      cbn [List.length]. rewrite push_length by apply seps_insep_not_nil.
      rewrite IH. lia.
    + destruct (is_space c).
      * rewrite push_length by apply seps_insep_not_nil. apply IH.
      * cbn [List.length]. rewrite Hp. lia.
Qed.

Lemma seps_are_separators (m : mode) (s : string) : sep_inv m (seps m s).
Proof.
  revert m. induction s as [|c s IH]; intros m.
  - destruct m; cbn; auto.
  - assert (Hp : Forall (fun y => is_separator y = true) (seps (after c) s)).
    { specialize (IH (after c)). unfold after in *.
      destruct (is_end c); exact IH. }
    assert (Hs : is_space c = true ->
                 Forall (fun y => is_separator y = true)
                        (push c (seps InSep s))).
    { intros Hc. specialize (IH InSep). cbn in IH.
      destruct (seps InSep s) as [|x xs]; [contradiction|].
      destruct IH as [Hx Hxs]. cbn. constructor; [|exact Hxs].
      unfold is_separator. cbn. rewrite Hc, Hx. reflexivity. }
    destruct m; cbn [split seps sep_inv].
    + exact Hp.
    + destruct (is_space c) eqn:Ec; [apply Hs; reflexivity | exact Hp].
    + destruct (is_space c) eqn:Ec.
      * specialize (Hs eq_refl).
        destruct (push c (seps InSep s)) as [|x xs] eqn:E.
        -- destruct (seps InSep s); discriminate.
        -- inversion Hs as [|? ? Hx Hxs]; subst. split; [|exact Hxs].
           unfold is_separator in Hx. apply andb_true_iff in Hx. tauto.
      * split; [reflexivity | exact Hp].
Qed.

Lemma last_char_push (c : ascii) (p : string) :
  last_char (String c p)
  = match last_char p with Some d => Some d | None => Some c end.
Proof.
  destruct p as [|a p]; [reflexivity|].
  change (last_char (String c (String a p))) with (last_char (String a p)).
  destruct (last_char (String a p)) eqn:E; [reflexivity|].
  exfalso. revert a E. induction p as [|b p IH]; intros a E.
  - discriminate.
  - apply (IH b). exact E.
Qed.

Lemma split_ends (m : mode) (s : string) : end_inv m (split m s).
Proof.
  revert m. induction s as [|c s IH]; intros m.
  - destruct m; exact I.
  - assert (Hp : forall m', end_inv m' (push c (split (after c) s))).
    { intros m'. specialize (IH (after c)).
      destruct (split (after c) s) as [|p [|q r]] eqn:E; cbn; auto.
      cbn in IH. destruct IH as [Hc Hr]. split; [left|exact Hr].
      unfold ends_sentence. rewrite last_char_push.
      destruct Hc as [Hc|[Hc Ha]].
      - unfold ends_sentence in Hc. destruct (last_char p); [exact Hc|].
        discriminate.
      - subst p. cbn. unfold after in Ha.
        destruct (is_end c); [reflexivity | discriminate]. }
    assert (Hs : but_last_end (split InSep s) = true).
    { specialize (IH InSep).
      destruct (split InSep s) as [|p [|q r]]; auto.
      cbn in IH. destruct IH as [[Hc|[_ Hc]] Hr]; [|discriminate].
      cbn [but_last_end]. rewrite Hc. exact Hr. }
    destruct m; cbn [split].
    + apply Hp.
    + destruct (is_space c); [|apply Hp].
      destruct (split InSep s) as [|p r] eqn:E; [exact I|].
      cbn. split; [right; auto | exact Hs].
    + destruct (is_space c); [apply IH | apply Hp].
Qed.

Lemma split_starts (m : mode) (s : string) :
  Forall (fun p => starts_with_space p = false) (tl (split m s))
  /\ (m = InSep -> starts_with_space (hd EmptyString (split m s)) = false).
Proof.
  revert m. induction s as [|c s IH]; intros m.
  - destruct m; cbn; auto.
  - assert (Hp : Forall (fun p => starts_with_space p = false)
                        (tl (push c (split (after c) s)))).
    { destruct (IH (after c)) as [H _].
      destruct (split (after c) s); [constructor | exact H]. }
    assert (Hh : hd EmptyString (push c (split (after c) s))
                 = String c (hd EmptyString (split (after c) s))).
    { destruct (split (after c) s); reflexivity. }
    assert (Hs : Forall (fun p => starts_with_space p = false)
                        (split InSep s)).
    { destruct (IH InSep) as [H1 H2].
      destruct (split InSep s) as [|p r]; [constructor|].
      constructor; [apply H2; reflexivity | exact H1]. }
    destruct m; cbn [split].
    + split; [exact Hp | discriminate].
    + destruct (is_space c); split; try discriminate; [exact Hs | exact Hp].
    + destruct (is_space c) eqn:Ec; [apply IH|].
      split; [exact Hp|]. intros _. rewrite Hh. cbn. exact Ec.
Qed.

Lemma split_no_end (s : string) : has_end s = false -> split Plain s = [s].
Proof.
  induction s as [|c s IH]; intros H; [reflexivity|].
  cbn in H. apply orb_false_iff in H. destruct H as [Hc Hs].
  cbn [split]. unfold after. rewrite Hc, IH by exact Hs. reflexivity.
Qed.

(** X11.  The split of line 48.  The pieces, with the separators the split
    removed put back between them, are the text; there is one separator
    less than there are pieces, and every separator is a non-empty run of
    whitespace.  Every piece but the last ends in [.], [!] or [?]; no piece
    but the first starts with whitespace; and a text without [.], [!] or
    [?] is one piece, itself. *)
Theorem sentences_spec (text : string) :
  weave (sentences text) (seps Plain text) = text
  /\ List.length (sentences text) = List.length (seps Plain text) + 1
  /\ Forall (fun x => is_separator x = true) (seps Plain text)
  /\ but_last_end (sentences text) = true
  /\ Forall (fun p => starts_with_space p = false) (tl (sentences text))
  /\ (has_end text = false -> sentences text = [text]).
Proof.
  unfold sentences. split; [|split; [|split; [|split; [|split]]]].
  - exact (rebuild_ok Plain text).
  - apply split_count.
  - exact (seps_are_separators Plain text).
  - pose proof (split_ends Plain text) as H.
    destruct (split Plain text) as [|p [|q r]]; auto.
    cbn in H. destruct H as [[Hc|[_ Hc]] Hr]; [|discriminate].
    cbn [but_last_end]. rewrite Hc. exact Hr.
  - apply split_starts.
  - apply split_no_end.
Qed.







Lemma sent_app (l1 l2 : list sock_event) :
  sent (l1 ++ l2)%list = (sent l1 ++ sent l2)%list.
Proof.
  induction l1 as [|e l1 IH]; simpl; [reflexivity|].
  destruct e; simpl; rewrite ?IH; reflexivity.
Qed.

Lemma dumps_speak (s : string) :
  Json.dumps (speak_message (Json.PyStr s)) = Some (speak_frame s).
Proof.
  unfold Json.dumps, speak_message, speak_frame. cbn.
  rewrite !append_empty_r. reflexivity.
Qed.

Lemma speak_on_open (s : string) (t : State) :
  connected (socket t) = true ->
  speak (Json.PyStr s) t
  = (Returned, with_socket (log_event (SockSend (speak_frame s)) (socket t)) t).
Proof.
  intros H. unfold speak, send_json. rewrite dumps_speak, H. reflexivity.
Qed.

Lemma speak_on_closed (s : string) (t : State) :
  connected (socket t) = false ->
  speak (Json.PyStr s) t = (Raised ConnectionClosed, t).
Proof.
  intros H. unfold speak, send_json. rewrite dumps_speak, H. reflexivity.
Qed.

Lemma flush_on_open (t : State) :
  connected (socket t) = true ->
  flush t
  = (Returned, with_socket (log_event (SockSend flush_frame) (socket t)) t).
Proof.
  intros H. unfold flush, send_json.
  change (Json.dumps flush_message) with (Some flush_frame).
  rewrite H. reflexivity.
Qed.

Lemma speak_each_open (ss : list string) (c : Chat) :
  connected (socket (session c)) = true ->
  exists c',
    speak_each ss c = (None, c')
    /\ frames_sent c' = (frames_sent c ++ map speak_frame ss)%list
    /\ connected (socket (session c')) = true
    /\ logged c' = logged c
    /\ out c' = (out c ++ map (fun s => (s ++ " ")%string) ss)%list.
Proof.
  revert c. induction ss as [|s ss IH]; intros c Hc.
  - exists c. cbn. rewrite !app_nil_r. auto.
  - cbn [speak_each]. cbn [session echo].
    rewrite (speak_on_open s (session c) Hc).
    destruct (IH (with_session
                    (with_socket (log_event (SockSend (speak_frame s))
                                    (socket (session c))) (session c))
                    (echo (s ++ " ") c)))
      as (c' & E & Hf & Hc' & Hl & Ho).
    { destruct c as [[? [? ?] ? ? ? ? ? ?] ? ?]. exact Hc. }
    exists c'. rewrite E. split; [reflexivity|].
    split; [|split; [exact Hc'|split]].
    + rewrite Hf. unfold frames_sent. destruct c as [[? [? ?] ? ? ? ? ? ?] ? ?].
      cbn. rewrite sent_app. cbn. rewrite <- app_assoc. reflexivity.
    + rewrite Hl. reflexivity.
    + rewrite Ho. cbn. rewrite <- app_assoc. reflexivity.
Qed.

(** X13.  On an open connection, for a reply that has text, [generate]
    sends one Speak frame per sentence, in order, then one Flush frame, and
    nothing else; it logs no error and returns the text, stripped. *)
Theorem generate_speaks_sentences (r : reply) (text : string) (c : Chat) :
  connected (socket (session c)) = true -> reply_text r = inl text ->
  exists c',
    generate r c = (Answer (strip text), c')
    /\ frames_sent c'
       = (frames_sent c ++ map speak_frame (sentences text)
            ++ [flush_frame])%list
    /\ logged c' = logged c
    /\ connected (socket (session c')) = true.
Proof.
  intros Hc Hr. unfold generate. rewrite Hr.
  destruct (speak_each_open (sentences text) c Hc)
    as (c1 & E & Hf & Hc1 & Hl & _).
  rewrite E, (flush_on_open (session c1) Hc1).
  eexists. split; [reflexivity|]. split; [|split].
  - unfold frames_sent in *. destruct c1 as [[? [? ?] ? ? ? ? ? ?] ? ?].
    cbn in *. rewrite sent_app, Hf. cbn. rewrite <- app_assoc. reflexivity.
  - exact Hl.
  - destruct c1 as [[? [? ?] ? ? ? ? ? ?] ? ?]. exact Hc1.
Qed.

Lemma generate_speaks_sentences_witness :
  let c := mkChat (init (Speaker.started 4)) [] [] in
  exists c',
    generate (Response [["Hi. "; "Bye!"]]) c = (Answer "Hi. Bye!", c')
    /\ frames_sent c'
       = [speak_frame "Hi."; speak_frame "Bye!"; flush_frame]
    /\ logged c' = []
    /\ connected (socket (session c')) = true.
Proof.
  cbv zeta.
  exact (@generate_speaks_sentences (Response [["Hi. "; "Bye!"]]) "Hi. Bye!"
           (mkChat (init (Speaker.started 4)) [] []) eq_refl eq_refl).
Defined.

Lemma sentences_head (text : string) :
  exists p ps, sentences text = p :: ps.
Proof.
  unfold sentences. destruct (split Plain text) as [|p ps] eqn:E.
  - elim (split_not_nil _ _ E).
  - eauto.
Qed.

(** X14.  On a connection that is gone the two callers of [speak] differ.
    [generate] raises nothing, whatever the reply: it sends nothing, logs
    one error and returns the apology (the first sentence, if there is a
    text, has been printed already).  [start_conversation] lets the
    exception of its greeting through: it has printed the greeting, sent
    nothing and read no input. *)
Theorem lost_connection_in_chatbot (name : string) (r : reply)
        (turns : list (string * reply)) (c : Chat) :
  connected (socket (session c)) = false ->
  (exists f,
     fst (generate r c) = Apology f
     /\ session (snd (generate r c)) = session c
     /\ logged (snd (generate r c)) = (logged c ++ [f])%list
     /\ (forall text, reply_text r = inl text ->
         f = SendFailed ConnectionClosed
         /\ out (snd (generate r c))
            = (out c
                 ++ [(hd EmptyString (sentences text) ++ " ")%string])%list))
  /\ fst (start_conversation name turns c) = Failed ConnectionClosed
  /\ session (snd (start_conversation name turns c)) = session c
  /\ out (snd (start_conversation name turns c))
     = (out c ++ [(name ++ ": " ++ greeting name)%string])%list.
Proof.
  intros Hc. split.
  - unfold generate. destruct (reply_text r) as [text|f] eqn:Er.
    + destruct (sentences_head text) as (p & ps & E). rewrite E.
      cbn [speak_each]. cbn [session echo].
      rewrite (speak_on_closed p (session c) Hc).
      exists (SendFailed ConnectionClosed).
      destruct c as [t o l]. cbn.
      split; [reflexivity|]. split; [reflexivity|]. split; [reflexivity|].
      intros text0 H0. injection H0 as <-. rewrite E.
      split; reflexivity.
    + exists f. destruct c as [t o l]. cbn.
      split; [reflexivity|]. split; [reflexivity|]. split; [reflexivity|].
      intros text0 H0. discriminate.
  - unfold start_conversation, say. cbn [session echo].
    rewrite (speak_on_closed (greeting name) (session c) Hc).
    destruct c as [t o l]. cbn. auto.
Qed.

Lemma lost_connection_in_chatbot_witness :
  let t := run [Rx (Recv MNone); Rx RecvRaise] (init (Speaker.started 4)) in
  let c := mkChat t [] [] in
  fst (start_conversation "Bot" [("hi", ModelRaises)] c)
  = Failed ConnectionClosed
  /\ session (snd (start_conversation "Bot" [("hi", ModelRaises)] c)) = t
  /\ out (snd (start_conversation "Bot" [("hi", ModelRaises)] c))
     = ["Bot" ++ ": " ++ greeting "Bot"].
Proof.
  cbv zeta.
  exact (proj2 (@lost_connection_in_chatbot "Bot" ModelRaises
                  [("hi", ModelRaises)]
                  (mkChat (run [Rx (Recv MNone); Rx RecvRaise]
                             (init (Speaker.started 4))) [] [])
                  eq_refl)).
Defined.

Lemma say_open (text : string) (c : Chat) :
  connected (socket (session c)) = true ->
  exists c',
    say text c = (Returned, c')
    /\ frames_sent c'
       = (frames_sent c ++ [speak_frame text; flush_frame])%list
    /\ connected (socket (session c')) = true.
Proof.
  intros Hc. unfold say. rewrite (speak_on_open text (session c) Hc).
  rewrite flush_on_open
    by (destruct c as [[? [? ?] ? ? ? ? ? ?] ? ?]; exact Hc).
  eexists. split; [reflexivity|].
  destruct c as [[? [? ?] ? ? ? ? ? ?] ? ?]. unfold frames_sent. cbn in *.
  split; [|exact Hc].
  rewrite !sent_app. cbn. rewrite <- app_assoc. reflexivity.
Qed.

Lemma generate_frames (r : reply) (c : Chat) :
  connected (socket (session c)) = true ->
  frames_sent (snd (generate r c)) = (frames_sent c ++ turn_frames r)%list
  /\ connected (socket (session (snd (generate r c)))) = true.
Proof.
  intros Hc. unfold generate, turn_frames.
  destruct (reply_text r) as [text|f].
  - destruct (speak_each_open (sentences text) c Hc)
      as (c1 & E & Hf & Hc1 & _).
    rewrite E, (flush_on_open (session c1) Hc1).
    unfold frames_sent in *. destruct c1 as [[? [? ?] ? ? ? ? ? ?] ? ?].
    cbn in *. split; [|exact Hc1].
    rewrite sent_app, Hf. cbn. rewrite <- app_assoc. reflexivity.
  - destruct c as [t o l]. unfold frames_sent. cbn.
    rewrite app_nil_r. auto.
Qed.

Lemma converse_open (name : string) (before : list (string * reply))
      (word : string) (r : reply) (rest : list (string * reply)) (c : Chat) :
  connected (socket (session c)) = true ->
  Forall (fun t => is_exit (fst t) = false) before ->
  is_exit word = true ->
  exists c',
    converse name (before ++ (word, r) :: rest)%list c = (SaidGoodbye, c')
    /\ frames_sent c'
       = (frames_sent c ++ flat_map (fun t => turn_frames (snd t)) before
            ++ [speak_frame farewell; flush_frame])%list.
Proof.
  intros Hc Hb Hw. revert c Hc.
  induction Hb as [|[u ru] before Hu Hb IH]; intros c Hc.
  - cbn [app converse flat_map]. rewrite Hw.
    destruct (say_open farewell
                (echo (name ++ ": " ++ farewell) (echo "You: " c)))
      as (c' & E & Hf & _).
    { destruct c; exact Hc. }
    rewrite E. exists c'. split; [reflexivity|]. rewrite Hf.
    destruct c; reflexivity.
  - cbn [app converse flat_map]. cbn [fst] in Hu. rewrite Hu.
    destruct (generate_frames ru (echo (name ++ ": ") (echo "You: " c)))
      as [Hf Hc1].
    { destruct c; exact Hc. }
    destruct (IH _ Hc1) as (c' & E & Hf').
    exists c'. split; [exact E|]. rewrite Hf', Hf. cbn [snd].
    rewrite <- !app_assoc. destruct c; reflexivity.
Qed.

Lemma converse_without_exit (name : string) (turns : list (string * reply))
      (c : Chat) :
  Forall (fun t => is_exit (fst t) = false) turns ->
  fst (converse name turns c) = InputClosed.
Proof.
  intros Hb. revert c. induction Hb as [|[u ru] turns Hu Hb IH]; intros c.
  - reflexivity.
  - cbn [converse]. cbn [fst] in Hu. rewrite Hu. apply IH.
Qed.

(** X15.  A whole conversation on an open connection.  Up to the first
    line of input that is an exit word (whatever its case), the frames sent
    are: the greeting and a Flush; for each line before the exit word, the
    sentences of the reply and a Flush, or nothing when the model gave no
    text; the farewell and a Flush.  The conversation then returns and the
    lines after the exit word are not read.  Without an exit word the loop
    runs until [input] finds the input closed. *)
Theorem conversation_frames (name : string) (c : Chat) :
  connected (socket (session c)) = true ->
  (forall before word r rest,
      Forall (fun t => is_exit (fst t) = false) before ->
      is_exit word = true ->
      exists c',
        start_conversation name (before ++ (word, r) :: rest)%list c
        = (SaidGoodbye, c')
        /\ frames_sent c'
           = (frames_sent c ++ [speak_frame (greeting name); flush_frame]
                ++ flat_map (fun t => turn_frames (snd t)) before
                ++ [speak_frame farewell; flush_frame])%list)
  /\ (forall turns,
        Forall (fun t => is_exit (fst t) = false) turns ->
        fst (start_conversation name turns c) = InputClosed).
Proof.
  intros Hc.
  destruct (say_open (greeting name) (echo (name ++ ": " ++ greeting name) c))
    as (c0 & E0 & Hf0 & Hc0).
  { destruct c; exact Hc. }
  split.
  - intros before word r rest Hb Hw. unfold start_conversation. rewrite E0.
    destruct (@converse_open name before word r rest c0 Hc0 Hb Hw)
      as (c' & E & Hf).
    exists c'. split; [exact E|]. rewrite Hf, Hf0.
    rewrite <- !app_assoc. destruct c; reflexivity.
  - intros turns Hb. unfold start_conversation. rewrite E0.
    apply converse_without_exit, Hb.
Qed.

Lemma conversation_frames_witness :
  let c := mkChat (init (Speaker.started 4)) [] [] in
  exists c',
    start_conversation "Bot"
      [("hi", Response [["Hello. "; "Fine!"]]); ("Bye", ModelRaises);
       ("more", ModelRaises)] c
    = (SaidGoodbye, c')
    /\ frames_sent c'
       = [speak_frame (greeting "Bot"); flush_frame;
          speak_frame "Hello."; speak_frame "Fine!"; flush_frame;
          speak_frame farewell; flush_frame].
Proof.
  cbv zeta.
  exact (proj1 (@conversation_frames "Bot"
                  (mkChat (init (Speaker.started 4)) [] []) eq_refl)
           [("hi", Response [["Hello. "; "Fine!"]])] "Bye" ModelRaises
           [("more", ModelRaises)]
           ltac:(repeat constructor) eq_refl).
Defined.

End ChatbotFacts.

Section JsonFacts.
Import String Ascii.
Import TTSClient.
Import JsonRead.
Local Open Scope string_scope.

Lemma printable_escape_char (c : ascii) :
  all_printable (Json.escape_char c) = true.
Proof.
  destruct c as [[] [] [] [] [] [] [] []]; reflexivity.
Qed.

Lemma all_printable_app (a b : string) :
  all_printable (a ++ b) = all_printable a && all_printable b.
Proof.
  induction a as [|x a IH]; cbn; [reflexivity|].
  rewrite IH, andb_assoc. reflexivity.
Qed.

Lemma printable_escape (s : string) : all_printable (Json.escape s) = true.
Proof.
  induction s as [|c s IH]; [reflexivity|].
  cbn [Json.escape]. rewrite all_printable_app, printable_escape_char, IH.
  reflexivity.
Qed.

(** X16.  What [speak] puts on the wire for a string, whatever its
    characters: the frame is printable ASCII only, and it determines the
    text; a reader of JSON strings gets the text back from the escaped
    text, so two different texts never give the same frame. *)
Theorem speak_frame_faithful (s : string) :
  Json.dumps (speak_message (Json.PyStr s)) = Some (Chatbot.speak_frame s)
  /\ all_printable (Chatbot.speak_frame s) = true
  /\ (forall rest,
        read_string (Json.escape s ++ String Json.quote rest) = Some (s, rest))
  /\ (forall s', Chatbot.speak_frame s = Chatbot.speak_frame s' -> s = s').
Proof.
  split; [apply dumps_speak|]. split; [|split].
  - unfold Chatbot.speak_frame, Json.quoted. cbn.
    rewrite !all_printable_app, printable_escape. reflexivity.
  - intros rest. apply read_escape.
  - intros s' H. unfold Chatbot.speak_frame, Json.quoted in H. cbn in H.
    injection H as H.
    rewrite !append_assoc_string in H. cbn in H.
    apply (f_equal read_string) in H. rewrite !read_escape in H.
    congruence.
Qed.

End JsonFacts.

Section ShutdownFacts.
Import TTSClient.
Import ClientMore.
Import AudioUtils.
Import Main.

Lemma client_run_config (sched : list TTSClient.label) (t : State) :
  Speaker._rate (Speaker.spk (engine (TTSClient.run sched t)))
  = Speaker._rate (Speaker.spk (engine t))
  /\ Speaker._channels (Speaker.spk (engine (TTSClient.run sched t)))
     = Speaker._channels (Speaker.spk (engine t))
  /\ Speaker._chunk (Speaker.spk (engine (TTSClient.run sched t)))
     = Speaker._chunk (Speaker.spk (engine t)).
Proof.
  revert t. induction sched as [|l sched IH]; intros t; [auto|].
  change (TTSClient.run (l :: sched) t)
    with (TTSClient.run sched (TTSClient.step l t)).
  destruct (IH (TTSClient.step l t)) as (H1 & H2 & H3). rewrite H1, H2, H3.
  destruct (step_engine l t) as [E|[l' E]]; rewrite E; [auto|].
  apply (run_config [l'] (engine t)).
Qed.

(** A call of [speak] or [flush]: on a connection that is gone nothing
    changes; on an open one its frame is sent and nothing else changes. *)
Lemma call_effect (l : label) (t : State) :
  is_thread l = false ->
  (connected (socket t) = false /\ step l t = t)
  \/ (connected (socket t) = true
      /\ exists frame,
           called [l] = [frame]
           /\ step l t
              = with_socket (log_event (SockSend frame) (socket t)) t).
Proof.
  intros Hl. destruct l as [text| |l]; [| |discriminate]; cbn [step called].
  - destruct (connected (socket t)) eqn:E.
    + right. split; [reflexivity|]. eexists. split; [reflexivity|].
      rewrite (speak_on_open text t E). reflexivity.
    + left. split; [reflexivity|].
      rewrite (speak_on_closed text t E). reflexivity.
  - destruct (connected (socket t)) eqn:E.
    + right. split; [reflexivity|]. eexists. split; [reflexivity|].
      rewrite (flush_on_open t E). reflexivity.
    + left. split; [reflexivity|].
      unfold flush, send_json.
      change (Json.dumps flush_message) with (Some Chatbot.flush_frame).
      rewrite E. reflexivity.
Qed.

Lemma main_step_invariants (l : label) (t : State) :
  final_inv t -> close_inv t -> Speaker.stop_inv (engine t) ->
  final_inv (step l t) /\ close_inv (step l t)
  /\ Speaker.stop_inv (engine (step l t))
  /\ Speaker._rate (Speaker.spk (engine (step l t)))
     = Speaker._rate (Speaker.spk (engine t))
  /\ Speaker._channels (Speaker.spk (engine (step l t)))
     = Speaker._channels (Speaker.spk (engine t))
  /\ Speaker._chunk (Speaker.spk (engine (step l t)))
     = Speaker._chunk (Speaker.spk (engine t)).
Proof.
  intros Hf Hc Hs. destruct (is_thread l) eqn:El.
  - destruct l as [text| |l]; try discriminate. cbn [step].
    split; [apply step_final_inv, Hf|].
    split; [apply step_close_inv, Hc|].
    split; [apply step_stop_inv_client, Hs|].
    apply (client_run_config [l] t).
  - destruct (call_effect l t El) as [[_ E]|[_ (frame & _ & E)]]; rewrite E;
      [auto 6|].
    destruct t as [eng [conn klog] ex rp ad con fl cl].
    unfold final_inv, close_inv in *. cbn in *.
    rewrite received_app. cbn. rewrite app_nil_r. auto 6.
Qed.

Lemma main_run_invariants (sched : list label) (t : State) :
  final_inv t -> close_inv t -> Speaker.stop_inv (engine t) ->
  final_inv (run sched t) /\ close_inv (run sched t)
  /\ Speaker.stop_inv (engine (run sched t))
  /\ Speaker._rate (Speaker.spk (engine (run sched t)))
     = Speaker._rate (Speaker.spk (engine t))
  /\ Speaker._channels (Speaker.spk (engine (run sched t)))
     = Speaker._channels (Speaker.spk (engine t))
  /\ Speaker._chunk (Speaker.spk (engine (run sched t)))
     = Speaker._chunk (Speaker.spk (engine t)).
Proof.
  revert t. induction sched as [|l sched IH]; intros t Hf Hc Hs; [auto 6|].
  change (run (l :: sched) t) with (run sched (step l t)).
  destruct (main_step_invariants l Hf Hc Hs) as (F & C & S & K1 & K2 & K3).
  destruct (IH (step l t) F C S) as (F' & C' & S' & J1 & J2 & J3).
  rewrite J1, J2, J3, K1, K2, K3. auto 6.
Qed.

Lemma called_app (a b : list label) : called (a ++ b) = called a ++ called b.
Proof.
  induction a as [|l a IH]; [reflexivity|].
  destruct l; cbn; rewrite IH; reflexivity.
Qed.

Lemma threads_sequential (sched : list label) :
  forallb is_thread sched = true -> sequential sched = true.
Proof.
  induction sched as [|x sched IH]; [reflexivity|]. intros H.
  cbn in H. apply andb_true_iff in H. destruct H as [Hx Hr].
  destruct x as [| |[| |]]; try discriminate; cbn; auto.
Qed.

(** One statement of [main] or of a thread keeps the wire as [wire_inv]
    says, and what may still be called. *)
Lemma step_wire_inv (l : label) (rest : list label) (cmds : list String.string)
      (t : State) :
  wire_inv cmds t -> allowed (l :: rest) t ->
  wire_inv (cmds ++ called [l]) (step l t) /\ allowed rest (step l t).
Proof.
  intros Hw Ha. destruct (is_thread l) eqn:El.
  - destruct l as [text| |l]; try discriminate. cbn [step called].
    rewrite app_nil_r.
    assert (Hrest : forallb is_thread rest = true
                    \/ (closer t = CEntry /\ l <> Closer
                        /\ sequential rest = true)).
    { unfold allowed in Ha. destruct (closer t) eqn:Ec; cbn in Ha;
        try (left; exact Ha).
      destruct l; try (left; exact Ha);
        right; repeat split; try discriminate; exact Ha. }
    destruct l as [r| |ok].
    + unfold wire_inv, allowed in *.
      rewrite (@step_closer (Rx r) t) by discriminate.
      split.
      * cbn [TTSClient.step].
        destruct t as [eng [conn klog] ex rp ad con fl cl].
        unfold receiver_step; cbn in *.
        destruct rp; cbn.
        -- destruct ex; exact Hw.
        -- destruct conn; cbn; [destruct r as [[|s|b|]|]|]; cbn;
             rewrite wire_app; cbn; rewrite app_nil_r;
             destruct cl; cbn in *; auto; discriminate.
        -- destruct (Speaker.stopper eng); exact Hw.
        -- exact Hw.
        -- exact Hw.
      * destruct Hrest as [H|(Hc & _ & H)].
        -- destruct (closer t); auto using threads_sequential.
        -- rewrite Hc. exact H.
    + split.
      * cbn [TTSClient.step].
        destruct t as [eng [conn klog] ex rp ad con fl cl].
        unfold wire_inv, close_step in *; cbn in *.
        destruct cl; cbn in *; auto.
        -- unfold send_json.
           change (Json.dumps close_message) with (Some close_text).
           cbn. destruct conn; cbn; [|exact I].
           rewrite wire_app, (Hw eq_refl). reflexivity.
        -- rewrite wire_app, Hw. cbn. rewrite <- app_assoc. reflexivity.
        -- destruct rp; cbn; exact Hw.
      * assert (H : forallb is_thread rest = true).
        { unfold allowed in Ha. destruct (closer t); cbn in Ha; exact Ha. }
        unfold allowed.
        destruct (closer (TTSClient.step Closer t));
          auto using threads_sequential.
    + cbn [TTSClient.step]. split.
      * destruct t; exact Hw.
      * destruct Hrest as [H|(Hc & _ & H)].
        -- unfold allowed. destruct t as [eng k ex rp ad con fl cl]. cbn.
           destruct cl; auto using threads_sequential.
        -- unfold allowed. destruct t as [eng k ex rp ad con fl cl].
           cbn in *. subst. exact H.
  - assert (Hc : closer t = CEntry /\ sequential rest = true).
    { unfold allowed in Ha. destruct l as [text| |l]; try discriminate;
        destruct (closer t); cbn in Ha; try discriminate; auto. }
    destruct Hc as [Hc Hseq].
    destruct (call_effect l t El) as [[Hd E]|[Hcn (frame & Hfr & E)]];
      rewrite E.
    + split.
      * unfold wire_inv. rewrite Hc. intros H. congruence.
      * unfold allowed. rewrite Hc. exact Hseq.
    + rewrite Hfr. split.
      * unfold wire_inv in *.
        destruct t as [eng [conn klog] ex rp ad con fl cl]. cbn in *.
        subst. intros _. rewrite wire_app, (Hw eq_refl), map_app.
        reflexivity.
      * unfold allowed.
        destruct t as [eng [conn klog] ex rp ad con fl cl]. cbn in *.
        subst. exact Hseq.
Qed.

Lemma run_wire_inv (sched : list label) (cmds : list String.string)
      (t : State) :
  wire_inv cmds t -> allowed sched t ->
  wire_inv (cmds ++ called sched) (run sched t).
Proof.
  revert cmds t. induction sched as [|l sched IH]; intros cmds t Hw Ha.
  - cbn. rewrite app_nil_r. exact Hw.
  - change (run (l :: sched) t) with (run sched (step l t)).
    destruct (@step_wire_inv l sched cmds t Hw Ha) as [Hw' Ha'].
    change (l :: sched) with ([l] ++ sched).
    rewrite called_app, app_assoc. apply IH; assumption.
Qed.

Lemma main_run_app (a b : list label) (t : State) :
  run (a ++ b) t = run b (run a t).
Proof. apply fold_left_app. Qed.

(** A call of [speak] then one of [flush], outside any [try], as calls of
    the main thread. *)
Lemma say_calls (text : String.string) (c : Chatbot.Chat) :
  exists calls,
    forallb is_call calls = true
    /\ Chatbot.session (snd (Chatbot.say text c))
       = run calls (Chatbot.session c).
Proof.
  unfold Chatbot.say.
  destruct (speak (Json.PyStr text) (Chatbot.session c)) as [[|e] t] eqn:E.
  - exists [CallSpeak text; CallFlush]. split; [reflexivity|].
    cbn [run fold_left step]. rewrite E. cbn [snd].
    destruct (flush t) as [[|e] t']; reflexivity.
  - exists [CallSpeak text]. split; [reflexivity|].
    cbn [run fold_left step]. rewrite E. reflexivity.
Qed.

Lemma speak_each_calls (ss : list String.string) (c : Chatbot.Chat) :
  exists calls,
    forallb is_call calls = true
    /\ Chatbot.session (snd (Chatbot.speak_each ss c))
       = run calls (Chatbot.session c).
Proof.
  revert c. induction ss as [|s ss IH]; intros c.
  - exists []. split; reflexivity.
  - cbn [Chatbot.speak_each].
    change (Chatbot.session (Chatbot.echo (s ++ " ") c))
      with (Chatbot.session c).
    destruct (speak (Json.PyStr s) (Chatbot.session c)) as [[|e] t] eqn:E.
    + destruct (IH (Chatbot.with_session t (Chatbot.echo (s ++ " ") c)))
        as (calls & Hc & Hr).
      exists (CallSpeak s :: calls). split; [exact Hc|].
      rewrite Hr. cbn [run fold_left step]. rewrite E. reflexivity.
    + exists [CallSpeak s]. split; [reflexivity|].
      cbn [run fold_left step]. rewrite E. reflexivity.
Qed.

Lemma generate_calls (r : Chatbot.reply) (c : Chatbot.Chat) :
  exists calls,
    forallb is_call calls = true
    /\ Chatbot.session (snd (Chatbot.generate r c))
       = run calls (Chatbot.session c).
Proof.
  unfold Chatbot.generate. destruct (Chatbot.reply_text r) as [text|f].
  - destruct (speak_each_calls (Chatbot.sentences text) c)
      as (calls & Hc & Hr).
    destruct (Chatbot.speak_each (Chatbot.sentences text) c)
      as [[e|] c1]; cbn [snd] in *.
    + exists calls. split; [exact Hc|]. exact Hr.
    + exists (calls ++ [CallFlush]). split.
      * rewrite forallb_app, Hc. reflexivity.
      * rewrite main_run_app, <- Hr. cbn [run fold_left step].
        destruct (flush (Chatbot.session c1)) as [[|e] t]; reflexivity.
  - exists []. split; reflexivity.
Qed.

Lemma converse_calls (name : String.string)
      (turns : list (String.string * Chatbot.reply)) (c : Chatbot.Chat) :
  exists calls,
    forallb is_call calls = true
    /\ Chatbot.session (snd (Chatbot.converse name turns c))
       = run calls (Chatbot.session c).
Proof.
  revert c. induction turns as [|[user_input r] turns IH]; intros c.
  - exists []. split; reflexivity.
  - cbn [Chatbot.converse]. destruct (Chatbot.is_exit user_input).
    + match goal with
      | |- context [Chatbot.say ?x ?y] =>
          destruct (say_calls x y) as (calls & Hc & Hr);
          destruct (Chatbot.say x y) as [[|e] c']
      end; exists calls; (split; [exact Hc | exact Hr]).
    + match goal with
      | |- context [Chatbot.generate ?x ?y] =>
          destruct (generate_calls x y) as (calls & Hc & Hr);
          destruct (IH (snd (Chatbot.generate x y))) as (calls' & Hc' & Hr')
      end.
      exists (calls ++ calls'). split.
      * rewrite forallb_app, Hc, Hc'. reflexivity.
      * rewrite Hr', Hr, main_run_app. reflexivity.
Qed.

Lemma conversation_calls (name : String.string)
      (turns : list (String.string * Chatbot.reply)) (c : Chatbot.Chat) :
  exists calls,
    forallb is_call calls = true
    /\ Chatbot.session (snd (Chatbot.start_conversation name turns c))
       = run calls (Chatbot.session c).
Proof.
  unfold Chatbot.start_conversation.
  match goal with
  | |- context [Chatbot.say ?x ?y] =>
      destruct (say_calls x y) as (calls & Hc & Hr);
      destruct (Chatbot.say x y) as [[|e] c']
  end; cbn [snd] in *.
  - destruct (converse_calls name turns c') as (calls' & Hc' & Hr').
    exists (calls ++ calls'). split.
    + rewrite forallb_app, Hc, Hc'. reflexivity.
    + rewrite Hr', Hr, main_run_app. reflexivity.
  - exists calls. split; [exact Hc | exact Hr].
Qed.

(** X17.  The end of [main]: [start_conversation], then
    [tts_client.close()], then [speaker.stop()].  The main thread makes any
    calls of [speak] and [flush] and then enters [close], the receiver and
    the playback thread running in between in any order;
    [start_conversation] acts on the client through such calls only.
    Whenever [close] has returned: the receiver has ended; exactly one
    recording has been exported, whose frames are the bytes of every binary
    fragment received, in order; the client has put on the wire the frame of
    every call made, in call order, then the Close frame, then the close of
    the connection, and nothing else.  The [stop] that follows finds the
    engine stopped by the receiver: it makes no call on the stream, which
    over the whole run has been opened, started, stopped and closed once
    each. *)
Theorem main_shutdown (c : Z) (sched : list label) :
  sequential sched = true ->
  closer (run sched (init (Speaker.started c))) = CReturned ->
  let t := run sched (init (Speaker.started c)) in
  let e := Speaker.run (repeat Speaker.Stop 4)
             (SpeakerMore.call_stop (engine t)) in
  receiver t = RDone
  /\ map frames (files t) = [concat (received (sock_log (socket t)))]
  /\ List.length (files t) = 1
  /\ wire (sock_log (socket t))
     = map SockSend (called sched) ++ [SockSend close_text; SockClose]
  /\ Speaker.stopper e = Speaker.SReturned
  /\ Speaker.dev e = Speaker.dev (engine t)
  /\ Speaker.lifecycle (s_log (Speaker.dev e))
     = [SinkOpen Config.RATE Config.CHANNELS c; SinkStart; SinkStop;
        SinkClose]
  /\ (forall name turns ch,
        exists calls,
          forallb is_call calls = true
          /\ Chatbot.session
               (snd (Chatbot.start_conversation name turns ch))
             = run calls (Chatbot.session ch)).
Proof.
  intros Hseq Hcl. cbv zeta.
  destruct (@main_run_invariants sched (init (Speaker.started c)))
    as (Hf & Hc & Hs & K1 & K2 & K3);
    [apply init_final_inv; reflexivity | exact I
     | apply started_stop_inv |].
  pose proof (@run_wire_inv sched [] (init (Speaker.started c))) as Hw.
  cbn [app] in Hw.
  assert (Hw' : wire_inv (called sched) (run sched (init (Speaker.started c))))
    by (apply Hw; [intros _; reflexivity | exact Hseq]).
  clear Hw.
  change (Speaker._rate (Speaker.spk (engine (init (Speaker.started c)))))
    with Config.RATE in K1.
  change (Speaker._channels (Speaker.spk (engine (init (Speaker.started c)))))
    with Config.CHANNELS in K2.
  change (Speaker._chunk (Speaker.spk (engine (init (Speaker.started c)))))
    with c in K3.
  remember (run sched (init (Speaker.started c))) as t eqn:Et. clear Et.
  unfold close_inv in Hc. unfold wire_inv in Hw'. rewrite Hcl in Hc, Hw'.
  destruct Hc as (_ & _ & Hr).
  destruct Hf as [Ha Hf]. rewrite Hr in Hf. destruct Hf as [Hfile Hst].
  destruct Hs as [_ Hex Heff Hcalls _]. rewrite Hst, K1, K2, K3 in *.
  cbn [Speaker.stop_effects Speaker.stop_calls] in *.
  injection Heff as F1 F2 _ _.
  assert (Hx : Speaker._exit (Speaker.spk (engine t)) = true)
    by (apply Hex; discriminate).
  split; [exact Hr|].
  split; [rewrite Hfile, <- Ha; reflexivity|].
  split; [rewrite Hfile; reflexivity|].
  split; [exact Hw'|].
  assert (Hlast : forall name turns ch,
        exists calls,
          forallb is_call calls = true
          /\ Chatbot.session
               (snd (Chatbot.start_conversation name turns ch))
             = run calls (Chatbot.session ch))
    by (intros; apply conversation_calls).
  destruct t as [[s d p pr st] k x rp a o fl cl]. destruct s. cbn in *.
  subst. cbn. auto 6.
Qed.

Lemma main_shutdown_witness :
  let sched :=
    [CallSpeak "Hi."; CallFlush; Thread (Rx (Recv (MBinary [x01])));
     Thread (Rx (Recv (MBinary [x01])))]
      ++ map Thread (close_exit (Recv MNone)) in
  let t := run sched (init (Speaker.started 4)) in
  receiver t = RDone
  /\ map frames (files t) = [[x01]]
  /\ sent (sock_log (socket t))
     = [Chatbot.speak_frame "Hi."; Chatbot.flush_frame; close_text].
Proof.
  cbv zeta.
  destruct (@main_shutdown 4
              ([CallSpeak "Hi."; CallFlush;
                Thread (Rx (Recv (MBinary [x01])));
                Thread (Rx (Recv (MBinary [x01])))]
                 ++ map Thread (close_exit (Recv MNone)))
              eq_refl eq_refl)
    as (H1 & H2 & _).
  split; [exact H1|]. split; [exact H2|]. reflexivity.
Defined.

End ShutdownFacts.
